(** * Cryptography: per-letter RSA permutation, Caesar cipher and their
    statistical attacks

    A shallow embedding of the three Node.js scripts of the repository

      - [rsa_freq.js]   (module [RsaFreq]):   per-letter RSA permutation and
                                               rank-alignment attack;
      - [rsa_attack.js] (module [RsaAttack]): per-letter RSA, frequency
                                               mapping and hill climbing;
      - [cesare.js]     (module [Cesare]):    Caesar cipher and chi-squared
                                               attack;

    followed by the properties proved about them.

    Conventions of the embedding.
      - A JavaScript [BigInt] is a [Z]; [%] and [/] on BigInt truncate
        towards zero and are [Z.rem] and [Z.quot]; a zero divisor throws a
        [RangeError].
      - A JavaScript [Number] that holds an integer is a [Z] as long as it
        stays a safe integer (below [2^53]), where Number arithmetic is
        exact.
      - A string is the list of its UTF-16 code units ([jsstring]); the
        texts the scripts work on are normalised, so iterating a string
        visits one code unit at a time.
      - A [Map] and a plain object used as a table are association lists in
        insertion order; [Map.set] on a present key keeps its position.
      - A thrown exception is the left injection of [result]. *)

From Stdlib Require Import ZArith Znumtheory Lia List Bool String Ascii DecimalString.
From Stdlib Require Import QArith Qminmax Lqa Permutation Sorted Finite.
From Stdlib Require Import Zmod.ZmodInv.
From Equations Require Import Equations.
Import ListNotations.

Local Open Scope Z_scope.

(* ===================================================================== *)
(** * Part I: the embedding *)
(* ===================================================================== *)

(** ** JavaScript values shared by the three scripts *)

Module JS.

(** Exceptions: [Error] is [throw new Error(msg)], [RangeError] is the
    division of a BigInt by [0n], [TypeError] is [BigInt(undefined)]. *)
Inductive exn : Type :=
| Error (msg : string)
| RangeError
| TypeError.

Definition result (A : Type) : Type := (exn + A)%type.

Definition ret {A : Type} (a : A) : result A := inr a.
Definition throw {A : Type} (e : exn) : result A := inl e.

Definition bind {A B : Type} (m : result A) (k : A -> result B) : result B :=
  match m with
  | inl e => inl e
  | inr a => k a
  end.


(** [xs.map(f)] where [f] may throw: the first exception aborts. *)
Fixpoint mapM {A B : Type} (f : A -> result B) (xs : list A) : result (list B) :=
  match xs with
  | [] => ret []
  | x :: xs' =>
      bind (f x) (fun y => bind (mapM f xs') (fun ys => ret (y :: ys)))
  end.

(** Strings as UTF-16 code units. *)
Definition jsstring : Type := list Z.

Definition str (s : string) : jsstring :=
  map (fun a => Z.of_N (N_of_ascii a)) (list_ascii_of_string s).

(** [String.fromCharCode(k)] for an integer [k]. *)
Definition fromCharCode (k : Z) : Z := k mod 65536.

(** [arr.join('')] on an array of one-character strings, where
    [undefined] elements are rendered as the empty string. *)
Fixpoint join (xs : list (option Z)) : jsstring :=
  match xs with
  | [] => []
  | Some c :: xs' => c :: join xs'
  | None :: xs' => join xs'
  end.

(** [Map]: association list in insertion order. *)
Section MapOps.
Context {K V : Type} (eqb : K -> K -> bool).

Fixpoint map_get (m : list (K * V)) (k : K) : option V :=
  match m with
  | [] => None
  | (k', v) :: m' => if eqb k k' then Some v else map_get m' k
  end.

Fixpoint map_set (m : list (K * V)) (k : K) (v : V) : list (K * V) :=
  match m with
  | [] => [(k, v)]
  | (k', v') :: m' =>
      if eqb k k' then (k, v) :: m' else (k', v') :: map_set m' k v
  end.

Definition map_has (m : list (K * V)) (k : K) : bool :=
  match map_get m k with Some _ => true | None => false end.
End MapOps.

(** [Array.prototype.sort(cmp)]: a stable sort; [cmp a b] is the number
    the comparator returns.  Written as a stable insertion sort. *)
Section Sort.
Context {A : Type} (cmp : A -> A -> Z).

Fixpoint sort_insert (x : A) (l : list A) : list A :=
  match l with
  | [] => [x]
  | y :: l' => if cmp x y <=? 0 then x :: l else y :: sort_insert x l'
  end.

Definition sort (l : list A) : list A := fold_right sort_insert [] l.
End Sort.

(** [new Set(xs)] followed by [Array.from]: first occurrences, in
    order. *)
Fixpoint set_add (x : Z) (s : list Z) : list Z :=
  match s with
  | [] => [x]
  | y :: s' => if x =? y then s else y :: set_add x s'
  end.

Definition set_from (xs : list Z) : list Z :=
  fold_left (fun s x => set_add x s) xs [].

(** [[...Array(n).keys()]]. *)
Definition keys (n : nat) : list Z := map Z.of_nat (seq 0 n).

(** The [while (e > 0n)] loop shared by [modPowBig] (rsa_freq.js) and
    [modPow] (rsa_attack.js), with [r] the accumulator, [b] the running
    square and [e] the remaining exponent.  It runs once per bit of the
    exponent, which is the fuel [bits e]. *)
Fixpoint powLoop (fuel : nat) (r b e m : Z) : Z :=
  match fuel with
  | O => r
  | S fuel' =>
      if 0 <? e then
        let r' := if negb (Z.land e 1 =? 0) then Z.rem (r * b) m else r in
        powLoop fuel' r' (Z.rem (b * b) m) (Z.shiftr e 1) m
      else r
  end.

Definition bits (e : Z) : nat := S (Z.to_nat (Z.log2 e)).

(** [String.prototype.trim]: the white space and line terminator code
    units are stripped from both ends. *)
Definition isWhiteSpace (c : Z) : bool :=
  existsb (Z.eqb c)
          [9; 10; 11; 12; 13; 32; 160; 5760; 8232; 8233; 8239; 8287; 12288; 65279]
  || ((8192 <=? c) && (c <=? 8202)).

Fixpoint trimStart (s : jsstring) : jsstring :=
  match s with
  | [] => []
  | c :: s' => if isWhiteSpace c then trimStart s' else s
  end.

Definition trim (s : jsstring) : jsstring :=
  rev (trimStart (rev (trimStart s))).

End JS.

Import JS.

Notation "x <- m ;; k" := (bind m (fun x => k))
  (at level 61, m at next level, right associativity).

(** ** rsa_freq.js *)

Module RsaFreq.

(** [countFreqAZ]: the 26 counters, bumped at index [code - 65]. *)
Fixpoint bump (i : nat) (f : list Z) : list Z :=
  match f, i with
  | [], _ => []
  | c :: f', O => (c + 1) :: f'
  | c :: f', S i' => c :: bump i' f'
  end.

Definition countFreqAZ (s : jsstring) : list Z :=
  fold_left
    (fun f ch =>
       let i := ch - 65 in
       if (0 <=? i) && (i <? 26) then bump (Z.to_nat i) f else f)
    s (repeat 0 26).

(** The comparator of [orderByFreq]: [(f[b] - f[a]) || (a - b)]. *)
Definition byFreqThenIndex (f : list Z) (a b : Z) : Z :=
  let d := nth (Z.to_nat b) f 0 - nth (Z.to_nat a) f 0 in
  if d =? 0 then a - b else d.

Definition orderIdx (textAZ : jsstring) : list Z :=
  sort (byFreqThenIndex (countFreqAZ textAZ)) (keys 26).

Definition orderByFreq (textAZ : jsstring) : list Z :=
  map (fun i => fromCharCode (65 + i)) (orderIdx textAZ).

(** [applySubst]: [map.get(ch) || '?']. *)
Definition applySubst (textAZ : jsstring) (m : list (Z * Z)) : jsstring :=
  map (fun ch => match map_get Z.eqb m ch with
                 | Some c => c
                 | None => 63
                 end) textAZ.

(** [egcdBig]: the record [{g, x, y}]. *)
Record egcd_result : Type := mkEgcd { g : Z; x : Z; y : Z }.

Equations? egcdBig (a b : Z) : egcd_result by wf (Z.abs_nat b) lt :=
  egcdBig a b with Z.eq_dec b 0 := {
    | left _ => mkEgcd a 1 0
    | right _ =>
        let r := egcdBig b (Z.rem a b) in
        mkEgcd (g r) (y r) (x r - Z.quot a b * y r) }.
Proof.
  pose proof (Z.rem_bound_abs a b n). lia.
Qed.

(** The message of [modInvBig] spells the totient with the Greek
    letter; it is written [phi] here. *)
Definition modInvBig (e phi : Z) : result Z :=
  let r := egcdBig e phi in
  if negb (g r =? 1) then throw (Error "e e phi non coprimi")
  else if phi =? 0 then throw RangeError
  else ret (Z.rem (Z.rem (x r) phi + phi) phi).

Definition modPowBig (base exp modulus : Z) : result Z :=
  if modulus =? 0 then throw RangeError
  else ret (powLoop (bits exp) 1 (Z.rem base modulus) exp modulus).

(** [buildPlainToNumMap]: the record [{n, map, uniq}]. *)
Record plainToNum : Type :=
  mkPlainToNum { n : Z; map : list (Z * Z); uniq : list Z }.

(** The indices [m = 0 .. 25] of the loop. *)
Definition indices : list Z := keys 26.

Definition residueError (count : nat) : exn :=
  Error ("m^e mod n produce " ++ NilEmpty.string_of_uint (Nat.to_uint count)
         ++ " residui (serve 26). Usa p=13 q=11 e=7 o parametri equivalenti.").

Definition buildPlainToNumMap (p q e : Z) : result plainToNum :=
  let n := p * q in
  nums <- mapM (fun m => modPowBig m e n) indices ;;
  let map :=
    fold_left (fun acc mc => map_set Z.eqb acc (fromCharCode (65 + fst mc)) (snd mc))
              (combine indices nums) [] in
  let uniq := set_from (List.map snd map) in
  if negb (Nat.eqb (List.length uniq) 26)
  then throw (residueError (List.length uniq))
  else ret (mkPlainToNum n map (sort (fun a b => if a <? b then -1 else if a >? b then 1 else 0) uniq)).

(** [buildSymbolMaps]: the record [{numToSym, plainToSym, symToNum}].
    A residue that has no symbol leaves [undefined] in [plainToSym]. *)
Record symbolMaps : Type :=
  mkSymbolMaps { numToSym : list (Z * Z);
                 plainToSym : list (Z * option Z);
                 symToNum : list (Z * Z) }.

Definition buildSymbolMaps (mapPlainToNum : list (Z * Z)) (uniq : list Z) : symbolMaps :=
  let numToSym :=
    fold_left (fun acc iu => map_set Z.eqb acc (snd iu) (fromCharCode (65 + fst iu)))
              (combine (keys 26) uniq) [] in
  let plainToSym :=
    fold_left (fun acc ln => map_set Z.eqb acc (fst ln) (map_get Z.eqb numToSym (snd ln)))
              mapPlainToNum [] in
  let symToNum :=
    fold_left (fun acc ns => map_set Z.eqb acc (snd ns) (fst ns)) numToSym [] in
  mkSymbolMaps numToSym plainToSym symToNum.

(** Lines 161-171 of [main]: build the permutation, encrypt, compute the
    private exponent and decrypt.  A cipher symbol without a residue
    makes [modPowBig] call [BigInt(undefined)], a [TypeError]. *)
Definition encrypt (plainToSym : list (Z * option Z)) (plainAZ : jsstring) : jsstring :=
  join (List.map (fun ch => match map_get Z.eqb plainToSym ch with
                            | Some s => s
                            | None => None
                            end) plainAZ).

Definition decrypt (symToNum : list (Z * Z)) (d n : Z) (cipherAZ : jsstring)
  : result jsstring :=
  mapM (fun sym =>
          match map_get Z.eqb symToNum sym with
          | None => throw TypeError
          | Some c => m <- modPowBig c d n ;; ret (fromCharCode (65 + m))
          end) cipherAZ.

Definition encryptDecrypt (p q e : Z) (plainAZ : jsstring)
  : result (jsstring * jsstring) :=
  k <- buildPlainToNumMap p q e ;;
  let maps := buildSymbolMaps (map k) (uniq k) in
  let cipherAZ := encrypt (plainToSym maps) plainAZ in
  let phi := (p - 1) * (q - 1) in
  d <- modInvBig e phi ;;
  decAZ <- decrypt (symToNum maps) d (n k) cipherAZ ;;
  ret (cipherAZ, decAZ).

(** The rank-alignment attack of [main] (lines 175-181). *)
Definition rankMapping (plainAZ cipherAZ : jsstring) : list (Z * Z) :=
  fold_left (fun acc cs => map_set Z.eqb acc (fst cs) (snd cs))
            (combine (orderByFreq cipherAZ) (orderByFreq plainAZ)) [].

(** Line 181 of [main]: the guess of the attack. *)
Definition rankGuess (plainAZ cipherAZ : jsstring) : jsstring :=
  applySubst cipherAZ (rankMapping plainAZ cipherAZ).

(** Line 187 of [main]: the number of positions at which the guess has
    the character of the plaintext, before it is turned into a
    percentage; [guessAZ[i]] is [undefined] past the end. *)
Definition matched (plainAZ guessAZ : jsstring) : Z :=
  fold_left (fun k ic =>
               k + (if match nth_error guessAZ (fst ic) with
                       | Some gc => snd ic =? gc
                       | None => false
                       end
                    then 1 else 0))
            (combine (seq 0 (List.length plainAZ)) plainAZ) 0.

End RsaFreq.

(** ** rsa_attack.js *)

Module RsaAttack.

Definition modPow (base exp modulus : Z) : result Z :=
  if modulus =? 0 then throw RangeError
  else
    let base := Z.rem (Z.rem base modulus + modulus) modulus in
    ret (powLoop (bits exp) 1 base exp modulus).

(** [ALPHABET]: the letters A-Z followed by the space. *)
Definition ALPHABET : list Z :=
  List.map (fun i => fromCharCode (65 + i)) (keys 26) ++ [32].

Definition CHAR2INT : list (Z * Z) :=
  fold_left (fun acc ci => map_set Z.eqb acc (fst ci) (snd ci))
            (combine ALPHABET (keys (List.length ALPHABET))) [].

Definition INT2CHAR : list (Z * Z) :=
  fold_left (fun acc kv => map_set Z.eqb acc (snd kv) (fst kv)) CHAR2INT [].

(** [CHAR2INT[c] !== undefined], also [c in CHAR2INT]. *)
Definition inAlphabet (c : Z) : bool := map_has Z.eqb CHAR2INT c.

(** The part of the key record that the attack reads: [{N, e, d}]. *)
Record rsaKey : Type := mkKey { N : Z; e : Z; d : Z }.

(** A cipher array holds BigInts and [null]. *)
Definition cipherArray : Type := list (option Z).

Definition encryptTextRSA (text : jsstring) (pub : rsaKey) : result cipherArray :=
  mapM (fun ch =>
          match map_get Z.eqb CHAR2INT ch with
          | None => ret None
          | Some m => c <- modPow m (e pub) (N pub) ;; ret (Some c)
          end) text.

(** [INT2CHAR[Number(m)]] is [undefined] outside the alphabet, and
    [join] renders it as the empty string. *)
Definition decryptTextRSA (cipherArr : cipherArray) (priv : rsaKey) : result jsstring :=
  out <- mapM (fun c =>
                 match c with
                 | None => ret (Some 63)
                 | Some c => m <- modPow c (d priv) (N priv) ;;
                             ret (map_get Z.eqb INT2CHAR m)
                 end) cipherArr ;;
  ret (join out).

(** [countsFromArray]: the key is the decimal string of the BigInt,
    which determines it; the table is keyed by the BigInt itself. *)
Definition countsFromArray (arr : cipherArray) : list (Z * Z) :=
  fold_left (fun cnt x =>
               match x with
               | None => cnt
               | Some k =>
                   map_set Z.eqb cnt k
                     (match map_get Z.eqb cnt k with Some c => c | None => 0 end + 1)
               end) arr [].

(** The comparator [(a, b) => b[1] - a[1]]. *)
Definition byCountDesc (a b : Z * Z) : Z := snd b - snd a.

(** A cipher-to-plain [Map]: symbol to one-character string, or
    [undefined]. *)
Definition mapping : Type := list (Z * option Z).

Definition expectedSymbols (rsaPub : rsaKey) : result (list Z) :=
  mapM (fun i => modPow i (e rsaPub) (N rsaPub)) (keys (List.length ALPHABET)).

(** [for (const c of ALPHABET) if (!plainList.includes(c)) plainList.push(c)]. *)
Definition padPlainList (plainList : list Z) : list Z :=
  fold_left (fun pl c => if existsb (Z.eqb c) pl then pl else pl ++ [c])
            ALPHABET plainList.

(** [freqMapping]; [plainCounts] is the object of the caller, keyed by
    alphabet symbols, in the order its keys were inserted. *)
Definition freqMapping (cipherNums : cipherArray) (plainCounts : list (Z * Z))
           (rsaPub : rsaKey) : result mapping :=
  expectedCipherSymbols <- expectedSymbols rsaPub ;;
  let cCounts := countsFromArray cipherNums in
  let arr :=
    sort byCountDesc
         (List.map (fun sym => (sym, match map_get Z.eqb cCounts sym with
                                     | Some c => c
                                     | None => 0
                                     end)) expectedCipherSymbols) in
  let plainList := padPlainList (List.map fst (sort byCountDesc plainCounts)) in
  ret (fold_left (fun m ia => map_set Z.eqb m (fst (snd ia)) (nth_error plainList (fst ia)))
                 (combine (seq 0 (List.length expectedCipherSymbols)) arr) []).

(** [mapping.get(c.toString()) || '?']. *)
Definition letterOf (m : mapping) (c : Z) : Z :=
  match map_get Z.eqb m c with
  | Some (Some letter) => letter
  | _ => 63
  end.

Definition applyMappingToCipher (cipherNums : cipherArray) (m : mapping) : jsstring :=
  List.map (fun c => match c with
                     | None => 63
                     | Some c => letterOf m c
                     end) cipherNums.

(** [countsObjectFromString], which also builds [plainCounts] in
    [main]. *)
Definition countsObjectFromString (s : jsstring) : list (Z * Z) :=
  fold_left (fun cnt ch =>
               if inAlphabet ch
               then map_set Z.eqb cnt ch
                      (match map_get Z.eqb cnt ch with Some c => c | None => 0 end + 1)
               else cnt) s [].

(** Scores are JavaScript numbers.  The search only adds them and
    compares them, so they are kept abstract: [num] with its zero, its
    addition and its [>]. *)
Section Search.
Context {num : Type} (zero : num) (add : num -> num -> num)
        (gtb : num -> num -> bool).

(** [bigramModel[a + b]] for two symbols. *)
Definition bigram : Type := Z -> Z -> num.

Fixpoint scorePairs (model : bigram) (decoded : jsstring) (score : num) : num :=
  match decoded with
  | [] => score
  | a :: rest =>
      match rest with
      | [] => score
      | b :: _ =>
          scorePairs model rest
            (if inAlphabet a && inAlphabet b then add score (model a b) else score)
      end
  end.

Definition scoreMapping (m : mapping) (cipherNums : cipherArray) (model : bigram) : num :=
  scorePairs model (applyMappingToCipher cipherNums m) zero.

(** The seed padding: [remainingLetters.pop()] takes the last
    letter. *)
Definition padStep (st : mapping * list Z) (sym : Z) : mapping * list Z :=
  let '(m, remainingLetters) := st in
  if map_has Z.eqb m sym then st
  else
    match rev remainingLetters with
    | [] => (map_set Z.eqb m sym (nth_error ALPHABET 0), remainingLetters)
    | last :: front => (map_set Z.eqb m sym (Some last), rev front)
    end.

Definition assignedLetters (m : mapping) : list (option Z) := List.map snd m.

Definition padMapping (m : mapping) (expected : list Z) : mapping :=
  let remainingLetters :=
    filter (fun c => negb (existsb (fun v => match v with
                                             | Some l => l =? c
                                             | None => false
                                             end) (assignedLetters m)))
           ALPHABET in
  fst (fold_left padStep expected (m, remainingLetters)).

(** [mapping.get(k)]: [undefined] for a missing key. *)
Definition getLetter (m : mapping) (k : Z) : option Z :=
  match map_get Z.eqb m k with
  | Some v => v
  | None => None
  end.

Definition swapLetters (m : mapping) (a b : Z) : mapping :=
  let ma := getLetter m a in
  let mb := getLetter m b in
  map_set Z.eqb (map_set Z.eqb m a mb) b ma.

Definition revertLetters (m swapped : mapping) (a b : Z) : mapping :=
  let ma := getLetter m a in
  let mb := getLetter m b in
  map_set Z.eqb (map_set Z.eqb swapped a ma) b mb.

(** One iteration of the search.  The two draws of
    [Math.floor(Math.random() * syms.length)] are an index pair
    supplied by the caller, reduced below [syms.length]. *)
Definition climbStep (cipherNums : cipherArray) (model : bigram) (syms : list Z)
           (st : mapping * num) (draw : nat * nat) : mapping * num :=
  let '(m, bestScore) := st in
  let i := (fst draw mod List.length syms)%nat in
  let j := (snd draw mod List.length syms)%nat in
  if Nat.eqb i j then st
  else
    let a := nth i syms 0 in
    let b := nth j syms 0 in
    let swapped := swapLetters m a b in
    let newScore := scoreMapping swapped cipherNums model in
    if gtb newScore bestScore then (swapped, newScore)
    else (revertLetters m swapped a b, bestScore).

(** [hillClimb] as a state transformer on the [Map] it is given: the
    final state of the map, and the returned [bestScore].  [draws]
    has one entry per iteration. *)
Definition hillClimbOn (m : mapping) (cipherNums : cipherArray) (model : bigram)
           (rsaPub : rsaKey) (draws : list (nat * nat)) : result (mapping * num) :=
  expected <- expectedSymbols rsaPub ;;
  let m0 := padMapping m expected in
  let bestScore := scoreMapping m0 cipherNums model in
  ret (fold_left (climbStep cipherNums model expected) draws (m0, bestScore)).

(** The heap of [Map] objects: [hillClimb] receives a reference and
    writes through it.  A reference of a JavaScript program always
    points to an allocated object; [hillClimb] is only specified on
    such references. *)
Definition heap : Type := list mapping.

Fixpoint store (h : heap) (ref : nat) (m : mapping) : heap :=
  match h, ref with
  | [], _ => []
  | _ :: h', O => m :: h'
  | m' :: h', S ref' => m' :: store h' ref' m
  end.

Definition hillClimb (ref : nat) (cipherNums : cipherArray) (model : bigram)
           (rsaPub : rsaKey) (draws : list (nat * nat)) (h : heap)
  : result (num * heap) :=
  match nth_error h ref with
  | None => throw (Error "mapping is not an object")
  | Some m =>
      r <- hillClimbOn m cipherNums model rsaPub draws ;;
      ret (snd r, store h ref (fst r))
  end.

(** Lines 507-517 of [main]: the mapping is allocated by
    [freqMapping], scored, handed to [hillClimb], and read again. *)
Definition attack (cipherNums : cipherArray) (plainCounts : list (Z * Z))
           (model : bigram) (rsa : rsaKey) (draws : list (nat * nat))
  : result (jsstring * num * num * jsstring) :=
  mappingFreq <- freqMapping cipherNums plainCounts rsa ;;
  let h := [mappingFreq] in
  let decodedFreq := applyMappingToCipher cipherNums mappingFreq in
  let beforeScore := scoreMapping mappingFreq cipherNums model in
  r <- hillClimb 0 cipherNums model rsa draws h ;;
  let decodedHill :=
    applyMappingToCipher cipherNums (nth 0 (snd r) []) in
  ret (decodedFreq, beforeScore, fst r, decodedHill).
End Search.

(** [egcd]: the array [[x, y, g]]. *)
Equations? egcd (a b : Z) : Z * Z * Z by wf (Z.abs_nat b) lt :=
  egcd a b with Z.eq_dec b 0 := {
    | left _ => (1, 0, a)
    | right _ =>
        let r := egcd b (Z.rem a b) in
        let x1 := fst (fst r) in
        let y1 := snd (fst r) in
        (y1, x1 - Z.quot a b * y1, snd r) }.
Proof.
  pose proof (Z.rem_bound_abs a b n). lia.
Qed.

Definition modInv (a m : Z) : result Z :=
  let r := egcd a m in
  let x := fst (fst r) in
  if negb (snd r =? 1) then throw (Error "No modular inverse")
  else if m =? 0 then throw RangeError
  else ret (Z.rem (Z.rem x m + m) m).

(** [gcd]: the [while (b)] loop, entered with the two absolute
    values. *)
Equations? gcdLoop (a b : Z) : Z by wf (Z.abs_nat b) lt :=
  gcdLoop a b with Z.eq_dec b 0 := {
    | left _ => a
    | right _ => gcdLoop b (Z.rem a b) }.
Proof.
  pose proof (Z.rem_bound_abs a b n). lia.
Qed.

Definition gcd (a b : Z) : Z :=
  gcdLoop (if a <? 0 then - a else a) (if b <? 0 then - b else b).

(** [makeSmallRSA]: the record [{p, q, N, e, d, phi}]; the fields
    [N], [e] and [d] are the [rsaKey] that the other functions read. *)
Record rsaParams : Type :=
  mkParams { p : Z; q : Z; key : rsaKey; phi : Z }.

Definition makeSmallRSA (p q e : Z) : result rsaParams :=
  let N := p * q in
  let phi := (p - 1) * (q - 1) in
  if negb (gcd e phi =? 1) then throw (Error "e must be coprime with phi")
  else d <- modInv e phi ;; ret (mkParams p q (mkKey N e d) phi).

(** [normalizeText]: the loop over the upper-cased string, then
    [trim].  The state is [(out, prevSpace)].  [toUpperCase] is the
    method of the JavaScript engine. *)
Definition normalizeStep (st : jsstring * bool) (ch : Z) : jsstring * bool :=
  if (65 <=? ch) && (ch <=? 90) then (fst st ++ [ch], false)
  else if ch =? 32 then
         if negb (snd st) then (fst st ++ [32], true) else st
       else st.

Definition normalizeText (toUpperCase : jsstring -> jsstring) (s : jsstring) : jsstring :=
  trim (fst (fold_left normalizeStep (toUpperCase s) ([], false))).

(** [buildBigramModelFromText].  The key [a + b] of a bigram is the
    pair of its two code units. *)
Definition pairEqb (x y : Z * Z) : bool :=
  (fst x =? fst y) && (snd x =? snd y).

(** [(text[i], text[i + 1])] for [i = 0 .. text.length - 2]. *)
Fixpoint adjacent (text : jsstring) : list (Z * Z) :=
  match text with
  | [] => []
  | a :: rest =>
      match rest with
      | [] => []
      | b :: _ => (a, b) :: adjacent rest
      end
  end.

(** The first loop: [(bigramCounts, total)]. *)
Definition countBigrams (text : jsstring) : list (Z * Z * Z) * Z :=
  fold_left (fun st ab =>
               if inAlphabet (fst ab) && inAlphabet (snd ab)
               then (map_set pairEqb (fst st) ab
                       (match map_get pairEqb (fst st) ab with
                        | Some c => c
                        | None => 0
                        end + 1),
                     snd st + 1)
               else st)
            (adjacent text) ([], 0).

(** The second loop.  [Math.log] is applied to the quotient
    [cnt / (total + V * V)] of two integers, kept as a rational. *)
Section Model.
Context {num : Type} (log : Q -> num).

Definition buildBigramModelFromText (text : jsstring) : list (Z * Z * num) :=
  let bigramCounts := fst (countBigrams text) in
  let total := snd (countBigrams text) in
  let V := Z.of_nat (List.length ALPHABET) in
  fold_left (fun model ab =>
               let cnt := match map_get pairEqb bigramCounts ab with
                          | Some c => c
                          | None => 0
                          end + 1 in
               map_set pairEqb model ab
                       (log (inject_Z cnt / inject_Z (total + V * V))%Q))
            (list_prod ALPHABET ALPHABET) [].
End Model.

(** [accuracy]: the record [{tot, corr, acc}]. *)
Record accuracyResult : Type := mkAccuracy { tot : Z; corr : Z; acc : Q }.

Definition accuracyStep (st : Z * Z) (dt : Z * Z) : Z * Z :=
  if inAlphabet (snd dt)
  then (fst st + 1, if fst dt =? snd dt then snd st + 1 else snd st)
  else st.

Definition accuracy (decoded plaintext : jsstring) : accuracyResult :=
  let st := fold_left accuracyStep (combine decoded plaintext) (0, 0) in
  mkAccuracy (fst st) (snd st)
             (if fst st =? 0 then 0%Q else (inject_Z (snd st) / inject_Z (fst st))%Q).

End RsaAttack.

(** ** cesare.js *)

Module Cesare.

Definition letters : list Z := str "ABCDEFGHIJKLMNOPQRSTUVWXYZ".

Definition Qltb (a b : Q) : bool := negb (Qle_bool b a).

(** [freqCount]: the record [{counts, perc, n}].  Percentages are
    exact rationals. *)
Record freq : Type :=
  mkFreq { counts : list (Z * Z); perc : list (Z * Q); n : Z }.

Definition freqCount (t : jsstring) : freq :=
  let counts0 := fold_left (fun acc L => map_set Z.eqb acc L 0) letters [] in
  let counts :=
    fold_left (fun acc ch =>
                 match map_get Z.eqb acc ch with
                 | Some c => map_set Z.eqb acc ch (c + 1)
                 | None => acc
                 end) t counts0 in
  let n := if Z.of_nat (List.length t) =? 0 then 1 else Z.of_nat (List.length t) in
  let perc :=
    fold_left (fun acc L =>
                 map_set Z.eqb acc L
                   (match map_get Z.eqb counts L with
                    | Some c => (inject_Z (c * 100) / inject_Z n)%Q
                    | None => 0%Q
                    end)) letters [] in
  mkFreq counts perc n.

Definition caesarShift (t : jsstring) (k : Z) : jsstring :=
  List.map (fun ch =>
              if (65 <=? ch) && (ch <=? 90)
              then fromCharCode (Z.rem (ch - 65 + k) 26 + 65)
              else ch) t.

Definition ITALIAN_FREQ : list (Z * Q) :=
  combine letters
    [ 1174 # 100;   92 # 100;  450 # 100;  373 # 100; 1179 # 100;
        95 # 100;  164 # 100;  154 # 100; 1014 # 100;    0 # 100;
         0 # 100;  651 # 100;  251 # 100;  688 # 100;  983 # 100;
       305 # 100;   51 # 100;  637 # 100;  498 # 100;  562 # 100;
       301 # 100;  210 # 100;    0 # 100;    0 # 100;    0 # 100;
       118 # 100 ]%Q.

Definition eps : Q := (1 # 1000000)%Q.

Definition chiSquared (obsPerc : list (Z * Q)) : Q :=
  fold_left (fun chi le =>
               let expected := snd le in
               let observed := match map_get Z.eqb obsPerc (fst le) with
                               | Some o => o
                               | None => 0%Q
                               end in
               (chi + ((observed - expected) * (observed - expected))
                      / Qmax expected eps)%Q)
            ITALIAN_FREQ 0%Q.

(** The record [{shift, chi, plain}]; [chi] is [None] for
    [Infinity]. *)
Record best : Type := mkBest { shift : Z; chi : option Q; plain : jsstring }.

Definition better (c : Q) (b : best) : bool :=
  match chi b with
  | None => true
  | Some bc => Qltb c bc
  end.

Definition tryShift (cipher : jsstring) (b : best) (k : Z) : best :=
  let dec := caesarShift cipher (Z.rem (26 - k) 26) in
  let c := chiSquared (perc (freqCount dec)) in
  if better c b then mkBest (Z.rem (26 - k) 26) (Some c) dec else b.

Definition bestShiftByFrequency (cipher : jsstring) : best :=
  fold_left (tryShift cipher) (keys 26) (mkBest 0 None cipher).

(** Lines 124-129 of [main]: the normalised text is encrypted with the
    shift of the command line and the ciphertext is attacked; the
    result is [(cipher, detectedShift, dec)]. *)
Definition encryptAndAttack (norm : jsstring) (k : Z) : jsstring * Z * jsstring :=
  let cipher := caesarShift norm k in
  let b := bestShiftByFrequency cipher in
  (cipher, shift b, plain b).

End Cesare.

(** ** Reference definitions, in the words of the specification

    These are what the properties below compare the code with. *)

Module Spec.

(** The 26 residues [m ^ e mod (p * q)] for [m = 0 .. 25]. *)
Definition residues (p q e : Z) : list Z :=
  List.map (fun m => m ^ e mod (p * q)) (keys 26).

(** The letters A-Z. *)
Definition lettersAZ : jsstring := str "ABCDEFGHIJKLMNOPQRSTUVWXYZ".

Definition isAZ (c : Z) : Prop := 65 <= c <= 90.

(** How often the symbol [L] occurs in [t]. *)
Definition occurrences (L : Z) (t : jsstring) : Z :=
  Z.of_nat (count_occ Z.eq_dec t L).

(** The sum of a list of rationals. *)
Definition sumQ (l : list Q) : Q := fold_right Qplus 0%Q l.

(** Pairwise distinctness, as a test. *)
Fixpoint distinctb (l : list Z) : bool :=
  match l with
  | [] => true
  | x :: l' => negb (existsb (Z.eqb x) l') && distinctb l'
  end.

(** [obsPerc[L] || 0]: the observed percentage of a letter. *)
Definition observed (obsPerc : list (Z * Q)) (L : Z) : Q :=
  match map_get Z.eqb obsPerc L with
  | Some o => o
  | None => 0%Q
  end.

(** The chi-squared statistic of the full decoding of [cipher] by the
    shift [s]. *)
Definition chiOfShift (cipher : jsstring) (s : Z) : Q :=
  Cesare.chiSquared (Cesare.perc (Cesare.freqCount (Cesare.caesarShift cipher s))).

(** [ENC(plain, shift)]: the Caesar encryption. *)
Definition ENC (plain : jsstring) (shift : Z) : jsstring :=
  Cesare.caesarShift plain shift.



(** A bijection from the expected cipher symbols onto the alphabet
    letters: every expected symbol has a letter, two expected symbols
    never share one, and every letter is taken. *)
Definition bijection (expected : list Z) (m : RsaAttack.mapping) : Prop :=
  (forall s, In s expected ->
             exists l, In l RsaAttack.ALPHABET /\ RsaAttack.getLetter m s = Some l) /\
  (forall s1 s2, In s1 expected -> In s2 expected ->
                 RsaAttack.getLetter m s1 = RsaAttack.getLetter m s2 -> s1 = s2) /\
  (forall l, In l RsaAttack.ALPHABET ->
             exists s, In s expected /\ RsaAttack.getLetter m s = Some l).

(** A seed for the search: a [Map] that sends some of the expected
    symbols to alphabet letters, no letter twice. *)
Definition partialInjection (expected : list Z) (m : RsaAttack.mapping) : Prop :=
  NoDup (List.map fst m) /\
  incl (List.map fst m) expected /\
  exists ls, List.map snd m = List.map Some ls /\ NoDup ls /\ incl ls RsaAttack.ALPHABET.

(** [x <= y] on scores, from the [>] of the code. *)
Definition scoreLe {num : Type} (gtb : num -> num -> bool) (x y : num) : Prop :=
  x = y \/ gtb y x = true.

(** [a] ranks before [b]: more frequent, or as frequent and of smaller
    alphabetical index.  [f] lists the counts by index. *)
Definition rankBefore (f : list Z) (a b : Z) : Prop :=
  nth (Z.to_nat b) f 0 < nth (Z.to_nat a) f 0 \/
  (nth (Z.to_nat a) f 0 = nth (Z.to_nat b) f 0 /\ a < b).

(** The rank alignment in the words of the specification, for the 27
    symbols of rsa_attack.js: the indices [0 .. 26] are ranked by
    descending count, ties by ascending index, once with the counts of
    the expected cipher symbols in the ciphertext and once with the
    counts of the alphabet symbols in the reference text; entries of
    the same rank are paired. *)
Definition countIn (table : list (Z * Z)) (k : Z) : Z :=
  match map_get Z.eqb table k with Some c => c | None => 0 end.

Definition rankIdx (symbols : list Z) (table : list (Z * Z)) : list Z :=
  sort (RsaFreq.byFreqThenIndex (List.map (countIn table) symbols))
       (keys (List.length symbols)).

Definition rankAlignment (cipherNums : RsaAttack.cipherArray)
           (plainCounts : list (Z * Z)) (expected : list Z) : list (Z * Z) :=
  combine
    (List.map (fun i => nth (Z.to_nat i) expected 0)
              (rankIdx expected (RsaAttack.countsFromArray cipherNums)))
    (List.map (fun i => nth (Z.to_nat i) RsaAttack.ALPHABET 0)
              (rankIdx RsaAttack.ALPHABET plainCounts)).

(** A normalised text of rsa_attack.js: symbols of the 27-symbol
    alphabet, no two spaces in a row, and no space at either end. *)
Fixpoint noDoubleSpace (s : jsstring) : bool :=
  match s with
  | [] => true
  | a :: rest =>
      match rest with
      | [] => true
      | b :: _ => negb ((a =? 32) && (b =? 32)) && noDoubleSpace rest
      end
  end.

Definition normalized (s : jsstring) : Prop :=
  Forall (fun c => RsaAttack.inAlphabet c = true) s /\
  noDoubleSpace s = true /\
  hd 0 s <> 32 /\ last s 0 <> 32.

(** [toUpperCase] on a string of ASCII code units. *)
Definition asciiUpperCase (s : jsstring) : jsstring :=
  List.map (fun c => if (97 <=? c) && (c <=? 122) then c - 32 else c) s.

(** The bigrams of a text that [buildBigramModelFromText] counts: the
    adjacent pairs of alphabet symbols; how often a bigram occurs among
    them; and its probability with add-one smoothing over the
    [27 * 27] bigrams. *)
Definition bigrams (text : jsstring) : list (Z * Z) :=
  filter (fun ab => RsaAttack.inAlphabet (fst ab) && RsaAttack.inAlphabet (snd ab))
         (RsaAttack.adjacent text).

Definition bigramCount (text : jsstring) (ab : Z * Z) : Z :=
  Z.of_nat (List.length (filter (RsaAttack.pairEqb ab) (bigrams text))).

Definition smoothed (text : jsstring) (ab : Z * Z) : Q :=
  (inject_Z (bigramCount text ab + 1)
   / inject_Z (Z.of_nat (List.length (bigrams text)) + 27 * 27))%Q.

(** No other letter occurs in [t] as often as the letter [L]. *)
Definition uniqueCount (t : jsstring) (L : Z) : Prop :=
  forall L', isAZ L' -> L' <> L -> occurrences L' t <> occurrences L t.

(** Primality by trial division, as a test. *)
Definition primeb (p : Z) : bool :=
  (1 <? p) &&
  forallb (fun d => negb (p mod d =? 0))
          (List.map (fun i => 2 + Z.of_nat i) (seq 0 (Z.to_nat (p - 2)))).

Definition MAX_SAFE_INTEGER : Z := 2 ^ 53 - 1.

(** A shift of cesare.js: an integer that is not negative and small
    enough for [code - 65 + k] to be a safe integer. *)
Definition shiftAmount (k : Z) : Prop :=
  0 <= k /\ k + 25 <= MAX_SAFE_INTEGER.


End Spec.

(** ** Auxiliary definitions of the statements and proofs *)

(** The candidate that the loop of [bestShiftByFrequency] builds at the
    index [k]. *)
Definition candidate (cipher : jsstring) (k : Z) : Cesare.best :=
  Cesare.mkBest (Z.rem (26 - k) 26)
                (Some (Spec.chiOfShift cipher (Z.rem (26 - k) 26)))
                (Cesare.caesarShift cipher (Z.rem (26 - k) 26)).

(** Among the visited indices [pre ++ k :: post], [k] is the first whose
    chi-squared value is minimal. *)
Definition firstMinimum (cipher : jsstring) (pre : list Z) (k : Z) (post : list Z) : Prop :=
  (forall x, In x pre ->
             (Spec.chiOfShift cipher (Z.rem (26 - k) 26)
              < Spec.chiOfShift cipher (Z.rem (26 - x) 26))%Q) /\
  (forall x, In x post ->
             (Spec.chiOfShift cipher (Z.rem (26 - k) 26)
              <= Spec.chiOfShift cipher (Z.rem (26 - x) 26))%Q).

(** The residues as [buildPlainToNumMap] computes them. *)
Definition codeResidues (p q e : Z) : list Z :=
  List.map (fun m => powLoop (bits e) 1 (Z.rem m (p * q)) e (p * q)) (keys 26).

(** The table that lists [f L] for the symbols [L] of [ls]. *)
Definition table {V : Type} (f : Z -> V) (ls : list Z) : list (Z * V) :=
  List.map (fun L => (L, f L)) ls.


Fixpoint sumZ (l : list Z) : Z :=
  match l with
  | [] => 0
  | c :: l' => c + sumZ l'
  end.

(** The transposition of the two symbols [a] and [b]. *)
Definition transpose (a b k : Z) : Z :=
  if k =? b then a else if k =? a then b else k.

(** Every expected symbol is a key of the mapping. *)
Definition hasAll (expected : list Z) (m : RsaAttack.mapping) : Prop :=
  forall s, In s expected -> In s (List.map fst m).

(** The two symbols [syms[i]] and [syms[j]] that an iteration draws, and
    whether [i] and [j] differ. *)
Definition drawn (expected : list Z) (draw : nat * nat) : Z * Z :=
  (nth (fst draw mod List.length expected) expected 0,
   nth (snd draw mod List.length expected) expected 0).

Definition distinctDraw (expected : list Z) (draw : nat * nat) : bool :=
  negb (Nat.eqb (fst draw mod List.length expected) (snd draw mod List.length expected)).

(** The state of the seed padding: the map, and the letters not yet
    given out; [rest] are the symbols still to visit. *)
Definition padInv (st : RsaAttack.mapping * list Z) (rest : list Z) : Prop :=
  NoDup (List.map fst (fst st)) /\
  (exists vs, List.map snd (fst st) = List.map Some vs /\
              NoDup (vs ++ snd st) /\
              incl (vs ++ snd st) RsaAttack.ALPHABET /\
              (List.length vs + List.length (snd st) = 27)%nat) /\
  (List.length (fst st)
   + List.length (filter (fun s => negb (map_has Z.eqb (fst st) s)) rest) <= 27)%nat.

(** The state [(out, prevSpace)] of the loop of [normalizeText]: symbols
    of the alphabet, no two spaces in a row, and [prevSpace] tells whether
    the output ends with a space. *)
Definition loopInv (st : jsstring * bool) : Prop :=
  Forall (fun c => RsaAttack.inAlphabet c = true) (fst st) /\
  Spec.noDoubleSpace (fst st) = true /\
  snd st = (last (fst st) 0 =? 32).

(** The numbers of a cipher array, its [null] elements left out. *)
Definition present (arr : RsaAttack.cipherArray) : list Z :=
  flat_map (fun x => match x with Some c => [c] | None => [] end) arr.

(** The counting loop that [countsFromArray] and [countsObjectFromString]
    run on the elements they do not skip. *)
Definition countAll (l : list Z) : list (Z * Z) :=
  fold_left (fun cnt k => map_set Z.eqb cnt k (Spec.countIn cnt k + 1)) l [].

(** [bigramCounts[key] || 0]. *)
Definition pairCountOf (cnt : list (Z * Z * Z)) (ab : Z * Z) : Z :=
  match map_get RsaAttack.pairEqb cnt ab with Some c => c | None => 0 end.

(** The cipher symbol of a letter in the tables of [buildSymbolMaps]. *)
Definition symbolOf (maps : RsaFreq.symbolMaps) (L : Z) : Z :=
  match map_get Z.eqb (RsaFreq.plainToSym maps) L with
  | Some (Some s) => s
  | _ => 0
  end.

(** One term of the sum of [chiSquared]:
    [(observed - expected) ** 2 / Math.max(expected, eps)]. *)
Definition chiTerm (obsPerc : list (Z * Q)) (le : Z * Q) : Q :=
  ((Spec.observed obsPerc (fst le) - snd le)
   * (Spec.observed obsPerc (fst le) - snd le) / Qmax (snd le) Cesare.eps)%Q.

(** The ranked cipher symbols and the ranked plain symbols of
    [freqMapping]. *)
Definition rankedCipher (cipherNums : RsaAttack.cipherArray) (expected : list Z)
  : list (Z * Z) :=
  sort RsaAttack.byCountDesc
       (List.map (fun sym => (sym, Spec.countIn (RsaAttack.countsFromArray cipherNums) sym))
                 expected).

Definition rankedPlain (plainCounts : list (Z * Z)) : list Z :=
  RsaAttack.padPlainList (List.map fst (sort RsaAttack.byCountDesc plainCounts)).

(* ===================================================================== *)
(** * Part II: properties *)
(* ===================================================================== *)

(** ** The exception monad *)

Lemma mapM_pure {A B : Type} (f : A -> result B) (g : A -> B) (xs : list A) :
  (forall x, In x xs -> f x = inr (g x)) ->
  mapM f xs = inr (List.map g xs).
Proof.
  induction xs as [|x xs IH]; intros Hf; [reflexivity|].
  cbn [mapM List.map]. rewrite (Hf x (or_introl eq_refl)). cbn [bind].
  rewrite IH by (intros; apply Hf; right; assumption). reflexivity.
Qed.

Lemma mapM_throws {A B : Type} (f : A -> result B) (e0 : exn) (xs : list A) :
  xs <> [] -> (forall x, In x xs -> f x = inl e0) -> mapM f xs = inl e0.
Proof.
  destruct xs as [|x xs]; [congruence|]. intros _ Hf.
  cbn [mapM]. rewrite (Hf x (or_introl eq_refl)). reflexivity.
Qed.

Lemma mapM_length {A B : Type} (f : A -> result B) (xs : list A) (ys : list B) :
  mapM f xs = inr ys -> List.length ys = List.length xs.
Proof.
  revert ys. induction xs as [|x xs IH]; intros ys H.
  - inversion H. reflexivity.
  - cbn [mapM] in H. destruct (f x) as [e|y]; [discriminate|]. cbn [bind] in H.
    destruct (mapM f xs) as [e|ys']; [discriminate|]. inversion H. subst ys.
    cbn. rewrite (IH ys' eq_refl). reflexivity.
Qed.

(** ** Association lists as [Map]s *)

Section MapFacts.
Context {V : Type}.
Implicit Types (m : list (Z * V)) (k : Z) (v : V).

Lemma map_get_None_notin m k :
  map_get Z.eqb m k = None <-> ~ In k (List.map fst m).
Proof.
  induction m as [|[k' v'] m IH]; cbn; [tauto|].
  destruct (Z.eqb_spec k k') as [->|Hne].
  - split; [discriminate | intros H; exfalso; apply H; left; reflexivity].
  - rewrite IH. split; [intros H [E|Hin]; [congruence | tauto] | tauto].
Qed.

Lemma map_set_absent m k v :
  ~ In k (List.map fst m) -> map_set Z.eqb m k v = m ++ [(k, v)].
Proof.
  induction m as [|[k' v'] m IH]; cbn; intros Hn; [reflexivity|].
  destruct (Z.eqb_spec k k') as [->|Hne]; [tauto|].
  rewrite IH by tauto. reflexivity.
Qed.

Lemma map_set_keys_present m k v :
  In k (List.map fst m) -> List.map fst (map_set Z.eqb m k v) = List.map fst m.
Proof.
  induction m as [|[k' v'] m IH]; cbn; intros Hin; [tauto|].
  destruct (Z.eqb_spec k k') as [->|Hne]; cbn; [reflexivity|].
  rewrite IH; [reflexivity | destruct Hin; [congruence | assumption]].
Qed.

Lemma map_get_set_same m k v : map_get Z.eqb (map_set Z.eqb m k v) k = Some v.
Proof.
  induction m as [|[k' v'] m IH]; cbn.
  - rewrite Z.eqb_refl. reflexivity.
  - destruct (Z.eqb_spec k k') as [->|Hne]; cbn.
    + rewrite Z.eqb_refl. reflexivity.
    + destruct (Z.eqb_spec k k'); [congruence | exact IH].
Qed.

Lemma map_get_set_other m k k' v :
  k' <> k -> map_get Z.eqb (map_set Z.eqb m k v) k' = map_get Z.eqb m k'.
Proof.
  intros Hne. induction m as [|[k0 v0] m IH]; cbn.
  - destruct (Z.eqb_spec k' k); [congruence | reflexivity].
  - destruct (Z.eqb_spec k k0) as [->|Hk]; cbn.
    + destruct (Z.eqb_spec k' k0); [congruence | reflexivity].
    + destruct (Z.eqb_spec k' k0); [reflexivity | exact IH].
Qed.

Lemma map_set_get_id m k v :
  map_get Z.eqb m k = Some v -> map_set Z.eqb m k v = m.
Proof.
  induction m as [|[k' v'] m IH]; cbn; [discriminate|].
  destruct (Z.eqb_spec k k') as [->|Hne].
  - intros H. inversion H. reflexivity.
  - intros H. rewrite IH by assumption. reflexivity.
Qed.

Lemma map_set_set_same m k v v' :
  map_set Z.eqb (map_set Z.eqb m k v) k v' = map_set Z.eqb m k v'.
Proof.
  induction m as [|[k' v0] m IH]; cbn.
  - rewrite Z.eqb_refl. reflexivity.
  - destruct (Z.eqb_spec k k') as [->|Hne]; cbn.
    + rewrite Z.eqb_refl. reflexivity.
    + destruct (Z.eqb_spec k k'); [congruence|]. rewrite IH. reflexivity.
Qed.

Lemma map_set_comm m k1 k2 v1 v2 :
  k1 <> k2 -> In k1 (List.map fst m) -> In k2 (List.map fst m) ->
  map_set Z.eqb (map_set Z.eqb m k1 v1) k2 v2 =
  map_set Z.eqb (map_set Z.eqb m k2 v2) k1 v1.
Proof.
  intros Hne. induction m as [|[k' v0] m IH]; cbn; [tauto|].
  intros H1 H2.
  destruct (Z.eqb_spec k1 k') as [->|Hk1]; destruct (Z.eqb_spec k2 k') as [->|Hk2];
    cbn; try congruence.
  - destruct (Z.eqb_spec k2 k'); [congruence|]. rewrite Z.eqb_refl. reflexivity.
  - rewrite Z.eqb_refl. destruct (Z.eqb_spec k1 k'); [congruence|]. reflexivity.
  - destruct (Z.eqb_spec k1 k'); [congruence|].
    destruct (Z.eqb_spec k2 k'); [congruence|].
    rewrite IH; [reflexivity | |]; intuition congruence.
Qed.

Lemma map_get_In m k v :
  NoDup (List.map fst m) -> In (k, v) m -> map_get Z.eqb m k = Some v.
Proof.
  induction m as [|[k' v'] m IH]; cbn; [tauto|].
  intros Hnd [E|Hin].
  - inversion E. subst. rewrite Z.eqb_refl. reflexivity.
  - inversion Hnd as [|? ? Hnotin Hnd']. subst.
    destruct (Z.eqb_spec k k') as [->|Hne].
    + exfalso. apply Hnotin. change k' with (fst (k', v)). apply in_map. assumption.
    + apply IH; assumption.
Qed.

Lemma map_get_Some_In m k v : map_get Z.eqb m k = Some v -> In (k, v) m.
Proof.
  induction m as [|[k' v'] m IH]; cbn; [discriminate|].
  destruct (Z.eqb_spec k k') as [->|Hne].
  - intros H. inversion H. left. reflexivity.
  - intros H. right. apply IH. assumption.
Qed.

(** Filling an empty [Map] with fresh keys lists the pairs in order. *)
Lemma fold_set_fresh {A : Type} (key : A -> Z) (val : A -> V) (l : list A) :
  forall acc,
    NoDup (List.map fst acc ++ List.map key l) ->
    fold_left (fun acc a => map_set Z.eqb acc (key a) (val a)) l acc =
    acc ++ List.map (fun a => (key a, val a)) l.
Proof.
  induction l as [|a l IH]; intros acc Hnd; cbn.
  - rewrite app_nil_r. reflexivity.
  - rewrite map_set_absent.
    + rewrite IH.
      * rewrite <- app_assoc. reflexivity.
      * rewrite map_app. cbn. rewrite <- app_assoc. exact Hnd.
    + cbn in Hnd. apply NoDup_remove_2 in Hnd. intros Hin. apply Hnd.
      apply in_or_app. left. assumption.
Qed.
End MapFacts.

(** ** [Set] of BigInts *)

Lemma set_add_In (x y : Z) (s : list Z) : In y (set_add x s) <-> y = x \/ In y s.
Proof.
  induction s as [|z s IH]; cbn.
  - intuition congruence.
  - destruct (Z.eqb_spec x z) as [->|Hne]; cbn; [intuition congruence|].
    rewrite IH. intuition congruence.
Qed.

Lemma set_add_NoDup (x : Z) (s : list Z) : NoDup s -> NoDup (set_add x s).
Proof.
  induction s as [|z s IH]; cbn; intros Hnd.
  - constructor; [intros [] | constructor].
  - destruct (Z.eqb_spec x z) as [->|Hne]; [assumption|].
    inversion Hnd as [|? ? Hnotin Hnd']. subst. constructor.
    + rewrite set_add_In. intros [E|Hin]; [congruence | tauto].
    + apply IH. assumption.
Qed.

Lemma set_fold_In (xs : list Z) :
  forall s y, In y (fold_left (fun s x => set_add x s) xs s) <-> In y s \/ In y xs.
Proof.
  induction xs as [|x xs IH]; intros s y; cbn; [tauto|].
  rewrite IH, set_add_In. intuition congruence.
Qed.

Lemma set_fold_NoDup (xs : list Z) :
  forall s, NoDup s -> NoDup (fold_left (fun s x => set_add x s) xs s).
Proof.
  induction xs as [|x xs IH]; intros s Hs; cbn; [assumption|].
  apply IH, set_add_NoDup, Hs.
Qed.

Lemma set_from_NoDup (xs : list Z) : NoDup (set_from xs).
Proof. apply set_fold_NoDup. constructor. Qed.

Lemma set_from_In (xs : list Z) (y : Z) : In y (set_from xs) <-> In y xs.
Proof. unfold set_from. rewrite set_fold_In. cbn. tauto. Qed.

Lemma set_from_length_iff (xs : list Z) :
  List.length (set_from xs) = List.length xs <-> NoDup xs.
Proof.
  split.
  - intros Hlen. apply (@NoDup_incl_NoDup _ (set_from xs)).
    + apply set_from_NoDup.
    + lia.
    + intros y Hy. apply set_from_In. assumption.
  - intros Hnd. apply Nat.le_antisymm.
    + apply NoDup_incl_length; [apply set_from_NoDup|].
      intros y Hy. apply set_from_In. assumption.
    + apply NoDup_incl_length; [assumption|].
      intros y Hy. apply set_from_In. assumption.
Qed.

Lemma set_from_Permutation (xs : list Z) : NoDup xs -> Permutation (set_from xs) xs.
Proof.
  intros Hnd. apply NoDup_Permutation; [apply set_from_NoDup | assumption |].
  intros y. apply set_from_In.
Qed.

(** ** The stable sort *)

Section SortFacts.
Context {A : Type} (cmp : A -> A -> Z).

Lemma sort_insert_Permutation (x : A) (l : list A) :
  Permutation (sort_insert cmp x l) (x :: l).
Proof.
  induction l as [|y l IH]; cbn; [reflexivity|].
  destruct (cmp x y <=? 0); [reflexivity|].
  rewrite IH. apply perm_swap.
Qed.

Lemma sort_Permutation (l : list A) : Permutation (sort cmp l) l.
Proof.
  induction l as [|x l IH]; cbn; [reflexivity|].
  rewrite sort_insert_Permutation. constructor. exact IH.
Qed.

Lemma sort_length (l : list A) : List.length (sort cmp l) = List.length l.
Proof. apply Permutation_length, sort_Permutation. Qed.
End SortFacts.

Lemma keys_length (k : nat) : List.length (keys k) = k.
Proof. unfold keys. rewrite length_map, length_seq. reflexivity. Qed.

Lemma keys_In (k : nat) (i : Z) : In i (keys k) <-> 0 <= i < Z.of_nat k.
Proof.
  unfold keys. rewrite in_map_iff. split.
  - intros [j [<- Hj]]. apply in_seq in Hj. lia.
  - intros Hi. exists (Z.to_nat i). split; [lia | apply in_seq; lia].
Qed.

Lemma keys_NoDup (k : nat) : NoDup (keys k).
Proof.
  unfold keys. apply Finite.Injective_map_NoDup; [|apply seq_NoDup].
  intros a b H. lia.
Qed.

Lemma distinctb_spec (l : list Z) : Spec.distinctb l = true <-> NoDup l.
Proof.
  induction l as [|x l IH]; cbn.
  - split; [constructor | reflexivity].
  - rewrite andb_true_iff, negb_true_iff, IH. split.
    + intros [Hx Hl]. constructor; [|assumption]. intros Hin.
      assert (existsb (Z.eqb x) l = true); [|congruence].
      apply existsb_exists. exists x. split; [assumption | apply Z.eqb_refl].
    + intros Hnd. inversion Hnd as [|? ? Hnotin Hl]. subst. split; [|assumption].
      destruct (existsb (Z.eqb x) l) eqn:E; [|reflexivity].
      apply existsb_exists in E. destruct E as [y [Hy Exy]].
      apply Z.eqb_eq in Exy. subst y. contradiction.
Qed.

Lemma existsb_In (x : Z) (l : list Z) : existsb (Z.eqb x) l = true -> In x l.
Proof.
  intros H. apply existsb_exists in H. destruct H as [y [Hy E]].
  apply Z.eqb_eq in E. subst. assumption.
Qed.

Lemma combine_values {A B : Type} (l : list A) (vs : list B) :
  List.length vs = List.length l -> List.map snd (combine l vs) = vs.
Proof.
  revert vs. induction l as [|a l IH]; intros [|v vs] Hlen; cbn in *;
    try reflexivity; try lia.
  rewrite IH by lia. reflexivity.
Qed.

Lemma combine_keys {A B : Type} (l : list A) (vs : list B) :
  List.length vs = List.length l -> List.map fst (combine l vs) = l.
Proof.
  revert vs. induction l as [|a l IH]; intros [|v vs] Hlen; cbn in *;
    try reflexivity; try lia.
  rewrite IH by lia. reflexivity.
Qed.

Lemma fold_left_step {A B : Type} (f : A -> B -> A) (x : B) (l : list B) (a : A) :
  fold_left f (x :: l) a = fold_left f l (f a x).
Proof. reflexivity. Qed.

(** ** Modular exponentiation *)

Lemma powLoop_spec (fuel : nat) :
  forall r b e m,
    0 < m -> 0 <= r < m -> 0 <= b < m -> 0 <= e < 2 ^ Z.of_nat fuel ->
    powLoop fuel r b e m = (r * b ^ e) mod m.
Proof.
  induction fuel as [|fuel IH]; intros r b e m Hm Hr Hb He.
  - assert (e = 0) by (simpl in He; lia). subst e. simpl.
    rewrite Z.mul_1_r, Z.mod_small; lia.
  - cbn [powLoop]. destruct (Z.ltb_spec 0 e) as [Hpos|Hz].
    + assert (Hdiv : e = 2 * (e / 2) + e mod 2) by (apply Z.div_mod; lia).
      assert (Hbit : Z.land e 1 = e mod 2).
      { change 1 with (Z.ones 1). rewrite Z.land_ones by lia. reflexivity. }
      assert (Hsh : Z.shiftr e 1 = e / 2).
      { rewrite Z.shiftr_div_pow2 by lia. reflexivity. }
      assert (Hrange : 0 <= e / 2 < 2 ^ Z.of_nat fuel).
      { rewrite Nat2Z.inj_succ, Z.pow_succ_r in He by lia.
        split; [apply Z.div_pos; lia | apply Z.div_lt_upper_bound; lia]. }
      assert (Hbb : 0 <= b * b) by nia.
      assert (Hrb : 0 <= r * b) by nia.
      rewrite Hbit, Hsh, IH; try lia.
      * rewrite !Z.rem_mod_nonneg by lia.
        pose proof (Z.mod_pos_bound e 2 ltac:(lia)) as Hm2.
        assert (Hpow : b ^ e = (b * b) ^ (e / 2) * b ^ (e mod 2)).
        { rewrite Hdiv at 1. rewrite Z.pow_add_r, Z.pow_mul_r, Z.pow_2_r; lia. }
        rewrite Hpow.
        destruct (Z.eqb_spec (e mod 2) 0) as [E0|E1]; cbn [negb].
        -- rewrite E0, Z.pow_0_r, Z.mul_1_r.
           rewrite <- Z.mul_mod_idemp_r, <- Z.mod_pow_l by lia.
           rewrite Z.mod_mod by lia.
           rewrite Z.mod_pow_l, Z.mul_mod_idemp_r by lia. reflexivity.
        -- assert (e mod 2 = 1) as -> by lia. rewrite Z.pow_1_r.
           rewrite Z.mul_mod_idemp_l by lia.
           rewrite <- Z.mul_mod_idemp_r, <- Z.mod_pow_l by lia.
           rewrite Z.mod_mod by lia.
           rewrite Z.mod_pow_l, Z.mul_mod_idemp_r by lia.
           f_equal. ring.
      * destruct (negb (e mod 2 =? 0)).
        -- rewrite Z.rem_mod_nonneg by lia. apply Z.mod_pos_bound; lia.
        -- lia.
      * rewrite Z.rem_mod_nonneg by lia. apply Z.mod_pos_bound; lia.
    + assert (e = 0) by lia. subst e.
      rewrite Z.pow_0_r, Z.mul_1_r, Z.mod_small; lia.
Qed.

Lemma bits_bound (e : Z) : 0 <= e -> e < 2 ^ Z.of_nat (bits e).
Proof.
  intros He. unfold bits. rewrite Nat2Z.inj_succ, Z2Nat.id by apply Z.log2_nonneg.
  destruct (Z.eq_dec e 0) as [->|Hne]; [reflexivity|].
  apply Z.log2_spec. lia.
Qed.

Lemma modPowBig_spec (base exp m : Z) :
  0 <= base -> 0 <= exp -> 1 < m ->
  RsaFreq.modPowBig base exp m = inr (base ^ exp mod m).
Proof.
  intros Hb He Hm. unfold RsaFreq.modPowBig.
  destruct (Z.eqb_spec m 0); [lia|]. unfold ret. f_equal.
  rewrite powLoop_spec; try lia.
  - rewrite Z.mul_1_l, Z.rem_mod_nonneg by lia.
    apply Z.mod_pow_l.
  - rewrite Z.rem_mod_nonneg by lia. apply Z.mod_pos_bound; lia.
  - split; [lia | apply bits_bound; lia].
Qed.

Lemma modPow_spec (base exp m : Z) :
  0 <= base -> 0 <= exp -> 1 < m ->
  RsaAttack.modPow base exp m = inr (base ^ exp mod m).
Proof.
  intros Hb He Hm. unfold RsaAttack.modPow.
  destruct (Z.eqb_spec m 0); [lia|]. unfold ret. f_equal.
  assert (Hred : Z.rem (Z.rem base m + m) m = base mod m).
  { rewrite (Z.rem_mod_nonneg base m) by lia.
    pose proof (Z.mod_pos_bound base m ltac:(lia)).
    rewrite Z.rem_mod_nonneg by lia.
    rewrite <- Z.add_mod_idemp_r, Z.mod_same, Z.add_0_r, Z.mod_mod by lia.
    reflexivity. }
  rewrite Hred, powLoop_spec; try lia.
  - rewrite Z.mul_1_l. apply Z.mod_pow_l.
  - apply Z.mod_pos_bound; lia.
  - split; [lia | apply bits_bound; lia].
Qed.

(** C8.  For a non-negative base, an exponent at least 0 and a modulus
    above 1, [modPowBig] and [modPow] both return [base ^ exp mod m]
    through the square-and-multiply loop; for exponent 0 the result is 1,
    and a base at or above the modulus gives the same result as the base
    reduced modulo the modulus. *)
Theorem C8_modpow_correct (base exp m : Z) :
  0 <= base -> 0 <= exp -> 1 < m ->
  RsaFreq.modPowBig base exp m = inr (base ^ exp mod m) /\
  RsaAttack.modPow base exp m = inr (base ^ exp mod m) /\
  RsaFreq.modPowBig base 0 m = inr 1 /\
  RsaAttack.modPow base 0 m = inr 1 /\
  RsaFreq.modPowBig base exp m = RsaFreq.modPowBig (base mod m) exp m /\
  RsaAttack.modPow base exp m = RsaAttack.modPow (base mod m) exp m.
Proof.
  intros Hb He Hm.
  pose proof (Z.mod_pos_bound base m ltac:(lia)) as Hr.
  repeat split.
  - apply modPowBig_spec; assumption.
  - apply modPow_spec; assumption.
  - rewrite modPowBig_spec by lia. rewrite Z.pow_0_r, Z.mod_small; [reflexivity | lia].
  - rewrite modPow_spec by lia. rewrite Z.pow_0_r, Z.mod_small; [reflexivity | lia].
  - rewrite !modPowBig_spec by lia. rewrite Z.mod_pow_l. reflexivity.
  - rewrite !modPow_spec by lia. rewrite Z.mod_pow_l. reflexivity.
Qed.

Lemma C8_modpow_witness :
  RsaFreq.modPowBig 200 7 143 = inr (200 ^ 7 mod 143) /\
  RsaAttack.modPow 200 7 143 = inr (200 ^ 7 mod 143).
Proof.
  pose proof (C8_modpow_correct 200 7 143 ltac:(lia) ltac:(lia) ltac:(lia)) as H.
  split; [exact (proj1 H) | exact (proj1 (proj2 H))].
Defined.

(** ** Extended Euclid and the modular inverse *)

Lemma egcdBig_spec (a b : Z) :
  0 <= a -> 0 <= b ->
  RsaFreq.g (RsaFreq.egcdBig a b) = Z.gcd a b /\
  a * RsaFreq.x (RsaFreq.egcdBig a b) + b * RsaFreq.y (RsaFreq.egcdBig a b)
  = RsaFreq.g (RsaFreq.egcdBig a b).
Proof.
  funelim (RsaFreq.egcdBig a b); intros Ha Hb.
  - subst b. cbn. rewrite Z.gcd_0_r, Z.abs_eq by lia. split; lia.
  - cbn zeta. cbn [RsaFreq.g RsaFreq.x RsaFreq.y].
    assert (Hb' : 0 < b) by lia.
    assert (Hrem : Z.rem a b = a mod b) by (apply Z.rem_mod_nonneg; lia).
    pose proof (Z.mod_pos_bound a b Hb') as Hbound.
    destruct (H ltac:(lia) ltac:(rewrite Hrem; lia)) as [Hg Hbez].
    split.
    + rewrite Hg, Hrem, Z.gcd_comm, Z.gcd_mod by lia. apply Z.gcd_comm.
    + rewrite <- Hbez. pose proof (Z.quot_rem' a b) as Hqr.
      set (r := RsaFreq.egcdBig b (Z.rem a b)) in *.
      set (qt := Z.quot a b) in *. set (rm := Z.rem a b) in *.
      rewrite Hqr at 1. ring.
Qed.

Lemma modInvBig_ok (e phi : Z) :
  0 <= e -> 0 < phi -> Z.gcd e phi = 1 ->
  exists d, RsaFreq.modInvBig e phi = inr d /\ 0 <= d < phi /\
            (e * d) mod phi = 1 mod phi.
Proof.
  intros He Hphi Hgcd.
  destruct (egcdBig_spec e phi He ltac:(lia)) as [Hg Hbez].
  unfold RsaFreq.modInvBig. cbn zeta.
  rewrite Hg, Hgcd in *. cbn [Z.eqb Pos.eqb negb].
  destruct (Z.eqb_spec phi 0); [lia|].
  set (x := RsaFreq.x (RsaFreq.egcdBig e phi)) in *.
  set (y := RsaFreq.y (RsaFreq.egcdBig e phi)) in *.
  eexists. split; [reflexivity|].
  pose proof (Z.rem_bound_abs x phi ltac:(lia)) as Hrb.
  assert (Hnn : 0 <= Z.rem x phi + phi) by lia.
  rewrite (Z.rem_mod_nonneg _ phi) by lia.
  split; [apply Z.mod_pos_bound; lia|].
  rewrite Z.mul_mod_idemp_r by lia.
  assert (Hx : (Z.rem x phi + phi) mod phi = x mod phi).
  { rewrite <- Z.add_mod_idemp_r, Z.mod_same, Z.add_0_r by lia.
    pose proof (Z.quot_rem' x phi) as Hqr.
    rewrite Hqr at 2. rewrite Z.add_comm, Z.mul_comm, Z.mod_add by lia. reflexivity. }
  rewrite <- Z.mul_mod_idemp_r, Hx, Z.mul_mod_idemp_r by lia.
  rewrite <- Hbez. rewrite Z.mul_comm with (n := phi), Z.mod_add by lia. reflexivity.
Qed.


(** ** The letter-to-residue table *)

Lemma fold_set_combine {V : Type} (key : Z -> Z) (l : list Z) (vs : list V) :
  NoDup (List.map key l) -> List.length vs = List.length l ->
  fold_left (fun acc mc => map_set Z.eqb acc (key (fst mc)) (snd mc)) (combine l vs) []
  = combine (List.map key l) vs.
Proof.
  intros Hnd Hlen.
  rewrite (fold_set_fresh (fun mc : Z * V => key (fst mc)) snd).
  - cbn [app]. clear Hnd. revert vs Hlen.
    induction l as [|a l IH]; intros [|v vs] Hlen; cbn in *; try reflexivity; try lia.
    rewrite IH by lia. reflexivity.
  - cbn [List.map app].
    assert (E : List.map (fun mc : Z * V => key (fst mc)) (combine l vs) = List.map key l).
    { clear Hnd. revert vs Hlen.
      induction l as [|a l IH]; intros [|v vs] Hlen; cbn in *; try reflexivity; try lia.
      rewrite IH by lia. reflexivity. }
    rewrite E. exact Hnd.
Qed.

Lemma letter_codes : List.map (fun i => fromCharCode (65 + i)) (keys 26) = Spec.lettersAZ.
Proof. reflexivity. Qed.

Lemma lettersAZ_NoDup : NoDup Spec.lettersAZ.
Proof.
  rewrite <- letter_codes. apply Finite.Injective_map_NoDup_in; [|apply keys_NoDup].
  intros a b Ha Hb. apply keys_In in Ha, Hb. unfold fromCharCode.
  rewrite !Z.mod_small by lia. lia.
Qed.

Lemma codeResidues_length p q e : List.length (codeResidues p q e) = 26%nat.
Proof. unfold codeResidues. rewrite length_map. apply keys_length. Qed.

Lemma buildPlainToNumMap_unfold (p q e : Z) :
  p * q <> 0 ->
  RsaFreq.buildPlainToNumMap p q e =
  if negb (Nat.eqb (List.length (set_from (codeResidues p q e))) 26)
  then inl (RsaFreq.residueError (List.length (set_from (codeResidues p q e))))
  else inr (RsaFreq.mkPlainToNum (p * q)
              (combine Spec.lettersAZ (codeResidues p q e))
              (sort (fun a b => if a <? b then -1 else if a >? b then 1 else 0)
                    (set_from (codeResidues p q e)))).
Proof.
  intros Hn. unfold RsaFreq.buildPlainToNumMap. cbn zeta.
  rewrite (mapM_pure _ (fun m => powLoop (bits e) 1 (Z.rem m (p * q)) e (p * q))).
  2:{ intros m _. unfold RsaFreq.modPowBig.
      destruct (Z.eqb_spec (p * q) 0); [contradiction | reflexivity]. }
  cbn [bind]. fold (codeResidues p q e).
  unfold RsaFreq.indices.
  rewrite (fold_set_combine (fun i => fromCharCode (65 + i))).
  - rewrite letter_codes, combine_values; [reflexivity|].
    rewrite ?codeResidues_length, ?length_map, ?keys_length. reflexivity.
  - rewrite letter_codes. apply lettersAZ_NoDup.
  - unfold codeResidues. rewrite ?length_map, ?keys_length. reflexivity.
Qed.









(** ** RSA decryption undoes encryption *)

Lemma pow_one_mod (a n m : Z) : 1 < m -> 0 <= n -> a mod m = 1 -> a ^ n mod m = 1.
Proof.
  intros Hm Hn Ha. rewrite <- Z.mod_pow_l, Ha, Z.pow_1_l by lia.
  apply Z.mod_small. lia.
Qed.

Lemma fermat_exponent (p m k : Z) :
  Z.prime p -> 0 <= k -> (m ^ (1 + k * (p - 1))) mod p = m mod p.
Proof.
  intros Hp Hk. pose proof (Z.prime_ge_2 p Hp) as Hp2.
  rewrite Z.pow_add_r, Z.pow_1_r by nia.
  destruct (Z.eq_dec (m mod p) 0) as [Hz|Hnz].
  - rewrite <- Z.mul_mod_idemp_l, Hz by lia. reflexivity.
  - rewrite Z.mul_comm with (n := k), Z.pow_mul_r by lia.
    rewrite <- Z.mul_mod_idemp_r by lia.
    rewrite (pow_one_mod (m ^ (p - 1)) k p) by (try lia; apply Z.fermat_nz; assumption).
    rewrite Z.mul_1_r. reflexivity.
Qed.

Lemma rsa_exponent (p q m t : Z) :
  Z.prime p -> Z.prime q -> p <> q -> 0 <= t ->
  (m ^ (1 + t * ((p - 1) * (q - 1)))) mod (p * q) = m mod (p * q).
Proof.
  intros Hp Hq Hpq Ht.
  pose proof (Z.prime_ge_2 p Hp) as Hp2. pose proof (Z.prime_ge_2 q Hq) as Hq2.
  set (E := 1 + t * ((p - 1) * (q - 1))).
  assert (Hmp : (p | m ^ E - m)).
  { apply Z.mod_divide; [lia|].
    rewrite Zminus_mod. unfold E.
    replace (t * ((p - 1) * (q - 1))) with (t * (q - 1) * (p - 1)) by ring.
    rewrite fermat_exponent by (try assumption; nia).
    rewrite Z.sub_diag. apply Z.mod_0_l. lia. }
  assert (Hmq : (q | m ^ E - m)).
  { apply Z.mod_divide; [lia|].
    rewrite Zminus_mod. unfold E.
    replace (t * ((p - 1) * (q - 1))) with (t * (p - 1) * (q - 1)) by ring.
    rewrite fermat_exponent by (try assumption; nia).
    rewrite Z.sub_diag. apply Z.mod_0_l. lia. }
  assert (Hcop : Z.gcd q p = 1).
  { apply Z.coprime_prime_l; [assumption|]. intros Hd.
    apply (Z.divide_prime_prime q p Hq Hp) in Hd. congruence. }
  destruct Hmp as [c Hc].
  assert (Hqc : (q | c)).
  { apply (Z.gauss q p c); [|exact Hcop]. rewrite Z.mul_comm, <- Hc. exact Hmq. }
  destruct Hqc as [c' Hc'].
  assert (Hdiv : m ^ E = m + c' * (p * q)) by (subst c; lia).
  rewrite Hdiv, Z.mod_add by lia. reflexivity.
Qed.

Lemma rsa_roundtrip_num (p q e d m : Z) :
  Z.prime p -> Z.prime q -> p <> q -> 0 <= e -> 0 <= d ->
  (e * d) mod ((p - 1) * (q - 1)) = 1 mod ((p - 1) * (q - 1)) ->
  0 <= m < p * q ->
  ((m ^ e mod (p * q)) ^ d) mod (p * q) = m.
Proof.
  intros Hp Hq Hpq He Hd Hed Hm.
  pose proof (Z.prime_ge_2 p Hp) as Hp2. pose proof (Z.prime_ge_2 q Hq) as Hq2.
  set (phi := (p - 1) * (q - 1)) in *.
  assert (Hphi : 1 < phi).
  { unfold phi. assert (p = 2 \/ 3 <= p) as [->|?] by lia;
      assert (q = 2 \/ 3 <= q) as [->|?] by lia; try congruence; nia. }
  rewrite Z.mod_pow_l, <- Z.pow_mul_r by lia.
  rewrite (Z.mod_small 1 phi) in Hed by lia.
  assert (Hdm : e * d = 1 + (e * d / phi) * phi).
  { pose proof (Z.div_mod (e * d) phi ltac:(lia)). lia. }
  assert (Ht : 0 <= e * d / phi) by (apply Z.div_pos; nia).
  rewrite Hdm. unfold phi. rewrite rsa_exponent by assumption.
  apply Z.mod_small. assumption.
Qed.

(** ** The symbol tables of [buildSymbolMaps] *)


Lemma combine_In_fst {A B : Type} (xs : list A) (ys : list B) (x : A) :
  List.length xs = List.length ys -> In x xs -> exists y, In (x, y) (combine xs ys).
Proof.
  revert ys. induction xs as [|x' xs IH]; intros [|y ys] Hlen Hin; cbn in *;
    try lia; try tauto.
  destruct Hin as [->|Hin].
  - exists y. left. reflexivity.
  - destruct (IH ys ltac:(lia) Hin) as [y' Hy']. exists y'. right. assumption.
Qed.



Section SymbolMaps.
Variables (table : list (Z * Z)) (uniq : list Z).
Hypothesis table_keys : NoDup (List.map fst table).
Hypothesis uniq_NoDup : NoDup uniq.
Hypothesis uniq_length : List.length uniq = 26%nat.

Let maps := RsaFreq.buildSymbolMaps table uniq.

Lemma numToSym_eq :
  RsaFreq.numToSym maps =
  List.map (fun iu => (snd iu, fromCharCode (65 + fst iu))) (combine (keys 26) uniq).
Proof.
  unfold maps, RsaFreq.buildSymbolMaps. cbn [RsaFreq.numToSym].
  rewrite (fold_set_fresh (fun iu : Z * Z => snd iu)
                          (fun iu => fromCharCode (65 + fst iu))).
  - reflexivity.
  - cbn [List.map app]. rewrite combine_values; [assumption|].
    rewrite keys_length. assumption.
Qed.

Lemma numToSym_keys : List.map fst (RsaFreq.numToSym maps) = uniq.
Proof.
  rewrite numToSym_eq, map_map. cbn [fst].
  apply combine_values. rewrite keys_length. assumption.
Qed.

Lemma numToSym_syms : List.map snd (RsaFreq.numToSym maps) = Spec.lettersAZ.
Proof.
  rewrite numToSym_eq, map_map. cbn [snd].
  rewrite <- letter_codes, <- (map_map fst (fun i => fromCharCode (65 + i))).
  rewrite combine_keys; [reflexivity|]. rewrite keys_length. assumption.
Qed.

Lemma symToNum_eq :
  RsaFreq.symToNum maps =
  List.map (fun ns => (snd ns, fst ns)) (RsaFreq.numToSym maps).
Proof.
  unfold maps, RsaFreq.buildSymbolMaps. cbn [RsaFreq.symToNum RsaFreq.numToSym].
  rewrite (fold_set_fresh (fun ns : Z * Z => snd ns) (fun ns => fst ns)).
  - reflexivity.
  - cbn [List.map app]. fold (RsaFreq.numToSym maps) in *.
    change (NoDup (List.map snd (RsaFreq.numToSym maps))).
    rewrite numToSym_syms. apply lettersAZ_NoDup.
Qed.

Lemma plainToSym_eq :
  RsaFreq.plainToSym maps =
  List.map (fun ln => (fst ln, map_get Z.eqb (RsaFreq.numToSym maps) (snd ln))) table.
Proof.
  unfold maps, RsaFreq.buildSymbolMaps. cbn [RsaFreq.plainToSym RsaFreq.numToSym].
  rewrite (fold_set_fresh (fun ln : Z * Z => fst ln)).
  - reflexivity.
  - cbn [List.map app]. assumption.
Qed.

End SymbolMaps.





Lemma primeb_spec (p : Z) : Spec.primeb p = true -> Z.prime p.
Proof.
  unfold Spec.primeb. rewrite andb_true_iff, forallb_forall.
  intros [Hp Hall]. apply Z.ltb_lt in Hp. split; [assumption|].
  intros n Hn Hdiv.
  assert (Hin : In n (List.map (fun i => 2 + Z.of_nat i) (seq 0 (Z.to_nat (p - 2))))).
  { apply in_map_iff. exists (Z.to_nat (n - 2)). split; [lia | apply in_seq; lia]. }
  specialize (Hall n Hin). apply negb_true_iff, Z.eqb_neq in Hall.
  apply Hall. apply Z.mod_divide; [lia | assumption].
Qed.





Example hello_13_11_7 :
  RsaFreq.encryptDecrypt 13 11 7 (str "HELLO") = inr (str "DQXXN", str "HELLO").
Proof. vm_compute. reflexivity. Qed.

(** The two primes of a valid key are distinct.  The key [p = q = 29],
    [e = 3] passes both checks of [main], and the letter C does not come
    back. *)
Remark equal_primes_round_trip_fails :
  Z.prime 29 /\
  Z.gcd 3 ((29 - 1) * (29 - 1)) = 1 /\
  NoDup (Spec.residues 29 29 3) /\
  RsaFreq.encryptDecrypt 29 29 3 (str "C") = inr (str "C", [792]).
Proof.
  split; [apply primeb_spec; reflexivity|]. split; [reflexivity|].
  split; [apply distinctb_spec; vm_compute; reflexivity | vm_compute; reflexivity].
Qed.

(** ** Tables keyed by a fixed list of symbols *)






Lemma lettersAZ_In (c : Z) : In c Spec.lettersAZ <-> Spec.isAZ c.
Proof.
  rewrite <- letter_codes, in_map_iff. unfold Spec.isAZ, fromCharCode. split.
  - intros [i [<- Hi]]. apply keys_In in Hi. rewrite Z.mod_small; lia.
  - intros Hc. exists (c - 65). split; [rewrite Z.mod_small; lia | apply keys_In; lia].
Qed.

(** ** Letter counts of [freqCount] *)

Lemma occurrences_cons (L ch : Z) (t : jsstring) :
  Spec.occurrences L (ch :: t) = (if L =? ch then 1 else 0) + Spec.occurrences L t.
Proof.
  unfold Spec.occurrences. cbn [count_occ].
  destruct (Z.eq_dec ch L) as [->|Hne].
  - rewrite Z.eqb_refl. lia.
  - destruct (Z.eqb_spec L ch); [congruence | lia].
Qed.



(** ** Percentages *)








(** ** The chi-squared attack on the Caesar cipher *)

Lemma Qltb_lt (a b : Q) : Cesare.Qltb a b = true <-> (a < b)%Q.
Proof.
  unfold Cesare.Qltb. rewrite negb_true_iff. split.
  - intros H. apply Qnot_le_lt. intros Hle. apply Qle_bool_iff in Hle. congruence.
  - intros H. destruct (Qle_bool b a) eqn:E; [|reflexivity].
    apply Qle_bool_iff in E. exfalso. exact (Qlt_not_le _ _ H E).
Qed.

Lemma Qltb_ge (a b : Q) : Cesare.Qltb a b = false <-> (b <= a)%Q.
Proof.
  unfold Cesare.Qltb. rewrite negb_false_iff. apply Qle_bool_iff.
Qed.

Lemma app_snoc_cons {A : Type} (l : list A) (x : A) (rest : list A) :
  (l ++ [x]) ++ rest = l ++ x :: rest.
Proof. induction l as [|a l IH]; cbn; [reflexivity | f_equal; exact IH]. Qed.

Lemma app_cons_snoc {A : Type} (pre : list A) (k : A) (post : list A) (x : A)
      (rest : list A) :
  (pre ++ k :: post ++ [x]) ++ rest = (pre ++ k :: post) ++ x :: rest.
Proof.
  induction pre as [|a pre IH]; cbn.
  - f_equal. apply app_snoc_cons.
  - f_equal. exact IH.
Qed.

Section Scan.
Variable cipher : jsstring.

Lemma tryShift_first :
  Cesare.tryShift cipher (Cesare.mkBest 0 None cipher) 0 = candidate cipher 0.
Proof. reflexivity. Qed.

Lemma tryShift_step (k x : Z) :
  Cesare.tryShift cipher (candidate cipher k) x =
  if Cesare.Qltb (Spec.chiOfShift cipher (Z.rem (26 - x) 26))
                 (Spec.chiOfShift cipher (Z.rem (26 - k) 26))
  then candidate cipher x else candidate cipher k.
Proof. reflexivity. Qed.

Lemma tryShift_less (k x : Z) :
  (Spec.chiOfShift cipher (Z.rem (26 - x) 26)
   < Spec.chiOfShift cipher (Z.rem (26 - k) 26))%Q ->
  Cesare.tryShift cipher (candidate cipher k) x = candidate cipher x.
Proof.
  intros H. apply Qltb_lt in H. rewrite tryShift_step, H. reflexivity.
Qed.

Lemma tryShift_keep (k x : Z) :
  (Spec.chiOfShift cipher (Z.rem (26 - k) 26)
   <= Spec.chiOfShift cipher (Z.rem (26 - x) 26))%Q ->
  Cesare.tryShift cipher (candidate cipher k) x = candidate cipher k.
Proof.
  intros H. apply Qltb_ge in H. rewrite tryShift_step, H. reflexivity.
Qed.

Lemma firstMinimum_less (pre : list Z) (k : Z) (post : list Z) (x : Z) :
  firstMinimum cipher pre k post ->
  (Spec.chiOfShift cipher (Z.rem (26 - x) 26)
   < Spec.chiOfShift cipher (Z.rem (26 - k) 26))%Q ->
  firstMinimum cipher (pre ++ k :: post) x [].
Proof.
  intros [Hpre Hpost] E. split; [|intros y []].
  intros y Hy. apply in_app_or in Hy. destruct Hy as [Hy|[Hy|Hy]].
  - eapply Qlt_trans; [exact E | exact (Hpre y Hy)].
  - subst y. exact E.
  - eapply Qlt_le_trans; [exact E | exact (Hpost y Hy)].
Qed.

Lemma firstMinimum_keep (pre : list Z) (k : Z) (post : list Z) (x : Z) :
  firstMinimum cipher pre k post ->
  (Spec.chiOfShift cipher (Z.rem (26 - k) 26)
   <= Spec.chiOfShift cipher (Z.rem (26 - x) 26))%Q ->
  firstMinimum cipher pre k (post ++ [x]).
Proof.
  intros [Hpre Hpost] E. split; [exact Hpre|].
  intros y Hy. apply in_app_or in Hy. destruct Hy as [Hy|[Hy|[]]].
  - exact (Hpost y Hy).
  - subst y. exact E.
Qed.

Lemma scan_first_minimum (rest : list Z) :
  forall pre k post,
    firstMinimum cipher pre k post ->
    exists pre' k' post',
      pre' ++ k' :: post' = (pre ++ k :: post) ++ rest /\
      fold_left (Cesare.tryShift cipher) rest (candidate cipher k) = candidate cipher k' /\
      firstMinimum cipher pre' k' post'.
Proof.
  induction rest as [|x rest IH]; intros pre k post Hmin0.
  - exists pre, k, post. rewrite app_nil_r.
    split; [reflexivity|]. split; [reflexivity | exact Hmin0].
  - rewrite fold_left_step.
    destruct (Qlt_le_dec (Spec.chiOfShift cipher (Z.rem (26 - x) 26))
                         (Spec.chiOfShift cipher (Z.rem (26 - k) 26))) as [E|E].
    + rewrite (tryShift_less k x E).
      destruct (IH (pre ++ k :: post) x [] (firstMinimum_less pre k post x Hmin0 E))
        as [pre' [k' [post' [Hsplit [Hfold Hmin]]]]].
      exists pre', k', post'. split; [|split; [exact Hfold | exact Hmin]].
      rewrite Hsplit. apply app_snoc_cons.
    + rewrite (tryShift_keep k x E).
      destruct (IH pre k (post ++ [x]) (firstMinimum_keep pre k post x Hmin0 E))
        as [pre' [k' [post' [Hsplit [Hfold Hmin]]]]].
      exists pre', k', post'. split; [|split; [exact Hfold | exact Hmin]].
      rewrite Hsplit. apply app_cons_snoc.
Qed.

(** What the scan returns: the first minimum in the order in which the
    loop visits [k = 0, 1, ..., 25], reported as the shift
    [(26 - k) % 26], that is in the order 0, 25, 24, ..., 1 of the
    shifts. *)
Lemma bestShift_first_minimum :
  exists pre k post,
    pre ++ k :: post = keys 26 /\
    Cesare.bestShiftByFrequency cipher = candidate cipher k /\
    firstMinimum cipher pre k post.
Proof.
  destruct (scan_first_minimum (List.map Z.of_nat (seq 1 25)) [] 0 [])
    as [pre [k [post [Hsplit [Hfold Hmin]]]]].
  - split; intros y [].
  - exists pre, k, post. split; [exact Hsplit|]. split; [|exact Hmin].
    unfold Cesare.bestShiftByFrequency.
    change (keys 26) with (0 :: List.map Z.of_nat (seq 1 25)).
    rewrite fold_left_step, tryShift_first. exact Hfold.
Qed.
End Scan.

(** C3.  On the ciphertext [ER] the decodings by the shifts 9 and 22 are
    [NA] and [AN]: they have the same letter distribution, hence the same
    chi-squared value, and no shift does better.  [bestShiftByFrequency]
    returns the shift 22, not 9: it scans the shifts in the order
    0, 25, 24, ..., 1 and keeps the first minimum.  The returned shift is
    not the one that encrypts the returned plaintext to the ciphertext,
    which is 4. *)
Theorem C3_tie_break_order :
  let b := Cesare.bestShiftByFrequency (str "ER") in
  Cesare.shift b = 22 /\
  Cesare.plain b = str "AN" /\
  (Spec.chiOfShift (str "ER") 9 == Spec.chiOfShift (str "ER") 22)%Q /\
  (forall s, In s (keys 26) ->
             (Spec.chiOfShift (str "ER") 22 <= Spec.chiOfShift (str "ER") s)%Q) /\
  Spec.ENC (Cesare.plain b) (Cesare.shift b) <> str "ER" /\
  Spec.ENC (Cesare.plain b) 4 = str "ER".
Proof.
  assert (Hb : Cesare.bestShiftByFrequency (str "ER")
               = Cesare.mkBest 22 (Some (Spec.chiOfShift (str "ER") 22)) (str "AN")).
  { vm_compute. reflexivity. }
  cbv zeta. rewrite Hb. cbn [Cesare.shift Cesare.plain].
  split; [reflexivity|]. split; [reflexivity|]. split; [|split; [|split]].
  - vm_compute. reflexivity.
  - assert (Hall : forallb (fun s => Qle_bool (Spec.chiOfShift (str "ER") 22)
                                              (Spec.chiOfShift (str "ER") s))
                           (keys 26) = true) by (vm_compute; reflexivity).
    intros s Hs. rewrite forallb_forall in Hall.
    apply Qle_bool_iff, Hall, Hs.
  - vm_compute. discriminate.
  - vm_compute. reflexivity.
Qed.

(** ** Decoding: [applyMappingToCipher] and [decryptTextRSA] *)









(** ** Swapping two letters of a mapping *)

Lemma getLetter_set_same (m : RsaAttack.mapping) (k : Z) (v : option Z) :
  RsaAttack.getLetter (map_set Z.eqb m k v) k = v.
Proof. unfold RsaAttack.getLetter. rewrite map_get_set_same. reflexivity. Qed.

Lemma getLetter_set_other (m : RsaAttack.mapping) (k k' : Z) (v : option Z) :
  k' <> k -> RsaAttack.getLetter (map_set Z.eqb m k v) k' = RsaAttack.getLetter m k'.
Proof. intros H. unfold RsaAttack.getLetter. rewrite map_get_set_other by assumption. reflexivity. Qed.



Lemma getLetter_swap (m : RsaAttack.mapping) (a b k : Z) :
  RsaAttack.getLetter (RsaAttack.swapLetters m a b) k
  = RsaAttack.getLetter m (transpose a b k).
Proof.
  unfold RsaAttack.swapLetters, transpose.
  destruct (Z.eqb_spec k b) as [->|Hb].
  - apply getLetter_set_same.
  - rewrite getLetter_set_other by assumption.
    destruct (Z.eqb_spec k a) as [->|Ha].
    + apply getLetter_set_same.
    + apply getLetter_set_other. assumption.
Qed.

Lemma swap_keys (m : RsaAttack.mapping) (a b : Z) :
  In a (List.map fst m) -> In b (List.map fst m) ->
  List.map fst (RsaAttack.swapLetters m a b) = List.map fst m.
Proof.
  intros Ha Hb. unfold RsaAttack.swapLetters.
  rewrite map_set_keys_present; rewrite map_set_keys_present; auto.
Qed.

Lemma map_get_getLetter (m : RsaAttack.mapping) (k : Z) :
  In k (List.map fst m) -> map_get Z.eqb m k = Some (RsaAttack.getLetter m k).
Proof.
  intros Hin. unfold RsaAttack.getLetter.
  destruct (map_get Z.eqb m k) eqn:E; [reflexivity|].
  apply map_get_None_notin in E. contradiction.
Qed.

(** Reverting a swap restores the [Map], entry by entry and in the same
    order. *)
Lemma revert_swap (m : RsaAttack.mapping) (a b : Z) :
  In a (List.map fst m) -> In b (List.map fst m) ->
  RsaAttack.revertLetters m (RsaAttack.swapLetters m a b) a b = m.
Proof.
  intros Ha Hb. unfold RsaAttack.revertLetters, RsaAttack.swapLetters.
  set (ma := RsaAttack.getLetter m a). set (mb := RsaAttack.getLetter m b).
  pose proof (map_get_getLetter m a Ha) as Hga.
  pose proof (map_get_getLetter m b Hb) as Hgb.
  fold ma in Hga. fold mb in Hgb.
  destruct (Z.eq_dec a b) as [->|Hab].
  - rewrite !map_set_set_same. apply map_set_get_id. assumption.
  - rewrite (map_set_comm (map_set Z.eqb m a mb) b a ma ma).
    + rewrite !map_set_set_same.
      rewrite (map_set_get_id m a ma Hga).
      apply map_set_get_id. assumption.
    + congruence.
    + rewrite map_set_keys_present; assumption.
    + rewrite map_set_keys_present; assumption.
Qed.


(** ** The expected symbols and the seed padding *)

Lemma expectedSymbols_returns (rsaPub : RsaAttack.rsaKey) :
  RsaAttack.N rsaPub <> 0 ->
  exists expected, RsaAttack.expectedSymbols rsaPub = inr expected /\
                   List.length expected = 27%nat.
Proof.
  intros HN. unfold RsaAttack.expectedSymbols.
  set (f := fun i => powLoop (bits (RsaAttack.e rsaPub)) 1
                       (Z.rem (Z.rem i (RsaAttack.N rsaPub) + RsaAttack.N rsaPub)
                              (RsaAttack.N rsaPub))
                       (RsaAttack.e rsaPub) (RsaAttack.N rsaPub)).
  exists (List.map f (keys (List.length RsaAttack.ALPHABET))). split.
  - apply mapM_pure. intros i _. unfold RsaAttack.modPow.
    destruct (Z.eqb_spec (RsaAttack.N rsaPub) 0); [contradiction | reflexivity].
  - rewrite length_map, keys_length. reflexivity.
Qed.

Lemma padStep_keys (st : RsaAttack.mapping * list Z) (sym k : Z) :
  In k (List.map fst (fst st)) -> In k (List.map fst (fst (RsaAttack.padStep st sym))).
Proof.
  destruct st as [m rem]. unfold RsaAttack.padStep. cbn [fst].
  destruct (map_has Z.eqb m sym) eqn:Hhas; [tauto|].
  assert (Hnot : ~ In sym (List.map fst m)).
  { apply map_get_None_notin. unfold map_has in Hhas.
    destruct (map_get Z.eqb m sym); [discriminate | reflexivity]. }
  intros Hin. destruct (rev rem); cbn [fst];
    rewrite map_set_absent by assumption; rewrite map_app; apply in_or_app; left; assumption.
Qed.

Lemma padStep_adds (st : RsaAttack.mapping * list Z) (sym : Z) :
  In sym (List.map fst (fst (RsaAttack.padStep st sym))).
Proof.
  destruct st as [m rem]. unfold RsaAttack.padStep.
  destruct (map_has Z.eqb m sym) eqn:Hhas.
  - cbn [fst]. unfold map_has in Hhas.
    destruct (map_get Z.eqb m sym) eqn:E; [|discriminate].
    destruct (in_dec Z.eq_dec sym (List.map fst m)) as [?|Hnot]; [assumption|].
    apply map_get_None_notin in Hnot. congruence.
  - assert (Hnot : ~ In sym (List.map fst m)).
    { apply map_get_None_notin. unfold map_has in Hhas.
      destruct (map_get Z.eqb m sym); [discriminate | reflexivity]. }
    destruct (rev rem); cbn [fst];
      rewrite map_set_absent by assumption; rewrite map_app; apply in_or_app; right;
      left; reflexivity.
Qed.

Lemma padFold_keys (syms : list Z) :
  forall st k,
    In k (List.map fst (fst st)) \/ In k syms ->
    In k (List.map fst (fst (fold_left RsaAttack.padStep syms st))).
Proof.
  induction syms as [|sym syms IH]; intros st k; cbn [fold_left].
  - intros [H|[]]. assumption.
  - intros [H|[<-|H]]; apply IH.
    + left. apply padStep_keys. assumption.
    + left. apply padStep_adds.
    + right. assumption.
Qed.

Lemma padMapping_has_all (m : RsaAttack.mapping) (expected : list Z) (s : Z) :
  In s expected -> In s (List.map fst (RsaAttack.padMapping m expected)).
Proof.
  intros Hs. unfold RsaAttack.padMapping. apply padFold_keys. right. assumption.
Qed.

(** ** One iteration and the whole search *)

Section Climb.
Context {num : Type} (zero : num) (add : num -> num -> num)
        (gtb : num -> num -> bool).
Variables (cipherNums : RsaAttack.cipherArray) (model : @RsaAttack.bigram num)
          (expected : list Z).
Hypothesis expected_nonempty : expected <> [].

Let score (m : RsaAttack.mapping) : num :=
  RsaAttack.scoreMapping zero add m cipherNums model.

Lemma drawn_In (draw : nat * nat) :
  In (fst (drawn expected draw)) expected /\ In (snd (drawn expected draw)) expected.
Proof.
  assert (Hlen : List.length expected <> 0%nat).
  { destruct expected; [congruence | cbn; lia]. }
  unfold drawn. cbn [fst snd]. split; apply nth_In; apply Nat.mod_upper_bound; assumption.
Qed.

Lemma climbStep_spec (m : RsaAttack.mapping) (s : num) (draw : nat * nat) :
  hasAll expected m ->
  RsaAttack.climbStep zero add gtb cipherNums model expected (m, s) draw =
  let swapped := RsaAttack.swapLetters m (fst (drawn expected draw)) (snd (drawn expected draw)) in
  if distinctDraw expected draw && gtb (score swapped) s
  then (swapped, score swapped)
  else (m, s).
Proof.
  intros Hall. unfold RsaAttack.climbStep, distinctDraw, drawn. cbn [fst snd]. cbv zeta.
  destruct (Nat.eqb _ _); cbn [negb andb]; [reflexivity|].
  fold (score (RsaAttack.swapLetters m
                 (nth (fst draw mod List.length expected) expected 0)
                 (nth (snd draw mod List.length expected) expected 0))).
  destruct (gtb _ s); [reflexivity|].
  destruct (drawn_In draw) as [Ha Hb]. unfold drawn in Ha, Hb. cbn [fst snd] in Ha, Hb.
  rewrite revert_swap; [reflexivity | apply Hall; assumption | apply Hall; assumption].
Qed.

Lemma climbStep_hasAll (m : RsaAttack.mapping) (s : num) (draw : nat * nat) :
  hasAll expected m ->
  hasAll expected (fst (RsaAttack.climbStep zero add gtb cipherNums model expected (m, s) draw)).
Proof.
  intros Hall. rewrite climbStep_spec by assumption. cbv zeta.
  destruct (_ && _); cbn [fst]; [|assumption].
  destruct (drawn_In draw) as [Ha Hb].
  intros k Hk. rewrite swap_keys; auto.
Qed.

Lemma climbStep_score (m : RsaAttack.mapping) (s : num) (draw : nat * nat) :
  hasAll expected m -> s = score m ->
  snd (RsaAttack.climbStep zero add gtb cipherNums model expected (m, s) draw)
  = score (fst (RsaAttack.climbStep zero add gtb cipherNums model expected (m, s) draw)).
Proof.
  intros Hall Hs. rewrite climbStep_spec by assumption. cbv zeta.
  destruct (_ && _); cbn [fst snd]; [reflexivity | assumption].
Qed.

Lemma climbStep_le (m : RsaAttack.mapping) (s : num) (draw : nat * nat) :
  hasAll expected m ->
  Spec.scoreLe gtb s
    (snd (RsaAttack.climbStep zero add gtb cipherNums model expected (m, s) draw)).
Proof.
  intros Hall. rewrite climbStep_spec by assumption. cbv zeta.
  destruct (distinctDraw expected draw); cbn [andb]; [|left; reflexivity].
  destruct (gtb _ s) eqn:E; cbn [snd]; [right; assumption | left; reflexivity].
Qed.

Lemma climb_invariant (draws : list (nat * nat)) :
  forall m s,
    hasAll expected m -> s = score m ->
    hasAll expected (fst (fold_left (RsaAttack.climbStep zero add gtb cipherNums model expected)
                           draws (m, s))) /\
    snd (fold_left (RsaAttack.climbStep zero add gtb cipherNums model expected)
                   draws (m, s))
    = score (fst (fold_left (RsaAttack.climbStep zero add gtb cipherNums model expected)
                            draws (m, s))).
Proof.
  induction draws as [|draw draws IH]; intros m s Hall Hs; cbn [fold_left].
  - split; assumption.
  - pose proof (climbStep_hasAll m s draw Hall) as Hall'.
    pose proof (climbStep_score m s draw Hall Hs) as Hs'.
    destruct (RsaAttack.climbStep zero add gtb cipherNums model expected (m, s) draw)
      as [m' s']. apply IH; assumption.
Qed.

Hypothesis gtb_trans :
  forall x y z, gtb y x = true -> gtb z y = true -> gtb z x = true.

Lemma scoreLe_trans (x y z : num) :
  Spec.scoreLe gtb x y -> Spec.scoreLe gtb y z -> Spec.scoreLe gtb x z.
Proof.
  intros [->|Hxy] [->|Hyz].
  - left. reflexivity.
  - right. assumption.
  - right. assumption.
  - right. eapply gtb_trans; eassumption.
Qed.

Lemma climb_monotone (draws : list (nat * nat)) :
  forall m s,
    hasAll expected m ->
    Spec.scoreLe gtb s
      (snd (fold_left (RsaAttack.climbStep zero add gtb cipherNums model expected)
                      draws (m, s))).
Proof.
  induction draws as [|draw draws IH]; intros m s Hall; cbn [fold_left].
  - left. reflexivity.
  - pose proof (climbStep_hasAll m s draw Hall) as Hall'.
    pose proof (climbStep_le m s draw Hall) as Hle.
    destruct (RsaAttack.climbStep zero add gtb cipherNums model expected (m, s) draw)
      as [m' s']. cbn [fst snd] in *.
    eapply scoreLe_trans; [exact Hle | apply IH; assumption].
Qed.
End Climb.

Lemma hillClimbOn_unfold {num : Type} (zero : num) (add : num -> num -> num)
      (gtb : num -> num -> bool) (m : RsaAttack.mapping)
      (cipherNums : RsaAttack.cipherArray) (model : RsaAttack.bigram)
      (rsaPub : RsaAttack.rsaKey) (expected : list Z) (draws : list (nat * nat)) :
  RsaAttack.expectedSymbols rsaPub = inr expected ->
  RsaAttack.hillClimbOn zero add gtb m cipherNums model rsaPub draws =
  inr (fold_left (RsaAttack.climbStep zero add gtb cipherNums model expected) draws
                 (RsaAttack.padMapping m expected,
                  RsaAttack.scoreMapping zero add (RsaAttack.padMapping m expected)
                                         cipherNums model)).
Proof. intros H. unfold RsaAttack.hillClimbOn. rewrite H. reflexivity. Qed.



(** ** The seed padding yields a bijection *)

Lemma map_has_In {V : Type} (m : list (Z * V)) (k : Z) :
  map_has Z.eqb m k = true <-> In k (List.map fst m).
Proof.
  unfold map_has. destruct (map_get Z.eqb m k) eqn:E.
  - split; [intros _|reflexivity].
    destruct (in_dec Z.eq_dec k (List.map fst m)) as [?|Hnot]; [assumption|].
    apply map_get_None_notin in Hnot. congruence.
  - apply map_get_None_notin in E. split; [discriminate | contradiction].
Qed.

Lemma map_has_false {V : Type} (m : list (Z * V)) (k : Z) :
  map_has Z.eqb m k = false <-> ~ In k (List.map fst m).
Proof.
  rewrite <- map_has_In. destruct (map_has Z.eqb m k); split; congruence.
Qed.

Lemma ALPHABET_NoDup : NoDup RsaAttack.ALPHABET.
Proof. apply distinctb_spec. reflexivity. Qed.

Lemma ALPHABET_length : List.length RsaAttack.ALPHABET = 27%nat.
Proof. reflexivity. Qed.

Lemma filter_has_set (m : RsaAttack.mapping) (sym : Z) (v : option Z) (rest : list Z) :
  ~ In sym rest ->
  filter (fun s => negb (map_has Z.eqb (map_set Z.eqb m sym v) s)) rest
  = filter (fun s => negb (map_has Z.eqb m s)) rest.
Proof.
  intros Hnot. apply filter_ext_in. intros s Hs. unfold map_has.
  rewrite map_get_set_other; [reflexivity|]. intros ->. contradiction.
Qed.

Lemma padStep_inv (st : RsaAttack.mapping * list Z) (sym : Z) (rest : list Z) :
  NoDup (sym :: rest) -> padInv st (sym :: rest) -> padInv (RsaAttack.padStep st sym) rest.
Proof.
  intros Hnd [Hkeys [[vs [Hvals [Hvnd [Hvincl Hvlen]]]] Hcount]].
  destruct st as [m rem]. cbn [fst snd] in *.
  inversion Hnd as [|? ? Hsym Hrest]. subst.
  unfold RsaAttack.padStep. cbn [filter] in Hcount.
  destruct (map_has Z.eqb m sym) eqn:Hhas; cbn [negb] in Hcount.
  - split; [assumption|]. split; [|assumption].
    exists vs. repeat split; assumption.
  - cbn [List.length] in Hcount.
    assert (Hnotin : ~ In sym (List.map fst m)) by (apply map_has_false; assumption).
    assert (Hlenm : List.length vs = List.length m).
    { rewrite <- (length_map Some vs), <- Hvals, length_map. reflexivity. }
    destruct (rev rem) as [|last front] eqn:Hrev.
    + exfalso. assert (rem = []) by (rewrite <- (rev_involutive rem), Hrev; reflexivity).
      subst rem. cbn [List.length] in Hvlen. lia.
    + assert (Hrem : rem = rev front ++ [last]).
      { rewrite <- (rev_involutive rem), Hrev. reflexivity. }
      unfold padInv. cbn [fst snd]. rewrite map_set_absent by assumption.
      split; [|split].
      * rewrite map_app. cbn [List.map fst]. apply NoDup_app; try assumption.
        -- constructor; [intros [] | constructor].
        -- intros a Ha [<-|[]]. contradiction.
      * exists (vs ++ [last]). rewrite !map_app, Hvals. cbn [List.map snd].
        assert (Hperm : Permutation ((vs ++ [last]) ++ rev front) (vs ++ rem)).
        { rewrite Hrem, <- app_assoc. apply Permutation_app_head, Permutation_app_comm. }
        repeat split.
        -- apply (Permutation_NoDup (Permutation_sym Hperm)). assumption.
        -- intros a Ha. apply Hvincl. apply (Permutation_in a Hperm). assumption.
        -- rewrite Hrem in Hvlen. rewrite !length_app in *. cbn [List.length] in *. lia.
      * rewrite <- (map_set_absent m sym (Some last)) by assumption.
        rewrite filter_has_set by assumption.
        rewrite map_set_absent by assumption. rewrite length_app. cbn [List.length]. lia.
Qed.

Lemma padFold_inv (rest : list Z) :
  forall st, NoDup rest -> padInv st rest ->
             padInv (fold_left RsaAttack.padStep rest st) [].
Proof.
  induction rest as [|sym rest IH]; intros st Hnd Hinv; cbn [fold_left]; [assumption|].
  apply IH.
  - inversion Hnd. assumption.
  - apply padStep_inv; assumption.
Qed.

Lemma unassigned_filter (ls : list Z) (c : Z) :
  negb (existsb (fun v : option Z => match v with
                                     | Some l => l =? c
                                     | None => false
                                     end) (List.map Some ls)) = true
  <-> ~ In c ls.
Proof.
  rewrite negb_true_iff. split.
  - intros H Hin. assert (E : existsb (fun v : option Z => match v with
                                                            | Some l => l =? c
                                                            | None => false
                                                            end) (List.map Some ls) = true).
    { apply existsb_exists. exists (Some c). split; [apply in_map; assumption|].
      apply Z.eqb_refl. }
    congruence.
  - intros Hnot. destruct (existsb _ _) eqn:E; [|reflexivity].
    apply existsb_exists in E. destruct E as [v [Hv Hc]].
    apply in_map_iff in Hv. destruct Hv as [l [<- Hl]].
    apply Z.eqb_eq in Hc. subst l. contradiction.
Qed.

Lemma pad_initial (expected : list Z) (m : RsaAttack.mapping) :
  NoDup expected -> List.length expected = 27%nat ->
  Spec.partialInjection expected m ->
  padInv (m, filter (fun c => negb (existsb (fun v : option Z => match v with
                                                                  | Some l => l =? c
                                                                  | None => false
                                                                  end)
                                            (RsaAttack.assignedLetters m)))
                    RsaAttack.ALPHABET)
         expected.
Proof.
  intros Hnd Hlen [Hkeys [Hincl [ls [Hvals [Hlsnd Hlsincl]]]]].
  unfold RsaAttack.assignedLetters. rewrite Hvals.
  set (rem := filter _ RsaAttack.ALPHABET).
  assert (Hrem : forall c, In c rem <-> In c RsaAttack.ALPHABET /\ ~ In c ls).
  { intros c. unfold rem. rewrite filter_In, unassigned_filter. reflexivity. }
  assert (Hndapp : NoDup (ls ++ rem)).
  { apply NoDup_app; [assumption | apply NoDup_filter, ALPHABET_NoDup |].
    intros a Ha Hr. apply Hrem in Hr. tauto. }
  assert (Hperm : Permutation (ls ++ rem) RsaAttack.ALPHABET).
  { apply NoDup_Permutation; [assumption | apply ALPHABET_NoDup|].
    intros c. rewrite in_app_iff, Hrem. split.
    - intros [H|[H _]]; [apply Hlsincl|]; assumption.
    - intros H. destruct (in_dec Z.eq_dec c ls); tauto. }
  split; [exact Hkeys|]. cbn [fst snd]. split.
  - exists ls. repeat split; try assumption.
    + intros c Hc. apply (Permutation_in c Hperm). assumption.
    + rewrite <- length_app, (Permutation_length Hperm). reflexivity.
  - rewrite <- (length_map fst m), <- length_app, <- Hlen.
    apply NoDup_incl_length.
    + apply NoDup_app; [assumption | apply NoDup_filter; assumption |].
      intros a Ha Hf. apply filter_In in Hf. destruct Hf as [_ Hf].
      apply negb_true_iff, map_has_false in Hf. contradiction.
    + intros a Ha. apply in_app_or in Ha. destruct Ha as [Ha|Ha].
      * apply Hincl. assumption.
      * apply filter_In in Ha. tauto.
Qed.

Lemma NoDup_snd_inj {K V : Type} (m : list (K * V)) (k1 k2 : K) (v : V) :
  NoDup (List.map snd m) -> In (k1, v) m -> In (k2, v) m -> k1 = k2.
Proof.
  induction m as [|[k v'] m IH]; cbn; [tauto|]. intros Hnd H1 H2.
  inversion Hnd as [|? ? Hnotin Hnd']. subst.
  destruct H1 as [E1|H1]; destruct H2 as [E2|H2].
  - congruence.
  - inversion E1. subst. exfalso. apply Hnotin.
    change v with (snd (k2, v)). apply in_map. assumption.
  - inversion E2. subst. exfalso. apply Hnotin.
    change v with (snd (k1, v)). apply in_map. assumption.
  - apply IH; assumption.
Qed.

(** A total injection of the expected symbols into the letters is onto,
    since both are 27. *)
Lemma injection_bijection (expected : list Z) (m : RsaAttack.mapping) :
  NoDup expected -> List.length expected = 27%nat ->
  (forall s, In s expected ->
             exists l, In l RsaAttack.ALPHABET /\ RsaAttack.getLetter m s = Some l) ->
  (forall s1 s2, In s1 expected -> In s2 expected ->
                 RsaAttack.getLetter m s1 = RsaAttack.getLetter m s2 -> s1 = s2) ->
  Spec.bijection expected m.
Proof.
  intros Hnd Hlen Htot Hinj. split; [assumption|]. split; [assumption|].
  set (f := fun s => match RsaAttack.getLetter m s with Some l => l | None => 0 end).
  assert (Hf : forall s, In s expected -> RsaAttack.getLetter m s = Some (f s)).
  { intros s Hs. destruct (Htot s Hs) as [l [_ Hl]]. unfold f. rewrite Hl. reflexivity. }
  assert (HL : NoDup (List.map f expected)).
  { apply Finite.Injective_map_NoDup_in; [|assumption].
    intros a b Ha Hb E. apply Hinj; try assumption.
    rewrite (Hf a Ha), (Hf b Hb), E. reflexivity. }
  assert (Hincl : incl (List.map f expected) RsaAttack.ALPHABET).
  { intros l Hl. apply in_map_iff in Hl. destruct Hl as [s [<- Hs]].
    destruct (Htot s Hs) as [l [Hl Hget]]. rewrite (Hf s Hs) in Hget.
    inversion Hget. subst. assumption. }
  assert (Honto : incl RsaAttack.ALPHABET (List.map f expected)).
  { apply NoDup_length_incl; try assumption.
    rewrite length_map, Hlen, ALPHABET_length. lia. }
  intros l Hl. apply Honto in Hl. apply in_map_iff in Hl.
  destruct Hl as [s [<- Hs]]. exists s. split; [assumption | apply Hf; assumption].
Qed.

Lemma padMapping_bijection (expected : list Z) (m : RsaAttack.mapping) :
  NoDup expected -> List.length expected = 27%nat ->
  Spec.partialInjection expected m ->
  Spec.bijection expected (RsaAttack.padMapping m expected).
Proof.
  intros Hnd Hlen Hm.
  pose proof (padFold_inv expected _ Hnd (pad_initial expected m Hnd Hlen Hm)) as Hinv.
  pose proof (fun s => padMapping_has_all m expected s) as Hall.
  unfold RsaAttack.padMapping in *.
  set (final := fold_left RsaAttack.padStep expected _) in *.
  destruct Hinv as [Hkeys [[vs [Hvals [Hvnd [Hvincl _]]]] _]].
  assert (Hvs : NoDup vs) by (apply NoDup_app_remove_r in Hvnd; assumption).
  assert (Hget : forall s, In s expected ->
                           exists l, In l vs /\ In (s, Some l) (fst final) /\
                                     RsaAttack.getLetter (fst final) s = Some l).
  { intros s Hs. specialize (Hall s Hs). cbv zeta in Hall.
    pose proof (map_get_getLetter (fst final) s Hall) as Hg.
    apply map_get_Some_In in Hg.
    assert (Hv : In (RsaAttack.getLetter (fst final) s) (List.map snd (fst final))).
    { change (RsaAttack.getLetter (fst final) s)
        with (snd (s, RsaAttack.getLetter (fst final) s)). apply in_map. assumption. }
    rewrite Hvals in Hv. apply in_map_iff in Hv. destruct Hv as [l [El Hl]].
    exists l. rewrite <- El in *. repeat split; assumption. }
  apply injection_bijection; try assumption.
  - intros s Hs. destruct (Hget s Hs) as [l [Hl [_ Hg]]]. exists l. split; [|assumption].
    apply Hvincl, in_or_app. left. assumption.
  - intros s1 s2 H1 H2 E.
    destruct (Hget s1 H1) as [l1 [_ [Hin1 Hg1]]].
    destruct (Hget s2 H2) as [l2 [_ [Hin2 Hg2]]].
    assert (l1 = l2) by congruence. subst l2.
    apply (NoDup_snd_inj (fst final) s1 s2 (Some l1)); try assumption.
    rewrite Hvals. apply Finite.Injective_map_NoDup; [|assumption].
    intros a b Hab. congruence.
Qed.

(** ** The search keeps the bijection *)





(** ** The heap effect of [hillClimb] *)

Lemma store_same (h : RsaAttack.heap) (ref : nat) (m : RsaAttack.mapping) :
  (ref < List.length h)%nat -> nth_error (RsaAttack.store h ref m) ref = Some m.
Proof.
  revert ref. induction h as [|m' h IH]; intros [|ref] Hlt; cbn in *; try lia.
  - reflexivity.
  - apply IH. lia.
Qed.

Lemma store_other (h : RsaAttack.heap) (ref ref' : nat) (m : RsaAttack.mapping) :
  ref' <> ref -> nth_error (RsaAttack.store h ref m) ref' = nth_error h ref'.
Proof.
  revert ref ref'. induction h as [|m' h IH]; intros [|ref] [|ref'] Hne; cbn;
    try reflexivity; try congruence.
  apply IH. congruence.
Qed.

Lemma store_length (h : RsaAttack.heap) (ref : nat) (m : RsaAttack.mapping) :
  List.length (RsaAttack.store h ref m) = List.length h.
Proof.
  revert ref. induction h as [|m' h IH]; intros [|ref]; cbn; try reflexivity.
  rewrite IH. reflexivity.
Qed.

(** C7, as the code has it.  [hillClimb] receives a reference to the
    caller's [Map] and returns only the score.  When it returns, the
    referenced [Map] holds the padded and refined mapping, whose bigram
    score is the returned score; every other object of the heap is
    unchanged and no object is allocated.  [main] then decodes with the
    same reference and so with the refined mapping
    ([attack_reads_refined]). *)
Theorem C7_hill_climb_frame {num : Type} (zero : num) (add : num -> num -> num)
        (gtb : num -> num -> bool) (ref : nat) (m : RsaAttack.mapping)
        (cipherNums : RsaAttack.cipherArray) (model : RsaAttack.bigram)
        (rsaPub : RsaAttack.rsaKey) (draws : list (nat * nat)) (h : RsaAttack.heap) :
  RsaAttack.N rsaPub <> 0 ->
  nth_error h ref = Some m ->
  exists mf s h',
    RsaAttack.hillClimbOn zero add gtb m cipherNums model rsaPub draws = inr (mf, s) /\
    RsaAttack.hillClimb zero add gtb ref cipherNums model rsaPub draws h = inr (s, h') /\
    nth_error h' ref = Some mf /\
    s = RsaAttack.scoreMapping zero add mf cipherNums model /\
    (forall ref', ref' <> ref -> nth_error h' ref' = nth_error h ref') /\
    List.length h' = List.length h.
Proof.
  intros HN Href.
  destruct (expectedSymbols_returns rsaPub HN) as [expected [Hexp Hlen]].
  assert (Hne : expected <> []) by (destruct expected; [discriminate | congruence]).
  pose proof (hillClimbOn_unfold zero add gtb m cipherNums model rsaPub expected draws Hexp)
    as Hrun.
  destruct (fold_left _ draws _) as [mf s] eqn:Efold in Hrun.
  exists mf, s, (RsaAttack.store h ref mf).
  split; [assumption|]. split; [|split; [|split; [|split]]].
  - unfold RsaAttack.hillClimb. rewrite Href, Hrun. reflexivity.
  - apply store_same. apply nth_error_Some. congruence.
  - assert (Hall0 : hasAll expected (RsaAttack.padMapping m expected)).
    { intros k Hk. apply padMapping_has_all. assumption. }
    destruct (climb_invariant zero add gtb cipherNums model expected Hne draws
                (RsaAttack.padMapping m expected)
                (RsaAttack.scoreMapping zero add (RsaAttack.padMapping m expected)
                                        cipherNums model) Hall0 eq_refl) as [_ Hscore].
    rewrite Efold in Hscore. exact Hscore.
  - intros ref' Hne'. apply store_other. assumption.
  - apply store_length.
Qed.

(** [main] reads the refined mapping through the reference it passed:
    the text it decodes after the search is the decoding by the final
    state of the [Map]. *)
Lemma attack_reads_refined {num : Type} (zero : num) (add : num -> num -> num)
      (gtb : num -> num -> bool) (cipherNums : RsaAttack.cipherArray)
      (plainCounts : list (Z * Z)) (model : RsaAttack.bigram)
      (rsa : RsaAttack.rsaKey) (draws : list (nat * nat))
      (decodedFreq decodedHill : jsstring) (beforeScore bestScore : num) :
  RsaAttack.attack zero add gtb cipherNums plainCounts model rsa draws
  = inr (decodedFreq, beforeScore, bestScore, decodedHill) ->
  exists mappingFreq mf,
    RsaAttack.freqMapping cipherNums plainCounts rsa = inr mappingFreq /\
    RsaAttack.hillClimbOn zero add gtb mappingFreq cipherNums model rsa draws
    = inr (mf, bestScore) /\
    decodedFreq = RsaAttack.applyMappingToCipher cipherNums mappingFreq /\
    decodedHill = RsaAttack.applyMappingToCipher cipherNums mf.
Proof.
  unfold RsaAttack.attack, RsaAttack.hillClimb.
  destruct (RsaAttack.freqMapping cipherNums plainCounts rsa) as [ex|mappingFreq];
    [discriminate|].
  cbn [bind nth_error].
  destruct (RsaAttack.hillClimbOn zero add gtb mappingFreq cipherNums model rsa draws)
    as [ex|[mf s]] eqn:Hrun; [discriminate|].
  cbn [bind ret fst snd RsaAttack.store nth]. intros H. inversion H. subst.
  exists mappingFreq, mf. repeat split. exact Hrun.
Qed.

Lemma C7_hill_climb_frame_witness :
  exists mf s h',
    RsaAttack.hillClimb 0 Z.add Z.gtb 1 [Some 1; Some 0] (fun _ _ => -1)
                        (RsaAttack.mkKey 11413 17 3953) [(0, 1)%nat]
                        [[(7, Some 65)]; []] = inr (s, h') /\
    nth_error h' 1 = Some mf /\
    nth_error h' 0 = Some [(7, Some 65)].
Proof.
  assert (HN : RsaAttack.N (RsaAttack.mkKey 11413 17 3953) <> 0) by (cbn; lia).
  destruct (C7_hill_climb_frame 0 Z.add Z.gtb 1 [] [Some 1; Some 0] (fun _ _ => -1)
              (RsaAttack.mkKey 11413 17 3953) [(0, 1)%nat] [[(7, Some 65)]; []]
              HN eq_refl)
    as [mf [s [h' [_ [Hrun [Href [_ [Hother _]]]]]]]].
  exists mf, s, h'. split; [assumption|]. split; [assumption|].
  rewrite (Hother 0%nat) by lia. reflexivity.
Defined.

(** The ciphertext of [BA] under the key of [main], attacked as [main]
    does with the draw [(0, 1)] and a bigram model that prefers [BA]: the
    [Map] that [freqMapping] returned decodes the ciphertext to [AB]
    before the call of [hillClimb]; after the call the same [Map] is a
    different one and decodes it to [BA]. *)
Lemma C7_hillClimb_mutates_mapping :
  exists mappingFreq s h',
    RsaAttack.freqMapping [Some 1; Some 0]
                          (RsaAttack.countsObjectFromString (str "BA"))
                          (RsaAttack.mkKey 11413 17 3953) = inr mappingFreq /\
    RsaAttack.hillClimb 0 Z.add Z.gtb 0 [Some 1; Some 0]
                        (fun a b => if (a =? 66) && (b =? 65) then 0 else -1)
                        (RsaAttack.mkKey 11413 17 3953) [(0, 1)%nat] [mappingFreq]
    = inr (s, h') /\
    nth_error h' 0 <> Some mappingFreq /\
    RsaAttack.applyMappingToCipher [Some 1; Some 0] mappingFreq = str "AB" /\
    RsaAttack.applyMappingToCipher [Some 1; Some 0] (nth 0 h' []) = str "BA".
Proof.
  destruct (RsaAttack.freqMapping [Some 1; Some 0]
              (RsaAttack.countsObjectFromString (str "BA"))
              (RsaAttack.mkKey 11413 17 3953)) as [ex|mappingFreq] eqn:Hfreq;
    [vm_compute in Hfreq; discriminate|].
  vm_compute in Hfreq. inversion Hfreq as [Hm]. clear Hfreq.
  eexists. eexists. eexists. split; [reflexivity|].
  split; [vm_compute; reflexivity|].
  split; [vm_compute; discriminate|].
  split; vm_compute; reflexivity.
Qed.

(** ** Sorting with a comparator *)

Section SortedFacts.
Context {A : Type} (cmp : A -> A -> Z).

Let le (a b : A) : Prop := cmp a b <= 0.

Hypothesis le_total : forall a b, le a b \/ le b a.
Hypothesis le_trans : forall a b c, le a b -> le b c -> le a c.

Lemma sort_insert_sorted (x : A) (l : list A) :
  StronglySorted (fun a b => cmp a b <= 0) l ->
  StronglySorted (fun a b => cmp a b <= 0) (sort_insert cmp x l).
Proof.
  induction 1 as [|y l Hsorted IH Hall]; cbn.
  - constructor; constructor.
  - destruct (Z.leb_spec (cmp x y) 0) as [Hxy|Hxy].
    + constructor; [constructor; assumption|].
      constructor; [assumption|].
      rewrite Forall_forall in *. intros z Hz. apply (le_trans x y z); [assumption|].
      apply Hall. assumption.
    + constructor; [assumption|].
      assert (Hyx : le y x) by (destruct (le_total x y); [unfold le in *; lia | assumption]).
      rewrite Forall_forall in *. intros z Hz.
      apply (Permutation_in z (sort_insert_Permutation cmp x l)) in Hz.
      destruct Hz as [<-|Hz]; [assumption | apply Hall; assumption].
Qed.

Lemma sort_sorted (l : list A) : StronglySorted (fun a b => cmp a b <= 0) (sort cmp l).
Proof.
  induction l as [|x l IH]; cbn; [constructor | apply sort_insert_sorted; assumption].
Qed.
End SortedFacts.

(** A list sorted by a strict order is determined by its elements. *)
Lemma sorted_unique {A : Type} (R : A -> A -> Prop) :
  (forall a b, R a b -> R b a -> False) ->
  forall l1 l2,
    StronglySorted R l1 -> StronglySorted R l2 -> Permutation l1 l2 -> l1 = l2.
Proof.
  intros Hasym. induction l1 as [|x1 l1 IH]; intros l2 H1 H2 Hperm.
  - apply Permutation_nil in Hperm. congruence.
  - destruct l2 as [|x2 l2]; [apply Permutation_sym, Permutation_nil in Hperm; discriminate|].
    inversion H1 as [|? ? Hs1 Hall1]. inversion H2 as [|? ? Hs2 Hall2]. subst.
    rewrite Forall_forall in Hall1, Hall2.
    assert (Hx : x1 = x2).
    { assert (Hin1 : In x1 (x2 :: l2)) by (apply (Permutation_in x1 Hperm); left; reflexivity).
      assert (Hin2 : In x2 (x1 :: l1))
        by (apply (Permutation_in x2 (Permutation_sym Hperm)); left; reflexivity).
      destruct Hin1 as [E|Hin1]; [congruence|].
      destruct Hin2 as [E|Hin2]; [congruence|].
      exfalso. apply (Hasym x1 x2); [apply Hall1 | apply Hall2]; assumption. }
    subst x2. f_equal. apply IH; try assumption.
    apply Permutation_cons_inv in Hperm. assumption.
Qed.

Lemma sorted_strengthen {A : Type} (R S : A -> A -> Prop) (l : list A) :
  (forall a b, In a l -> In b l -> R a b -> a <> b -> S a b) ->
  NoDup l -> StronglySorted R l -> StronglySorted S l.
Proof.
  induction l as [|x l IH]; intros HRS Hnd Hs; [constructor|].
  inversion Hs as [|? ? Hs' Hall]. inversion Hnd as [|? ? Hnotin Hnd']. subst.
  constructor.
  - apply IH; try assumption. intros a b Ha Hb. apply HRS; right; assumption.
  - rewrite Forall_forall in *. intros z Hz. apply HRS.
    + left. reflexivity.
    + right. assumption.
    + apply Hall. assumption.
    + intros ->. contradiction.
Qed.

(** ** [orderByFreq]: the ranking of rsa_freq.js *)

Lemma byFreqThenIndex_le (f : list Z) (a b : Z) :
  RsaFreq.byFreqThenIndex f a b <= 0 <-> (Spec.rankBefore f a b \/ a = b).
Proof.
  unfold RsaFreq.byFreqThenIndex, Spec.rankBefore. cbv zeta.
  destruct (Z.eqb_spec (nth (Z.to_nat b) f 0 - nth (Z.to_nat a) f 0) 0) as [E|E].
  - split; [intros H; assert (a = b \/ a < b) as [->|] by lia; [right; reflexivity|left; lia]|].
    intros [[H|[_ H]]| ->]; lia.
  - split; [intros H; left; lia|].
    intros [[H|[H _]]| ->]; lia.
Qed.

Lemma rankBefore_asym (f : list Z) (a b : Z) :
  Spec.rankBefore f a b -> Spec.rankBefore f b a -> False.
Proof. unfold Spec.rankBefore. lia. Qed.

Lemma orderIdx_Permutation (textAZ : jsstring) :
  Permutation (RsaFreq.orderIdx textAZ) (keys 26).
Proof. apply sort_Permutation. Qed.

Lemma orderIdx_sorted (textAZ : jsstring) :
  StronglySorted (Spec.rankBefore (RsaFreq.countFreqAZ textAZ)) (RsaFreq.orderIdx textAZ).
Proof.
  set (f := RsaFreq.countFreqAZ textAZ).
  apply (sorted_strengthen (fun a b => RsaFreq.byFreqThenIndex f a b <= 0)).
  - intros a b _ _ Hle Hne. apply byFreqThenIndex_le in Hle. tauto.
  - apply (Permutation_NoDup (Permutation_sym (orderIdx_Permutation textAZ))), keys_NoDup.
  - apply sort_sorted.
    + intros a b. rewrite !byFreqThenIndex_le. unfold Spec.rankBefore. lia.
    + intros a b c. rewrite !byFreqThenIndex_le. unfold Spec.rankBefore.
      intros [H1| ->] [H2| ->]; try tauto. left. lia.
Qed.

Lemma orderIdx_unique (textAZ : jsstring) (l : list Z) :
  Permutation l (keys 26) ->
  StronglySorted (Spec.rankBefore (RsaFreq.countFreqAZ textAZ)) l ->
  l = RsaFreq.orderIdx textAZ.
Proof.
  intros Hperm Hsorted.
  apply (sorted_unique (Spec.rankBefore (RsaFreq.countFreqAZ textAZ))).
  - apply rankBefore_asym.
  - assumption.
  - apply orderIdx_sorted.
  - rewrite Hperm. symmetry. apply orderIdx_Permutation.
Qed.

Lemma orderByFreq_NoDup (textAZ : jsstring) : NoDup (RsaFreq.orderByFreq textAZ).
Proof.
  unfold RsaFreq.orderByFreq. apply Finite.Injective_map_NoDup_in.
  - intros a b Ha Hb.
    apply (Permutation_in a (orderIdx_Permutation textAZ)), keys_In in Ha.
    apply (Permutation_in b (orderIdx_Permutation textAZ)), keys_In in Hb.
    unfold fromCharCode. rewrite !Z.mod_small by lia. lia.
  - apply (Permutation_NoDup (Permutation_sym (orderIdx_Permutation textAZ))), keys_NoDup.
Qed.

Lemma orderByFreq_length (textAZ : jsstring) :
  List.length (RsaFreq.orderByFreq textAZ) = 26%nat.
Proof.
  unfold RsaFreq.orderByFreq.
  rewrite length_map, (Permutation_length (orderIdx_Permutation textAZ)).
  apply keys_length.
Qed.

Lemma rankMapping_pairs (plainAZ cipherAZ : jsstring) :
  RsaFreq.rankMapping plainAZ cipherAZ
  = combine (RsaFreq.orderByFreq cipherAZ) (RsaFreq.orderByFreq plainAZ).
Proof.
  unfold RsaFreq.rankMapping.
  rewrite (fold_set_fresh (fun cs : Z * Z => fst cs) snd).
  - cbn [app]. rewrite <- (map_id (combine _ _)) at 2.
    apply map_ext. intros [c p]. reflexivity.
  - cbn [List.map app].
    assert (E : List.map (fun cs : Z * Z => fst cs)
                         (combine (RsaFreq.orderByFreq cipherAZ) (RsaFreq.orderByFreq plainAZ))
                = RsaFreq.orderByFreq cipherAZ).
    { set (c := RsaFreq.orderByFreq cipherAZ). set (p := RsaFreq.orderByFreq plainAZ).
      assert (Hlen : List.length p = List.length c)
        by (unfold p, c; rewrite !orderByFreq_length; reflexivity).
      clearbody c p. revert p Hlen.
      induction c as [|a c IH]; intros [|b p] Hlen; cbn in *; try reflexivity; try lia.
      rewrite IH by lia. reflexivity. }
    rewrite E. apply orderByFreq_NoDup.
Qed.

(** ** [freqMapping]: the ranking of rsa_attack.js *)

Lemma sorted_weaken {A : Type} (R S : A -> A -> Prop) (l : list A) :
  (forall a b, R a b -> S a b) -> StronglySorted R l -> StronglySorted S l.
Proof.
  intros HRS. induction 1 as [|x l Hs IH Hall]; constructor; [assumption|].
  rewrite Forall_forall in *. intros z Hz. apply HRS, Hall. assumption.
Qed.

Lemma byCountDesc_sorted (l : list (Z * Z)) :
  StronglySorted (fun a b => snd b <= snd a) (sort RsaAttack.byCountDesc l).
Proof.
  apply (sorted_weaken (fun a b => RsaAttack.byCountDesc a b <= 0)).
  - intros a b H. unfold RsaAttack.byCountDesc in H. lia.
  - apply sort_sorted; unfold RsaAttack.byCountDesc; intros; lia.
Qed.

(** Entries of equal count keep the order they had before the sort. *)
Lemma byCountDesc_insert_stable (c : Z) (x : Z * Z) (l : list (Z * Z)) :
  filter (fun p => snd p =? c) (sort_insert RsaAttack.byCountDesc x l)
  = filter (fun p => snd p =? c) (x :: l).
Proof.
  induction l as [|y l IH]; cbn [sort_insert]; [reflexivity|].
  unfold RsaAttack.byCountDesc at 1.
  destruct (Z.leb_spec (snd y - snd x) 0) as [Hle|Hgt]; [reflexivity|].
  cbn [filter] in *. rewrite IH.
  destruct (Z.eqb_spec (snd x) c) as [Ex|Ex]; [|reflexivity].
  destruct (Z.eqb_spec (snd y) c) as [Ey|Ey]; [lia | reflexivity].
Qed.

Lemma byCountDesc_stable (c : Z) (l : list (Z * Z)) :
  filter (fun p => snd p =? c) (sort RsaAttack.byCountDesc l)
  = filter (fun p => snd p =? c) l.
Proof.
  induction l as [|x l IH]; [reflexivity|].
  cbn [sort fold_right]. fold (sort RsaAttack.byCountDesc l).
  rewrite byCountDesc_insert_stable. cbn [filter]. rewrite IH. reflexivity.
Qed.

Lemma rankedCipher_symbols (cipherNums : RsaAttack.cipherArray) (expected : list Z) :
  Permutation (List.map fst (rankedCipher cipherNums expected)) expected.
Proof.
  unfold rankedCipher. rewrite sort_Permutation, map_map. cbn [fst].
  rewrite map_id. reflexivity.
Qed.

Lemma freqMapping_pairs (cipherNums : RsaAttack.cipherArray) (plainCounts : list (Z * Z))
      (rsaPub : RsaAttack.rsaKey) (expected : list Z) :
  RsaAttack.expectedSymbols rsaPub = inr expected ->
  NoDup expected ->
  RsaAttack.freqMapping cipherNums plainCounts rsaPub
  = inr (List.map (fun ia => (fst (snd ia), nth_error (rankedPlain plainCounts) (fst ia)))
                  (combine (seq 0 (List.length expected))
                           (rankedCipher cipherNums expected))).
Proof.
  intros Hexp Hnd.
  pose proof (rankedCipher_symbols cipherNums expected) as Hperm.
  assert (Hlen : List.length (rankedCipher cipherNums expected) = List.length expected).
  { unfold rankedCipher. rewrite sort_length, length_map. reflexivity. }
  unfold RsaAttack.freqMapping. rewrite Hexp. unfold bind, ret. cbv beta zeta.
  unfold rankedPlain, rankedCipher, Spec.countIn in *.
  generalize dependent (RsaAttack.padPlainList
                          (List.map fst (sort RsaAttack.byCountDesc plainCounts))).
  intros plainList.
  generalize dependent (sort RsaAttack.byCountDesc
                             (List.map (fun sym =>
                                          (sym, match map_get Z.eqb
                                                        (RsaAttack.countsFromArray cipherNums) sym with
                                                | Some c => c
                                                | None => 0
                                                end)) expected)).
  intros arr Hperm Hlen. f_equal.
  rewrite (fold_set_fresh (fun ia : nat * (Z * Z) => fst (snd ia))
                          (fun ia => nth_error plainList (fst ia))).
  - reflexivity.
  - cbn [List.map app].
    rewrite <- (map_map snd fst), combine_values.
    + apply (Permutation_NoDup (Permutation_sym Hperm)). assumption.
    + rewrite length_seq. assumption.
Qed.

(** ** The counters of [countFreqAZ] *)

Lemma bump_length (i : nat) (f : list Z) : List.length (RsaFreq.bump i f) = List.length f.
Proof.
  revert i. induction f as [|c f IH]; intros [|i]; cbn; try reflexivity.
  rewrite IH. reflexivity.
Qed.

Lemma bump_nth (i j : nat) (f : list Z) :
  (j < List.length f)%nat ->
  nth i (RsaFreq.bump j f) 0 = nth i f 0 + (if Nat.eqb i j then 1 else 0).
Proof.
  revert i j. induction f as [|c f IH]; intros i j Hj; cbn in Hj; [lia|].
  destruct j as [|j]; destruct i as [|i]; cbn; try lia.
  apply IH. lia.
Qed.

Lemma countFreqAZ_loop (t : jsstring) :
  forall f i,
    List.length f = 26%nat -> (i < 26)%nat ->
    nth i (fold_left
             (fun f ch =>
                let k := ch - 65 in
                if (0 <=? k) && (k <? 26) then RsaFreq.bump (Z.to_nat k) f else f)
             t f) 0
    = nth i f 0 + Spec.occurrences (65 + Z.of_nat i) t.
Proof.
  induction t as [|ch t IH]; intros f i Hlen Hi.
  - cbn [fold_left]. unfold Spec.occurrences. cbn. lia.
  - rewrite fold_left_step, occurrences_cons. cbv zeta.
    destruct (Z.leb_spec 0 (ch - 65)) as [H0|H0]; destruct (Z.ltb_spec (ch - 65) 26) as [H1|H1];
      cbn [andb].
    + rewrite IH by (rewrite ?bump_length; assumption).
      rewrite bump_nth by lia.
      destruct (Z.eqb_spec (65 + Z.of_nat i) ch) as [E|E];
        destruct (Nat.eqb_spec i (Z.to_nat (ch - 65))); lia.
    + rewrite IH by assumption. destruct (Z.eqb_spec (65 + Z.of_nat i) ch); lia.
    + rewrite IH by assumption. destruct (Z.eqb_spec (65 + Z.of_nat i) ch); lia.
    + rewrite IH by assumption. destruct (Z.eqb_spec (65 + Z.of_nat i) ch); lia.
Qed.

Lemma countFreqAZ_spec (t : jsstring) (i : Z) :
  0 <= i < 26 ->
  nth (Z.to_nat i) (RsaFreq.countFreqAZ t) 0 = Spec.occurrences (65 + i) t.
Proof.
  intros Hi. unfold RsaFreq.countFreqAZ.
  rewrite countFreqAZ_loop by (try reflexivity; lia).
  rewrite Z2Nat.id by lia.
  replace (nth (Z.to_nat i) (repeat 0 26) 0) with 0; [lia|].
  symmetry. apply nth_repeat.
Qed.

(** C4, as the code has it.  Both attacks are functions of their input.
    In rsa_freq.js, [orderByFreq] ranks the 26 letter indices by descending
    count, ties by ascending index: its result is the only arrangement of
    the indices that is sorted this way; the mapping pairs the cipher
    letter and the plain letter of the same rank.  In rsa_attack.js,
    [freqMapping] ranks the 27 expected cipher symbols and the keys of
    [plainCounts] by descending count with a stable sort, so entries of
    equal count keep their input order, and pairs the cipher symbol of
    rank [i] with the plain symbol of rank [i]. *)
Theorem C4_rank_alignment (textAZ plainAZ cipherAZ : jsstring)
        (cipherNums : RsaAttack.cipherArray) (plainCounts : list (Z * Z))
        (rsaPub : RsaAttack.rsaKey) (expected : list Z) :
  RsaAttack.expectedSymbols rsaPub = inr expected ->
  NoDup expected ->
  (forall i, 0 <= i < 26 ->
             nth (Z.to_nat i) (RsaFreq.countFreqAZ textAZ) 0
             = Spec.occurrences (65 + i) textAZ) /\
  Permutation (RsaFreq.orderIdx textAZ) (keys 26) /\
  StronglySorted (Spec.rankBefore (RsaFreq.countFreqAZ textAZ)) (RsaFreq.orderIdx textAZ) /\
  (forall l, Permutation l (keys 26) ->
             StronglySorted (Spec.rankBefore (RsaFreq.countFreqAZ textAZ)) l ->
             l = RsaFreq.orderIdx textAZ) /\
  RsaFreq.rankMapping plainAZ cipherAZ
  = combine (RsaFreq.orderByFreq cipherAZ) (RsaFreq.orderByFreq plainAZ) /\
  RsaAttack.freqMapping cipherNums plainCounts rsaPub
  = inr (List.map (fun ia => (fst (snd ia), nth_error (rankedPlain plainCounts) (fst ia)))
                  (combine (seq 0 (List.length expected))
                           (rankedCipher cipherNums expected))) /\
  StronglySorted (fun a b => snd b <= snd a) (rankedCipher cipherNums expected) /\
  StronglySorted (fun a b => snd b <= snd a) (sort RsaAttack.byCountDesc plainCounts) /\
  (forall c,
      filter (fun p => snd p =? c) (rankedCipher cipherNums expected)
      = filter (fun p => snd p =? c)
               (List.map (fun sym =>
                            (sym, Spec.countIn (RsaAttack.countsFromArray cipherNums) sym))
                         expected)) /\
  (forall c,
      filter (fun p => snd p =? c) (sort RsaAttack.byCountDesc plainCounts)
      = filter (fun p => snd p =? c) plainCounts).
Proof.
  intros Hexp Hnd.
  split; [intros i Hi; apply countFreqAZ_spec; assumption|].
  split; [apply orderIdx_Permutation|].
  split; [apply orderIdx_sorted|].
  split; [apply orderIdx_unique|].
  split; [apply rankMapping_pairs|].
  split; [apply freqMapping_pairs; assumption|].
  split; [apply byCountDesc_sorted|].
  split; [apply byCountDesc_sorted|].
  split; intros c; apply byCountDesc_stable.
Qed.

Lemma C4_rank_alignment_witness :
  exists expected,
    RsaAttack.freqMapping [Some 1; Some 0; Some 1] [(66, 2); (65, 1)]
                          (RsaAttack.mkKey 11413 17 3953)
    = inr (List.map (fun ia => (fst (snd ia),
                                nth_error (rankedPlain [(66, 2); (65, 1)]) (fst ia)))
                    (combine (seq 0 (List.length expected))
                             (rankedCipher [Some 1; Some 0; Some 1] expected))).
Proof.
  destruct (RsaAttack.expectedSymbols (RsaAttack.mkKey 11413 17 3953))
    as [ex|expected] eqn:Hexp; [vm_compute in Hexp; discriminate|].
  assert (Hnd : NoDup expected).
  { apply distinctb_spec. vm_compute in Hexp. inversion Hexp. reflexivity. }
  exists expected.
  exact (proj1 (proj2 (proj2 (proj2 (proj2 (proj2
           (C4_rank_alignment [] [] [] [Some 1; Some 0; Some 1] [(66, 2); (65, 1)]
                              (RsaAttack.mkKey 11413 17 3953) expected Hexp Hnd))))))).
Defined.

(** The ciphertext of [BA] under the key of [main], with the counts of
    [BA] as [main] builds them: A and B occur once each, and so do their
    cipher symbols 0 and 1.  Ranking with ties by ascending alphabetical
    index pairs the symbol 0 with A; [freqMapping] pairs it with B, the
    first key of [plainCounts]. *)
Lemma C4_freqMapping_tie_order :
  exists expected m,
    RsaAttack.expectedSymbols (RsaAttack.mkKey 11413 17 3953) = inr expected /\
    RsaAttack.encryptTextRSA (str "BA") (RsaAttack.mkKey 11413 17 3953)
    = inr [Some 1; Some 0] /\
    RsaAttack.freqMapping [Some 1; Some 0]
                          (RsaAttack.countsObjectFromString (str "BA"))
                          (RsaAttack.mkKey 11413 17 3953) = inr m /\
    RsaAttack.getLetter m 0 = Some 66 /\
    map_get Z.eqb
            (Spec.rankAlignment [Some 1; Some 0]
                                (RsaAttack.countsObjectFromString (str "BA")) expected) 0
    = Some 65.
Proof.
  destruct (RsaAttack.expectedSymbols (RsaAttack.mkKey 11413 17 3953))
    as [ex|expected] eqn:Hexp; [vm_compute in Hexp; discriminate|].
  vm_compute in Hexp. inversion Hexp as [Hexpected]. clear Hexp.
  eexists. eexists. split; [reflexivity|].
  split; [vm_compute; reflexivity|].
  split; [vm_compute; reflexivity|].
  split; vm_compute; reflexivity.
Qed.

(** ** Extended Euclid on all BigInts *)

Lemma gcd_rem_step (a b : Z) : Z.gcd b (Z.rem a b) = Z.gcd a b.
Proof.
  destruct (Z.eq_dec b 0) as [->|Hb].
  - rewrite Z.rem_0_r_ext by reflexivity. rewrite Z.gcd_0_l, Z.gcd_0_r. reflexivity.
  - pose proof (Z.quot_rem' a b) as Hqr.
    replace (Z.rem a b) with (a + (- Z.quot a b) * b) by lia.
    rewrite Z.gcd_add_mult_diag_r. apply Z.gcd_comm.
Qed.

Lemma egcdBig_bezout (a b : Z) :
  a * RsaFreq.x (RsaFreq.egcdBig a b) + b * RsaFreq.y (RsaFreq.egcdBig a b)
  = RsaFreq.g (RsaFreq.egcdBig a b) /\
  Z.abs (RsaFreq.g (RsaFreq.egcdBig a b)) = Z.gcd a b.
Proof.
  funelim (RsaFreq.egcdBig a b).
  - subst b. cbn. rewrite Z.gcd_0_r. split; lia.
  - cbn zeta. cbn [RsaFreq.g RsaFreq.x RsaFreq.y].
    destruct H as [Hbez Hg]. split.
    + rewrite <- Hbez. pose proof (Z.quot_rem' a b) as Hqr.
      set (r := RsaFreq.egcdBig b (Z.rem a b)) in *.
      set (qt := Z.quot a b) in *. set (rm := Z.rem a b) in *.
      rewrite Hqr at 1. ring.
    + rewrite Hg. apply gcd_rem_step.
Qed.

Lemma egcd_egcdBig (a b : Z) :
  RsaAttack.egcd a b
  = (RsaFreq.x (RsaFreq.egcdBig a b), RsaFreq.y (RsaFreq.egcdBig a b),
     RsaFreq.g (RsaFreq.egcdBig a b)).
Proof.
  funelim (RsaAttack.egcd a b).
  - subst b. reflexivity.
  - cbn zeta. rewrite H. cbn [fst snd].
    rewrite (RsaFreq.egcdBig_equation_1 a b).
    destruct (Z.eq_dec b 0) as [E|E]; [contradiction|]. reflexivity.
Qed.

(** X1.  Bezout identity of the two extended Euclid functions, for all
    BigInts, negative ones included: [egcdBig a b] returns [g], [x], [y]
    with [a * x + b * y = g], and [g] is the greatest common divisor up to
    sign; [egcd] of rsa_attack.js returns the same three numbers as the
    array [[x, y, g]]. *)
Theorem X1_egcd_bezout (a b : Z) :
  a * RsaFreq.x (RsaFreq.egcdBig a b) + b * RsaFreq.y (RsaFreq.egcdBig a b)
  = RsaFreq.g (RsaFreq.egcdBig a b) /\
  Z.abs (RsaFreq.g (RsaFreq.egcdBig a b)) = Z.gcd a b /\
  RsaAttack.egcd a b
  = (RsaFreq.x (RsaFreq.egcdBig a b), RsaFreq.y (RsaFreq.egcdBig a b),
     RsaFreq.g (RsaFreq.egcdBig a b)).
Proof.
  split; [apply egcdBig_bezout|]. split; [apply egcdBig_bezout | apply egcd_egcdBig].
Qed.

(** ** The modular inverse on all BigInts *)

Lemma rem_shift_congruent (x m : Z) :
  m <> 0 -> exists k, Z.rem (Z.rem x m + m) m = x + m * k.
Proof.
  intros Hm.
  pose proof (Z.quot_rem' x m) as H1.
  pose proof (Z.quot_rem' (Z.rem x m + m) m) as H2.
  exists (1 - Z.quot x m - Z.quot (Z.rem x m + m) m). lia.
Qed.

Lemma rem_shift_range (x m : Z) :
  0 < m -> 0 <= Z.rem (Z.rem x m + m) m < m.
Proof.
  intros Hm. pose proof (Z.rem_bound_abs x m ltac:(lia)) as Hb.
  assert (H0 : 0 <= Z.rem x m + m) by lia.
  pose proof (Z.rem_bound_pos (Z.rem x m + m) m H0 Hm). lia.
Qed.

Lemma modInvBig_sound (e phi d : Z) :
  RsaFreq.modInvBig e phi = inr d ->
  Z.gcd e phi = 1 /\ phi <> 0 /\ (phi | e * d - 1) /\ (0 < phi -> 0 <= d < phi).
Proof.
  unfold RsaFreq.modInvBig. cbn zeta.
  destruct (egcdBig_bezout e phi) as [Hbez Hg].
  destruct (Z.eqb_spec (RsaFreq.g (RsaFreq.egcdBig e phi)) 1) as [E|E];
    cbn [negb]; [|discriminate].
  destruct (Z.eqb_spec phi 0) as [Hz|Hnz]; [discriminate|].
  intros Hd. inversion Hd as [Hd']. clear Hd.
  rewrite E in *. split; [rewrite <- Hg; reflexivity|]. split; [assumption|]. split.
  - destruct (rem_shift_congruent (RsaFreq.x (RsaFreq.egcdBig e phi)) phi Hnz) as [k Hk].
    rewrite Hk. exists (e * k - RsaFreq.y (RsaFreq.egcdBig e phi)).
    set (x := RsaFreq.x (RsaFreq.egcdBig e phi)) in *.
    set (y := RsaFreq.y (RsaFreq.egcdBig e phi)) in *. lia.
  - intros Hpos. apply rem_shift_range. assumption.
Qed.

Lemma modInv_modInvBig (a m : Z) :
  RsaAttack.modInv a m
  = match RsaFreq.modInvBig a m with
    | inl (Error _) => inl (Error "No modular inverse")
    | r => r
    end.
Proof.
  unfold RsaAttack.modInv, RsaFreq.modInvBig. cbn zeta.
  rewrite egcd_egcdBig. cbn [fst snd].
  destruct (negb (RsaFreq.g (RsaFreq.egcdBig a m) =? 1)); [reflexivity|].
  destruct (m =? 0); reflexivity.
Qed.

Lemma modInv_sound (a m d : Z) :
  RsaAttack.modInv a m = inr d ->
  Z.gcd a m = 1 /\ m <> 0 /\ (m | a * d - 1) /\ (0 < m -> 0 <= d < m).
Proof.
  rewrite modInv_modInvBig.
  destruct (RsaFreq.modInvBig a m) as [[msg| |]|d'] eqn:E; try discriminate.
  intros H. inversion H. subst d'. apply modInvBig_sound. assumption.
Qed.

(** X2.  Whenever one of the two modular-inverse functions returns, on
    BigInts of any sign, the result [d] is an inverse: the modulus is not
    zero, it is coprime with the argument, and it divides [e * d - 1]; for a
    positive modulus [d] is in [[0, phi)]. *)
Theorem X2_modInv_sound (e phi d : Z) :
  RsaFreq.modInvBig e phi = inr d \/ RsaAttack.modInv e phi = inr d ->
  Z.gcd e phi = 1 /\ phi <> 0 /\ (phi | e * d - 1) /\ (0 < phi -> 0 <= d < phi).
Proof.
  intros [H|H]; [apply modInvBig_sound | apply modInv_sound]; assumption.
Qed.

Lemma X2_modInv_sound_witness :
  Z.gcd (-7) 120 = 1 /\ (120 | -7 * 17 - 1) /\ (0 < 120 -> 0 <= 17 < 120).
Proof.
  pose proof (X2_modInv_sound (-7) 120 17 (or_intror eq_refl)) as H.
  split; [exact (proj1 H)|]. exact (proj2 (proj2 H)).
Defined.

(** ** [gcd] *)

Lemma gcdLoop_spec (a b : Z) : 0 <= a -> 0 <= b -> RsaAttack.gcdLoop a b = Z.gcd a b.
Proof.
  funelim (RsaAttack.gcdLoop a b); intros Ha Hb.
  - subst b. rewrite Z.gcd_0_r. lia.
  - rewrite H.
    + apply gcd_rem_step.
    + lia.
    + apply Z.rem_nonneg; lia.
Qed.

Lemma gcd_value (a b : Z) : RsaAttack.gcd a b = Z.gcd a b.
Proof.
  unfold RsaAttack.gcd.
  destruct (Z.ltb_spec a 0); destruct (Z.ltb_spec b 0);
    rewrite gcdLoop_spec by lia;
    rewrite ?Z.gcd_opp_l, ?Z.gcd_opp_r; reflexivity.
Qed.

(** X3.  [gcd] of rsa_attack.js terminates on all BigInts and returns the
    greatest common divisor, which is not negative; [gcd(0n, 0n)] is
    [0n]. *)
Theorem X3_gcd_correct (a b : Z) :
  RsaAttack.gcd a b = Z.gcd a b /\ 0 <= RsaAttack.gcd a b /\
  (RsaAttack.gcd a b = 0 <-> a = 0 /\ b = 0).
Proof.
  rewrite gcd_value. split; [reflexivity|]. split; [apply Z.gcd_nonneg|].
  apply Z.gcd_eq_0.
Qed.

(** ** Key generation of rsa_attack.js *)

Lemma modInv_ok (a m : Z) :
  0 <= a -> 0 < m -> Z.gcd a m = 1 ->
  exists d, RsaAttack.modInv a m = inr d /\ 0 <= d < m /\ (a * d) mod m = 1 mod m.
Proof.
  intros Ha Hm Hg. destruct (modInvBig_ok a m Ha Hm Hg) as [d [Hd Hrest]].
  exists d. split; [|exact Hrest]. rewrite modInv_modInvBig, Hd. reflexivity.
Qed.

(** X4.  [makeSmallRSA] on two factors greater than 1 and a public
    exponent that is not negative: it throws exactly when [e] and
    [phi = (p - 1) * (q - 1)] are not coprime, always with the message of
    its own check (the check of [modInv] never fires after it); otherwise it
    returns [N = p * q], [phi], and the private exponent [d] in [[0, phi)]
    with [e * d = 1] modulo [phi]. *)
Theorem X4_makeSmallRSA (p q e : Z) :
  1 < p -> 1 < q -> 0 <= e ->
  (Z.gcd e ((p - 1) * (q - 1)) <> 1 ->
   RsaAttack.makeSmallRSA p q e = inl (Error "e must be coprime with phi")) /\
  (Z.gcd e ((p - 1) * (q - 1)) = 1 ->
   exists d,
     RsaAttack.makeSmallRSA p q e
     = inr (RsaAttack.mkParams p q (RsaAttack.mkKey (p * q) e d) ((p - 1) * (q - 1))) /\
     0 <= d < (p - 1) * (q - 1) /\
     (e * d) mod ((p - 1) * (q - 1)) = 1 mod ((p - 1) * (q - 1))).
Proof.
  intros Hp Hq He. unfold RsaAttack.makeSmallRSA. cbv zeta. rewrite gcd_value.
  split; intros Hg.
  - destruct (Z.eqb_spec (Z.gcd e ((p - 1) * (q - 1))) 1); [contradiction | reflexivity].
  - rewrite Hg. cbn [Z.eqb Pos.eqb negb].
    destruct (modInv_ok e ((p - 1) * (q - 1)) He ltac:(nia) Hg) as [d [Hd Hrest]].
    exists d. rewrite Hd. split; [reflexivity | exact Hrest].
Qed.

Lemma X4_makeSmallRSA_witness :
  exists d,
    RsaAttack.makeSmallRSA 101 113 17
    = inr (RsaAttack.mkParams 101 113 (RsaAttack.mkKey (101 * 113) 17 d)
                              ((101 - 1) * (113 - 1))) /\
    0 <= d < (101 - 1) * (113 - 1) /\
    (17 * d) mod ((101 - 1) * (113 - 1)) = 1 mod ((101 - 1) * (113 - 1)).
Proof.
  apply (proj2 (X4_makeSmallRSA 101 113 17 ltac:(lia) ltac:(lia) ltac:(lia))).
  reflexivity.
Defined.

(** ** Encryption and decryption of rsa_attack.js *)

Lemma alphabet_codes (ch : Z) :
  RsaAttack.inAlphabet ch = true ->
  exists m, map_get Z.eqb RsaAttack.CHAR2INT ch = Some m /\ 0 <= m < 27 /\
            map_get Z.eqb RsaAttack.INT2CHAR m = Some ch.
Proof.
  unfold RsaAttack.inAlphabet, map_has.
  destruct (map_get Z.eqb RsaAttack.CHAR2INT ch) as [m|] eqn:E; [|discriminate].
  intros _. exists m. split; [reflexivity|].
  apply map_get_Some_In in E.
  assert (Hall : forallb (fun kv => (0 <=? snd kv) && (snd kv <? 27) &&
                                    match map_get Z.eqb RsaAttack.INT2CHAR (snd kv) with
                                    | Some c => c =? fst kv
                                    | None => false
                                    end) RsaAttack.CHAR2INT = true) by reflexivity.
  rewrite forallb_forall in Hall. specialize (Hall _ E). cbn [fst snd] in Hall.
  apply andb_true_iff in Hall. destruct Hall as [Hr Hc].
  apply andb_true_iff in Hr. destruct Hr as [H0 H1].
  apply Z.leb_le in H0. apply Z.ltb_lt in H1.
  destruct (map_get Z.eqb RsaAttack.INT2CHAR m) as [c|]; [|discriminate].
  apply Z.eqb_eq in Hc. subst c. repeat split; assumption.
Qed.

Lemma encrypt_decrypt_text (p q e d : Z) (text : jsstring) :
  Z.prime p -> Z.prime q -> p <> q -> 27 <= p * q -> 0 <= e -> 0 <= d ->
  (e * d) mod ((p - 1) * (q - 1)) = 1 mod ((p - 1) * (q - 1)) ->
  Forall (fun ch => RsaAttack.inAlphabet ch = true) text ->
  exists cipherNums,
    RsaAttack.encryptTextRSA text (RsaAttack.mkKey (p * q) e d) = inr cipherNums /\
    List.length cipherNums = List.length text /\
    Forall (fun c => c <> None) cipherNums /\
    RsaAttack.decryptTextRSA cipherNums (RsaAttack.mkKey (p * q) e d) = inr text.
Proof.
  intros Hp Hq Hpq HN He Hd Hed Htext.
  unfold RsaAttack.encryptTextRSA, RsaAttack.decryptTextRSA.
  cbn [RsaAttack.e RsaAttack.d RsaAttack.N].
  induction Htext as [|ch text Hch _ [cipher [Henc [Hlen [Hnn Hdec]]]]].
  - exists []. repeat split. constructor.
  - destruct (alphabet_codes ch Hch) as [m [Hm [Hrange Hback]]].
    exists (Some (m ^ e mod (p * q)) :: cipher).
    cbn [mapM]. rewrite Hm, modPow_spec by lia. cbn [bind ret].
    rewrite Henc. cbn [bind ret]. split; [reflexivity|].
    split; [cbn; rewrite Hlen; reflexivity|].
    split; [constructor; [discriminate | assumption]|].
    pose proof (Z.mod_pos_bound (m ^ e) (p * q) ltac:(lia)) as Hb.
    rewrite modPow_spec by lia. cbn [bind ret].
    rewrite (rsa_roundtrip_num p q e d m) by (try assumption; lia).
    rewrite Hback.
    destruct (mapM _ cipher) as [ex|out] eqn:Hout; [discriminate|].
    cbn [bind ret] in *. inversion Hdec as [Hj]. cbn [join]. reflexivity.
Qed.

(** X5.  Round trip of rsa_attack.js.  With the key that [makeSmallRSA]
    returns for two distinct primes with [p * q >= 27] and an exponent that
    is not negative, [encryptTextRSA] turns a text over the 27-symbol
    alphabet into one number per character, none of them [null], and
    [decryptTextRSA] turns these numbers back into the text. *)
Theorem X5_attack_round_trip (p q e : Z) (rsa : RsaAttack.rsaParams) (text : jsstring) :
  Z.prime p -> Z.prime q -> p <> q -> 27 <= p * q -> 0 <= e ->
  RsaAttack.makeSmallRSA p q e = inr rsa ->
  Forall (fun ch => RsaAttack.inAlphabet ch = true) text ->
  exists cipherNums,
    RsaAttack.encryptTextRSA text (RsaAttack.key rsa) = inr cipherNums /\
    List.length cipherNums = List.length text /\
    Forall (fun c => c <> None) cipherNums /\
    RsaAttack.decryptTextRSA cipherNums (RsaAttack.key rsa) = inr text.
Proof.
  intros Hp Hq Hpq HN He Hrsa Htext.
  pose proof (Z.prime_ge_2 p Hp) as Hp2. pose proof (Z.prime_ge_2 q Hq) as Hq2.
  unfold RsaAttack.makeSmallRSA in Hrsa. cbv zeta in Hrsa. rewrite gcd_value in Hrsa.
  destruct (Z.eqb_spec (Z.gcd e ((p - 1) * (q - 1))) 1) as [Hg|Hg];
    cbn [negb] in Hrsa; [|discriminate].
  destruct (modInv_ok e ((p - 1) * (q - 1)) He ltac:(nia) Hg) as [d [Hd [Hrange Hed]]].
  rewrite Hd in Hrsa. cbn [bind ret] in Hrsa. inversion Hrsa as [Hr]. cbn [RsaAttack.key].
  apply encrypt_decrypt_text; try assumption. lia.
Qed.

Lemma X5_attack_round_trip_witness :
  exists rsa cipherNums,
    RsaAttack.makeSmallRSA 101 113 17 = inr rsa /\
    RsaAttack.encryptTextRSA (str "IT WAS") (RsaAttack.key rsa) = inr cipherNums /\
    RsaAttack.decryptTextRSA cipherNums (RsaAttack.key rsa) = inr (str "IT WAS").
Proof.
  destruct (RsaAttack.makeSmallRSA 101 113 17) as [ex|rsa] eqn:Hrsa;
    [vm_compute in Hrsa; discriminate|].
  destruct (X5_attack_round_trip 101 113 17 rsa (str "IT WAS")
              (primeb_spec 101 eq_refl) (primeb_spec 113 eq_refl)
              ltac:(lia) ltac:(lia) ltac:(lia) Hrsa)
    as [cipherNums [Henc [_ [_ Hdec]]]].
  - repeat constructor.
  - exists rsa, cipherNums. split; [reflexivity|]. split; assumption.
Defined.

(** ** [normalizeText] of rsa_attack.js *)

Lemma inAlphabet_cases (c : Z) :
  RsaAttack.inAlphabet c = true <-> (65 <= c <= 90 \/ c = 32).
Proof.
  split.
  - unfold RsaAttack.inAlphabet, map_has.
    destruct (map_get Z.eqb RsaAttack.CHAR2INT c) as [m|] eqn:E; [|discriminate].
    intros _. apply map_get_Some_In in E.
    assert (Hall : forallb (fun kv => ((65 <=? fst kv) && (fst kv <=? 90)) || (fst kv =? 32))
                           RsaAttack.CHAR2INT = true) by reflexivity.
    rewrite forallb_forall in Hall. specialize (Hall _ E). cbn [fst] in Hall.
    apply orb_true_iff in Hall. destruct Hall as [H|H].
    + apply andb_true_iff in H. destruct H as [H0 H1].
      apply Z.leb_le in H0. apply Z.leb_le in H1. left. lia.
    + apply Z.eqb_eq in H. right. assumption.
  - intros H.
    assert (Hall : forallb RsaAttack.inAlphabet RsaAttack.ALPHABET = true) by reflexivity.
    rewrite forallb_forall in Hall. apply Hall.
    unfold RsaAttack.ALPHABET. apply in_or_app. destruct H as [H| ->].
    + left. apply in_map_iff. exists (c - 65). split.
      * unfold fromCharCode. rewrite Z.mod_small by lia. lia.
      * apply keys_In. lia.
    + right. left. reflexivity.
Qed.

Lemma isWhiteSpace_alphabet (c : Z) :
  RsaAttack.inAlphabet c = true -> isWhiteSpace c = (c =? 32).
Proof.
  intros H. apply inAlphabet_cases in H. destruct H as [H| ->]; [|reflexivity].
  unfold isWhiteSpace. cbn [existsb].
  repeat match goal with
         | |- context [Z.eqb c ?k] => destruct (Z.eqb_spec c k); [lia|]
         end.
  destruct (Z.leb_spec 8192 c); [lia|]. reflexivity.
Qed.

Lemma noDoubleSpace_snoc (s : jsstring) (c : Z) :
  Spec.noDoubleSpace (s ++ [c])
  = Spec.noDoubleSpace s && negb ((last s 0 =? 32) && (c =? 32)).
Proof.
  induction s as [|a s IH]; [reflexivity|].
  destruct s as [|b s].
  - cbn. rewrite andb_true_r. reflexivity.
  - change ((a :: b :: s) ++ [c]) with (a :: (b :: s) ++ [c]).
    change (Spec.noDoubleSpace (a :: (b :: s) ++ [c]))
      with (negb ((a =? 32) && (b =? 32)) && Spec.noDoubleSpace ((b :: s) ++ [c])).
    rewrite IH.
    change (Spec.noDoubleSpace (a :: b :: s))
      with (negb ((a =? 32) && (b =? 32)) && Spec.noDoubleSpace (b :: s)).
    change (last (a :: b :: s) 0) with (last (b :: s) 0).
    rewrite andb_assoc. reflexivity.
Qed.

Lemma noDoubleSpace_app_l (s t : jsstring) :
  Spec.noDoubleSpace (s ++ t) = true -> Spec.noDoubleSpace s = true.
Proof.
  induction s as [|a s IH]; [reflexivity|].
  destruct s as [|b s]; [reflexivity|].
  change ((a :: b :: s) ++ t) with (a :: b :: s ++ t).
  change (Spec.noDoubleSpace (a :: b :: s ++ t))
    with (negb ((a =? 32) && (b =? 32)) && Spec.noDoubleSpace ((b :: s) ++ t)).
  change (Spec.noDoubleSpace (a :: b :: s))
    with (negb ((a =? 32) && (b =? 32)) && Spec.noDoubleSpace (b :: s)).
  rewrite !andb_true_iff. intros [H1 H2]. split; [assumption | apply IH; assumption].
Qed.

Lemma noDoubleSpace_app_r (s t : jsstring) :
  Spec.noDoubleSpace (s ++ t) = true -> Spec.noDoubleSpace t = true.
Proof.
  induction s as [|a s IH]; [trivial|].
  intros H. apply IH. destruct s as [|b s].
  - destruct t as [|c t]; [reflexivity|]. cbn [app] in *.
    change (Spec.noDoubleSpace (a :: c :: t))
      with (negb ((a =? 32) && (c =? 32)) && Spec.noDoubleSpace (c :: t)) in H.
    apply andb_true_iff in H. tauto.
  - change ((a :: b :: s) ++ t) with (a :: b :: s ++ t) in H.
    change (Spec.noDoubleSpace (a :: b :: s ++ t))
      with (negb ((a =? 32) && (b =? 32)) && Spec.noDoubleSpace ((b :: s) ++ t)) in H.
    apply andb_true_iff in H. tauto.
Qed.

Lemma normalizeStep_inv (st : jsstring * bool) (ch : Z) :
  loopInv st -> loopInv (RsaAttack.normalizeStep st ch).
Proof.
  intros [Ha [Hn Hp]]. unfold RsaAttack.normalizeStep.
  destruct (Z.leb_spec 65 ch) as [H0|H0]; destruct (Z.leb_spec ch 90) as [H1|H1];
    cbn [andb].
  - split; [|split]; cbn [fst snd].
    + apply Forall_app. split; [assumption|]. constructor; [|constructor].
      apply inAlphabet_cases. left. lia.
    + rewrite noDoubleSpace_snoc, Hn.
      destruct (Z.eqb_spec ch 32); [lia|]. rewrite andb_false_r. reflexivity.
    + rewrite last_last. destruct (Z.eqb_spec ch 32); [lia | reflexivity].
  - destruct (Z.eqb_spec ch 32); [lia|]. repeat split; assumption.
  - destruct (Z.eqb_spec ch 32) as [->|]; [|repeat split; assumption].
    destruct (snd st) eqn:Eprev; cbn [negb];
      [split; [assumption | split; [assumption | rewrite Eprev; assumption]]|].
    split; [|split]; cbn [fst snd].
    + apply Forall_app. split; [assumption|]. constructor; [reflexivity | constructor].
    + rewrite noDoubleSpace_snoc, Hn, <- Hp. reflexivity.
    + rewrite last_last. reflexivity.
  - lia.
Qed.

Lemma normalizeLoop_inv (s : jsstring) (st : jsstring * bool) :
  loopInv st -> loopInv (fold_left RsaAttack.normalizeStep s st).
Proof.
  revert st. induction s as [|ch s IH]; intros st Hst; [exact Hst|].
  cbn [fold_left]. apply IH, normalizeStep_inv, Hst.
Qed.

Lemma trimStart_suffix (s : jsstring) : exists pre, s = pre ++ trimStart s.
Proof.
  induction s as [|c s [pre IH]]; [exists []; reflexivity|].
  cbn [trimStart]. destruct (isWhiteSpace c).
  - exists (c :: pre). cbn [app]. f_equal. exact IH.
  - exists []. reflexivity.
Qed.

Lemma trimStart_hd (s : jsstring) :
  trimStart s = [] \/ isWhiteSpace (hd 0 (trimStart s)) = false.
Proof.
  induction s as [|c s IH]; [left; reflexivity|].
  cbn [trimStart]. destruct (isWhiteSpace c) eqn:E; [exact IH|].
  right. exact E.
Qed.

Lemma trim_normalized (s : jsstring) :
  Forall (fun c => RsaAttack.inAlphabet c = true) s ->
  Spec.noDoubleSpace s = true ->
  Spec.normalized (trim s).
Proof.
  intros Ha Hn. unfold trim.
  destruct (trimStart_suffix s) as [pre Hpre].
  destruct (trimStart_hd s) as [Hhd|Hhd].
  - rewrite Hhd. cbn. repeat split; try constructor; discriminate.
  - set (t := trimStart s) in *.
    destruct (trimStart_suffix (rev t)) as [pre' Hpre'].
    destruct (trimStart_hd (rev t)) as [Hhd'|Hhd'].
    + rewrite Hhd'. cbn. repeat split; try constructor; discriminate.
    + set (u := trimStart (rev t)) in *.
      assert (Ht : t = rev u ++ rev pre').
      { rewrite <- rev_app_distr, <- Hpre', rev_involutive. reflexivity. }
      assert (Hat : Forall (fun c => RsaAttack.inAlphabet c = true) t).
      { rewrite Hpre in Ha. apply Forall_app in Ha. tauto. }
      assert (Hnt : Spec.noDoubleSpace t = true).
      { rewrite Hpre in Hn. apply noDoubleSpace_app_r in Hn. assumption. }
      rewrite Ht in Hat, Hnt. apply Forall_app in Hat.
      apply noDoubleSpace_app_l in Hnt.
      split; [tauto|]. split; [assumption|]. split.
      * destruct (rev u) as [|c r] eqn:Er; [cbn; discriminate|].
        rewrite Ht in Hhd. cbn [app hd] in *. intros ->. discriminate.
      * destruct u as [|c u']; [cbn; discriminate|].
        cbn [rev]. rewrite last_last. cbn [hd] in Hhd'. intros ->. discriminate.
Qed.

Lemma normalizeText_normalized (toUpperCase : jsstring -> jsstring) (s : jsstring) :
  Spec.normalized (RsaAttack.normalizeText toUpperCase s).
Proof.
  unfold RsaAttack.normalizeText.
  destruct (normalizeLoop_inv (toUpperCase s) ([], false)) as [Ha [Hn _]].
  - repeat split. constructor.
  - apply trim_normalized; assumption.
Qed.

(** X6.  Whatever the input string and whatever [toUpperCase] returns for
    it, the result of [normalizeText] holds only symbols of the 27-symbol
    alphabet, has no two spaces in a row, and neither starts nor ends with
    a space. *)
Theorem X6_normalizeText_normalized (toUpperCase : jsstring -> jsstring) (s : jsstring) :
  Spec.normalized (RsaAttack.normalizeText toUpperCase s).
Proof. apply normalizeText_normalized. Qed.

(** ** Normalised texts are fixed points *)

Lemma normalizeLoop_fixed (s : jsstring) :
  forall out,
    Forall (fun c => RsaAttack.inAlphabet c = true) s ->
    Spec.noDoubleSpace (out ++ s) = true ->
    fold_left RsaAttack.normalizeStep s (out, last out 0 =? 32)
    = (out ++ s, last (out ++ s) 0 =? 32).
Proof.
  induction s as [|ch s IH]; intros out Ha Hn.
  - rewrite app_nil_r. reflexivity.
  - inversion Ha as [|? ? Hch Ha']. subst.
    assert (Happ : out ++ ch :: s = (out ++ [ch]) ++ s)
      by (rewrite <- app_assoc; reflexivity).
    rewrite Happ in *.
    pose proof (noDoubleSpace_app_l _ _ Hn) as Hn1.
    rewrite noDoubleSpace_snoc in Hn1. apply andb_true_iff in Hn1.
    destruct Hn1 as [_ Hpair].
    cbn [fold_left]. unfold RsaAttack.normalizeStep at 2. cbn [fst snd].
    apply inAlphabet_cases in Hch. destruct Hch as [Hch| ->].
    + destruct (Z.leb_spec 65 ch); [|lia]. destruct (Z.leb_spec ch 90); [|lia].
      cbn [andb].
      replace false with (last (out ++ [ch]) 0 =? 32).
      * apply IH; assumption.
      * rewrite last_last. destruct (Z.eqb_spec ch 32); [lia | reflexivity].
    + cbn [Z.leb Z.compare Pos.compare Pos.compare_cont andb Z.eqb Pos.eqb].
      rewrite andb_true_r in Hpair. rewrite <- (negb_involutive (last out 0 =? 32)).
      rewrite Hpair. cbn [negb].
      replace true with (last (out ++ [32]) 0 =? 32) at 1.
      * apply IH; assumption.
      * rewrite last_last. reflexivity.
Qed.

Lemma trimStart_fixed (s : jsstring) :
  Forall (fun c => RsaAttack.inAlphabet c = true) s -> hd 0 s <> 32 -> trimStart s = s.
Proof.
  intros Ha Hhd. destruct s as [|c s]; [reflexivity|].
  inversion Ha as [|? ? Hc _]. subst. cbn [trimStart hd] in *.
  rewrite (isWhiteSpace_alphabet c Hc).
  destruct (Z.eqb_spec c 32); [contradiction | reflexivity].
Qed.

Lemma hd_rev_last (s : jsstring) : hd 0 (rev s) = last s 0.
Proof.
  induction s as [|a s IH] using rev_ind; [reflexivity|].
  rewrite rev_app_distr, last_last. reflexivity.
Qed.

Lemma normalizeText_fixed (toUpperCase : jsstring -> jsstring) (s : jsstring) :
  Spec.normalized s -> toUpperCase s = s ->
  RsaAttack.normalizeText toUpperCase s = s.
Proof.
  intros [Ha [Hn [Hhd Hlast]]] Hup. unfold RsaAttack.normalizeText. rewrite Hup.
  change false with (last (@nil Z) 0 =? 32).
  rewrite normalizeLoop_fixed by assumption. cbn [fst app].
  unfold trim. rewrite (trimStart_fixed s) by assumption.
  rewrite trimStart_fixed.
  - apply rev_involutive.
  - apply Forall_rev. assumption.
  - rewrite hd_rev_last. assumption.
Qed.

(** X7.  A text that is already normalised, and that [toUpperCase]
    leaves as it is, is returned unchanged by [normalizeText]; so is the
    result of [normalizeText] when it is normalised again, if
    [toUpperCase] leaves it as it is. *)
Theorem X7_normalizeText_fixed (toUpperCase : jsstring -> jsstring) (s : jsstring) :
  (Spec.normalized s -> toUpperCase s = s ->
   RsaAttack.normalizeText toUpperCase s = s) /\
  (toUpperCase (RsaAttack.normalizeText toUpperCase s)
   = RsaAttack.normalizeText toUpperCase s ->
   RsaAttack.normalizeText toUpperCase (RsaAttack.normalizeText toUpperCase s)
   = RsaAttack.normalizeText toUpperCase s).
Proof.
  split.
  - apply normalizeText_fixed.
  - apply normalizeText_fixed, normalizeText_normalized.
Qed.

Lemma X7_normalizeText_fixed_witness :
  RsaAttack.normalizeText Spec.asciiUpperCase (str "IT WAS") = str "IT WAS".
Proof.
  apply (proj1 (X7_normalizeText_fixed Spec.asciiUpperCase (str "IT WAS"))).
  - split; [repeat constructor|]. split; [reflexivity|]. split; discriminate.
  - reflexivity.
Defined.

(** X8.  The key check of [main]: for every input string, the text that
    [main] normalises, encrypts with the key [makeSmallRSA(101n, 113n, 17n)]
    and decrypts with the same key comes back unchanged, and the ciphertext
    has one number per character of the normalised text. *)
Theorem X8_main_decrypts_plaintext (toUpperCase : jsstring -> jsstring) (input : jsstring) :
  let plaintext := RsaAttack.normalizeText toUpperCase input in
  exists rsa cipherNums,
    RsaAttack.makeSmallRSA 101 113 17 = inr rsa /\
    RsaAttack.encryptTextRSA plaintext (RsaAttack.key rsa) = inr cipherNums /\
    List.length cipherNums = List.length plaintext /\
    RsaAttack.decryptTextRSA cipherNums (RsaAttack.key rsa) = inr plaintext.
Proof.
  intros plaintext.
  exists (RsaAttack.mkParams 101 113 (RsaAttack.mkKey (101 * 113) 17 3953) 11200).
  cbn [RsaAttack.key].
  destruct (encrypt_decrypt_text 101 113 17 3953 plaintext
              (primeb_spec 101 eq_refl) (primeb_spec 113 eq_refl))
    as [cipherNums [Henc [Hlen [_ Hdec]]]]; try lia.
  - reflexivity.
  - apply normalizeText_normalized.
  - exists cipherNums. split; [vm_compute; reflexivity|]. repeat split; assumption.
Qed.

(** ** The counting loops of rsa_attack.js *)

Lemma countsFromArray_present (arr : RsaAttack.cipherArray) :
  RsaAttack.countsFromArray arr = countAll (present arr).
Proof.
  unfold RsaAttack.countsFromArray, countAll. generalize (@nil (Z * Z)).
  induction arr as [|[c|] arr IH]; intros cnt; [reflexivity | |]; cbn [present flat_map app];
    rewrite !fold_left_step; apply IH.
Qed.

Lemma countsObjectFromString_filter (s : jsstring) :
  RsaAttack.countsObjectFromString s = countAll (filter RsaAttack.inAlphabet s).
Proof.
  unfold RsaAttack.countsObjectFromString, countAll. generalize (@nil (Z * Z)).
  induction s as [|ch s IH]; intros cnt; [reflexivity|].
  rewrite fold_left_step. cbn [filter].
  destruct (RsaAttack.inAlphabet ch); [rewrite fold_left_step|]; apply IH.
Qed.

Lemma map_set_keys {V : Type} (m : list (Z * V)) (k : Z) (v : V) :
  List.map fst (map_set Z.eqb m k v) = set_add k (List.map fst m).
Proof.
  induction m as [|[k' v'] m IH]; cbn; [reflexivity|].
  destruct (Z.eqb_spec k k') as [->|Hne]; cbn; [reflexivity|].
  rewrite IH. reflexivity.
Qed.

Lemma sumZ_set (m : list (Z * Z)) (k : Z) (v : Z) :
  sumZ (List.map snd (map_set Z.eqb m k v))
  = sumZ (List.map snd m) - Spec.countIn m k + v.
Proof.
  unfold Spec.countIn. induction m as [|[k' v'] m IH]; cbn; [lia|].
  destruct (Z.eqb_spec k k') as [->|Hne]; cbn; [lia|]. rewrite IH. lia.
Qed.

Lemma countIn_set_same (m : list (Z * Z)) (k v : Z) :
  Spec.countIn (map_set Z.eqb m k v) k = v.
Proof. unfold Spec.countIn. rewrite map_get_set_same. reflexivity. Qed.

Lemma countIn_set_other (m : list (Z * Z)) (k k' v : Z) :
  k' <> k -> Spec.countIn (map_set Z.eqb m k v) k' = Spec.countIn m k'.
Proof. intros H. unfold Spec.countIn. rewrite map_get_set_other by assumption. reflexivity. Qed.

Lemma occurrences_snoc (L ch : Z) (t : jsstring) :
  Spec.occurrences L (t ++ [ch]) = Spec.occurrences L t + (if L =? ch then 1 else 0).
Proof.
  unfold Spec.occurrences. rewrite count_occ_app. cbn [count_occ].
  destruct (Z.eq_dec ch L) as [->|Hne].
  - rewrite Z.eqb_refl. lia.
  - destruct (Z.eqb_spec L ch); [congruence | lia].
Qed.

Lemma countAll_snoc (l : list Z) (k : Z) :
  countAll (l ++ [k])
  = map_set Z.eqb (countAll l) k (Spec.countIn (countAll l) k + 1).
Proof. unfold countAll. rewrite fold_left_app. reflexivity. Qed.

Lemma countAll_spec (l : list Z) :
  List.map fst (countAll l) = set_from l /\
  (forall k, Spec.countIn (countAll l) k = Spec.occurrences k l) /\
  sumZ (List.map snd (countAll l)) = Z.of_nat (List.length l).
Proof.
  induction l as [|x l [Hkeys [Hcnt Hsum]]] using rev_ind.
  - repeat split.
  - rewrite countAll_snoc. split; [|split].
    + rewrite map_set_keys, Hkeys. unfold set_from. rewrite fold_left_app. reflexivity.
    + intros k. rewrite occurrences_snoc. destruct (Z.eqb_spec k x) as [->|Hne].
      * rewrite countIn_set_same, Hcnt. reflexivity.
      * rewrite countIn_set_other, Hcnt by assumption. lia.
    + rewrite sumZ_set, Hsum, length_app. cbn [List.length]. lia.
Qed.

(** X9.  [countsFromArray] skips the [null] elements of the array.  The
    keys of the [Map] it returns are the distinct numbers of the array, in
    the order of their first occurrence; the value of a key is the number of
    its occurrences, a number that does not occur has no entry, and the
    values add up to the number of elements that are not [null]. *)
Theorem X9_countsFromArray (arr : RsaAttack.cipherArray) :
  let cnt := RsaAttack.countsFromArray arr in
  List.map fst cnt = set_from (present arr) /\
  NoDup (List.map fst cnt) /\
  (forall k, In (Some k) arr ->
             map_get Z.eqb cnt k = Some (Spec.occurrences k (present arr)) /\
             1 <= Spec.occurrences k (present arr)) /\
  (forall k, ~ In (Some k) arr -> map_get Z.eqb cnt k = None) /\
  sumZ (List.map snd cnt) = Z.of_nat (List.length (present arr)).
Proof.
  cbv zeta. rewrite countsFromArray_present.
  destruct (countAll_spec (present arr)) as [Hkeys [Hcnt Hsum]].
  assert (Hin : forall k, In k (present arr) <-> In (Some k) arr).
  { intros k. unfold present. rewrite in_flat_map. split.
    - intros [[c|] [Hx Hk]]; [|destruct Hk].
      destruct Hk as [->|[]]. assumption.
    - intros H. exists (Some k). split; [assumption | left; reflexivity]. }
  split; [assumption|]. split; [rewrite Hkeys; apply set_from_NoDup|].
  split; [|split; [|assumption]].
  - intros k Hk. apply Hin in Hk.
    assert (Hkey : In k (List.map fst (countAll (present arr))))
      by (rewrite Hkeys; apply set_from_In; assumption).
    specialize (Hcnt k). unfold Spec.countIn in Hcnt.
    destruct (map_get Z.eqb (countAll (present arr)) k) as [c|] eqn:E.
    + subst c. split; [reflexivity|].
      unfold Spec.occurrences.
      pose proof (proj1 (count_occ_In Z.eq_dec (present arr) k) Hk). lia.
    + apply map_get_None_notin in E. contradiction.
  - intros k Hk. apply map_get_None_notin. rewrite Hkeys, set_from_In, Hin. assumption.
Qed.

(** X10.  [countsObjectFromString], which is also the loop that builds
    [plainCounts] in [main], skips the characters that are not in the
    27-symbol alphabet.  The keys of the object it returns are the distinct
    alphabet symbols of the string, in the order of their first occurrence;
    the value of a key is the number of its occurrences, and the values add
    up to the number of alphabet symbols in the string. *)
Theorem X10_countsObjectFromString (s : jsstring) :
  let cnt := RsaAttack.countsObjectFromString s in
  List.map fst cnt = set_from (filter RsaAttack.inAlphabet s) /\
  NoDup (List.map fst cnt) /\
  incl (List.map fst cnt) RsaAttack.ALPHABET /\
  (forall ch, RsaAttack.inAlphabet ch = true ->
              Spec.countIn cnt ch = Spec.occurrences ch s) /\
  (forall ch, map_get Z.eqb cnt ch = None <->
              ~ (In ch s /\ RsaAttack.inAlphabet ch = true)) /\
  sumZ (List.map snd cnt)
  = Z.of_nat (List.length (filter RsaAttack.inAlphabet s)).
Proof.
  cbv zeta. rewrite countsObjectFromString_filter.
  destruct (countAll_spec (filter RsaAttack.inAlphabet s)) as [Hkeys [Hcnt Hsum]].
  split; [assumption|]. split; [rewrite Hkeys; apply set_from_NoDup|].
  split; [|split; [|split; [|assumption]]].
  - intros ch Hch. rewrite Hkeys, set_from_In, filter_In in Hch. destruct Hch as [_ Hch].
    unfold RsaAttack.inAlphabet, map_has in Hch.
    destruct (map_get Z.eqb RsaAttack.CHAR2INT ch) as [i|] eqn:E; [|discriminate].
    apply map_get_Some_In in E.
    assert (Hall : forallb (fun kv => existsb (Z.eqb (fst kv)) RsaAttack.ALPHABET)
                           RsaAttack.CHAR2INT = true) by reflexivity.
    rewrite forallb_forall in Hall. apply existsb_In. exact (Hall _ E).
  - intros ch Hch. rewrite Hcnt. unfold Spec.occurrences. f_equal.
    clear Hkeys Hcnt Hsum. induction s as [|c s IH]; [reflexivity|].
    cbn [filter count_occ]. destruct (Z.eq_dec c ch) as [->|Hne].
    + rewrite Hch. cbn [count_occ]. destruct (Z.eq_dec ch ch); [|contradiction].
      rewrite IH. reflexivity.
    + destruct (RsaAttack.inAlphabet c); [cbn [count_occ]|]; try exact IH.
      destruct (Z.eq_dec c ch); [contradiction | exact IH].
  - intros ch. rewrite map_get_None_notin, Hkeys, set_from_In, filter_In. reflexivity.
Qed.

(** ** [freqMapping] returns a bijection *)

Lemma padFold_eq (al : list Z) :
  forall pl,
    NoDup al ->
    fold_left (fun pl c => if existsb (Z.eqb c) pl then pl else pl ++ [c]) al pl
    = pl ++ filter (fun c => negb (existsb (Z.eqb c) pl)) al.
Proof.
  induction al as [|c al IH]; intros pl Hnd.
  - cbn. rewrite app_nil_r. reflexivity.
  - inversion Hnd as [|? ? Hnotin Hnd']. subst.
    rewrite fold_left_step. cbn [filter].
    destruct (existsb (Z.eqb c) pl) eqn:E; cbn [negb].
    + apply IH. assumption.
    + rewrite IH by assumption. rewrite <- app_assoc. cbn [app]. do 2 f_equal.
      apply filter_ext_in. intros a Ha. rewrite existsb_app. cbn [existsb].
      destruct (Z.eqb_spec a c) as [->|Hne]; [contradiction|].
      rewrite !orb_false_r. reflexivity.
Qed.

Lemma existsb_eqb_In (x : Z) (l : list Z) : existsb (Z.eqb x) l = true <-> In x l.
Proof.
  split; [apply existsb_In|]. intros H. apply existsb_exists. exists x.
  split; [assumption | apply Z.eqb_refl].
Qed.

Lemma padPlainList_Permutation (pl : list Z) :
  NoDup pl -> incl pl RsaAttack.ALPHABET ->
  Permutation (RsaAttack.padPlainList pl) RsaAttack.ALPHABET.
Proof.
  intros Hnd Hincl. unfold RsaAttack.padPlainList.
  pose proof ALPHABET_NoDup as Hal.
  rewrite (padFold_eq RsaAttack.ALPHABET pl Hal).
  revert Hincl Hal. generalize RsaAttack.ALPHABET. intros al Hincl Hal.
  apply NoDup_Permutation; [|assumption|].
  - apply NoDup_app; [assumption | apply NoDup_filter; assumption|].
    intros a Ha Hf. apply filter_In in Hf. destruct Hf as [_ Hf].
    apply negb_true_iff in Hf. apply existsb_eqb_In in Ha. congruence.
  - intros a. rewrite in_app_iff, filter_In. split.
    + intros [H|[H _]]; [apply Hincl|]; assumption.
    + intros H. destruct (existsb (Z.eqb a) pl) eqn:E.
      * left. apply existsb_eqb_In. assumption.
      * right. split; [assumption | reflexivity].
Qed.

Lemma rankedPlain_Permutation (plainCounts : list (Z * Z)) :
  NoDup (List.map fst plainCounts) -> incl (List.map fst plainCounts) RsaAttack.ALPHABET ->
  Permutation (rankedPlain plainCounts) RsaAttack.ALPHABET.
Proof.
  intros Hnd Hincl. unfold rankedPlain.
  assert (Hperm : Permutation (List.map fst (sort RsaAttack.byCountDesc plainCounts))
                              (List.map fst plainCounts))
    by (apply Permutation_map, sort_Permutation).
  apply padPlainList_Permutation.
  - apply (Permutation_NoDup (Permutation_sym Hperm)). assumption.
  - intros a Ha. apply Hincl. apply (Permutation_in a Hperm). assumption.
Qed.

Lemma pair_ranks {A : Type} (f : A -> Z) (xs : list A) :
  forall (l pre : list Z),
    List.length xs = List.length l ->
    List.map (fun ia : nat * A => (f (snd ia), nth_error (pre ++ l) (fst ia)))
             (combine (seq (List.length pre) (List.length xs)) xs)
    = combine (List.map f xs) (List.map Some l).
Proof.
  induction xs as [|x xs IH]; intros [|y l] pre Hlen; cbn in Hlen; try lia;
    [reflexivity|].
  cbn [List.length seq combine List.map fst snd]. f_equal.
  - rewrite nth_error_app2 by lia. rewrite Nat.sub_diag. reflexivity.
  - specialize (IH l (pre ++ [y]) ltac:(lia)).
    rewrite length_app, Nat.add_1_r, <- app_assoc in IH. exact IH.
Qed.

Lemma padFold_present (syms : list Z) (m : RsaAttack.mapping) (remaining : list Z) :
  (forall s, In s syms -> In s (List.map fst m)) ->
  fold_left RsaAttack.padStep syms (m, remaining) = (m, remaining).
Proof.
  induction syms as [|s syms IH]; intros Hall; [reflexivity|].
  rewrite fold_left_step. unfold RsaAttack.padStep at 2.
  rewrite (proj2 (map_has_In m s)) by (apply Hall; left; reflexivity).
  apply IH. intros s' Hs'. apply Hall. right. assumption.
Qed.

Lemma freqMapping_bijection (cipherNums : RsaAttack.cipherArray)
      (plainCounts : list (Z * Z)) (rsaPub : RsaAttack.rsaKey) (expected : list Z) :
  RsaAttack.expectedSymbols rsaPub = inr expected ->
  NoDup expected ->
  NoDup (List.map fst plainCounts) ->
  incl (List.map fst plainCounts) RsaAttack.ALPHABET ->
  exists m,
    RsaAttack.freqMapping cipherNums plainCounts rsaPub = inr m /\
    List.map fst m = List.map fst (rankedCipher cipherNums expected) /\
    List.map snd m = List.map Some (rankedPlain plainCounts) /\
    Spec.partialInjection expected m /\
    RsaAttack.padMapping m expected = m /\
    Spec.bijection expected m.
Proof.
  intros Hexp Hnd Hkeys Hincl.
  assert (Hlen : List.length expected = 27%nat).
  { unfold RsaAttack.expectedSymbols in Hexp. apply mapM_length in Hexp.
    rewrite Hexp, keys_length. apply ALPHABET_length. }
  pose proof (rankedPlain_Permutation plainCounts Hkeys Hincl) as HP.
  pose proof (rankedCipher_symbols cipherNums expected) as HC.
  pose proof (freqMapping_pairs cipherNums plainCounts rsaPub expected Hexp Hnd) as Hpairs.
  revert HP HC Hpairs.
  generalize (rankedPlain plainCounts) (rankedCipher cipherNums expected).
  intros RP RC HP HC Hpairs.
  assert (HlenC : List.length RC = List.length expected).
  { rewrite <- (length_map fst). apply (Permutation_length HC). }
  assert (HlenP : List.length RP = List.length expected).
  { rewrite (Permutation_length HP), Hlen. apply ALPHABET_length. }
  rewrite <- HlenC in Hpairs.
  pose proof (pair_ranks fst RC RP [] ltac:(congruence)) as Hpr.
  change ([] ++ RP) with RP in Hpr.
  change (List.length (@nil Z)) with 0%nat in Hpr.
  rewrite Hpr in Hpairs. clear Hpr.
  remember (combine (List.map fst RC) (List.map Some RP)) as m eqn:Em.
  assert (Hmk : List.map fst m = List.map fst RC).
  { rewrite Em. apply combine_keys. rewrite !length_map. congruence. }
  assert (Hmv : List.map snd m = List.map Some RP).
  { rewrite Em. apply combine_values. rewrite !length_map. congruence. }
  clear Em.
  assert (Hinj : Spec.partialInjection expected m).
  { split; [|split].
    - rewrite Hmk. apply (Permutation_NoDup (Permutation_sym HC)). exact Hnd.
    - rewrite Hmk. intros a Ha. apply (Permutation_in a HC). exact Ha.
    - exists RP. split; [exact Hmv|]. split.
      + apply (Permutation_NoDup (Permutation_sym HP)), ALPHABET_NoDup.
      + intros a Ha. apply (Permutation_in a HP). exact Ha. }
  assert (Hpad : RsaAttack.padMapping m expected = m).
  { unfold RsaAttack.padMapping. rewrite padFold_present; [reflexivity|].
    intros s Hs. rewrite Hmk. apply (Permutation_in s (Permutation_sym HC)). exact Hs. }
  exists m. split; [exact Hpairs|]. split; [exact Hmk|]. split; [exact Hmv|].
  split; [exact Hinj|]. split; [exact Hpad|].
  rewrite <- Hpad. apply padMapping_bijection; [exact Hnd | exact Hlen | exact Hinj].
Qed.

(** X11.  When the 27 expected cipher symbols are pairwise distinct and
    the keys of [plainCounts] are distinct symbols of the alphabet,
    [freqMapping] returns a [Map] with exactly the expected symbols as keys
    that is a bijection onto the 27 letters: the padding of [plainList]
    supplies every letter that [plainCounts] lacks.  The seed padding of
    [hillClimb] then finds nothing to add and leaves this [Map] as it
    is. *)
Theorem X11_freqMapping_bijection (cipherNums : RsaAttack.cipherArray)
        (plainCounts : list (Z * Z)) (rsaPub : RsaAttack.rsaKey) (expected : list Z) :
  RsaAttack.expectedSymbols rsaPub = inr expected ->
  NoDup expected ->
  NoDup (List.map fst plainCounts) ->
  incl (List.map fst plainCounts) RsaAttack.ALPHABET ->
  exists m,
    RsaAttack.freqMapping cipherNums plainCounts rsaPub = inr m /\
    Permutation (List.map fst m) expected /\
    Spec.bijection expected m /\
    RsaAttack.padMapping m expected = m.
Proof.
  intros Hexp Hnd Hkeys Hincl.
  destruct (freqMapping_bijection cipherNums plainCounts rsaPub expected
              Hexp Hnd Hkeys Hincl) as [m [Hm [Hmk [_ [_ [Hpad Hbij]]]]]].
  exists m. split; [assumption|]. split; [|split; assumption].
  rewrite Hmk. apply rankedCipher_symbols.
Qed.

Lemma X11_freqMapping_bijection_witness :
  exists expected m,
    RsaAttack.freqMapping [Some 1; Some 0] [(66, 1); (65, 1)]
                          (RsaAttack.mkKey 11413 17 3953) = inr m /\
    Spec.bijection expected m.
Proof.
  destruct (RsaAttack.expectedSymbols (RsaAttack.mkKey 11413 17 3953))
    as [ex|expected] eqn:Hexp; [vm_compute in Hexp; discriminate|].
  assert (Hnd : NoDup expected).
  { apply distinctb_spec. vm_compute in Hexp. inversion Hexp. reflexivity. }
  destruct (X11_freqMapping_bijection [Some 1; Some 0] [(66, 1); (65, 1)]
              (RsaAttack.mkKey 11413 17 3953) expected Hexp Hnd)
    as [m [Hm [_ [Hbij _]]]].
  - apply distinctb_spec. reflexivity.
  - intros a Ha. apply existsb_In.
    destruct Ha as [<-|[<-|[]]]; reflexivity.
  - exists expected, m. split; assumption.
Defined.

(** ** [accuracy] *)

Lemma accuracyStep_bounds (st dt : Z * Z) :
  0 <= snd (RsaAttack.accuracyStep st dt) - snd st
  <= fst (RsaAttack.accuracyStep st dt) - fst st /\
  fst (RsaAttack.accuracyStep st dt) - fst st <= 1.
Proof.
  unfold RsaAttack.accuracyStep. destruct (RsaAttack.inAlphabet (snd dt)); [|lia].
  cbn [fst snd]. destruct (fst dt =? snd dt); lia.
Qed.

Lemma accuracy_loop (l : list (Z * Z)) :
  forall st,
    0 <= snd (fold_left RsaAttack.accuracyStep l st) - snd st
    <= fst (fold_left RsaAttack.accuracyStep l st) - fst st /\
    fst (fold_left RsaAttack.accuracyStep l st) - fst st <= Z.of_nat (List.length l).
Proof.
  induction l as [|dt l IH]; intros st.
  - cbn. lia.
  - rewrite fold_left_step.
    specialize (IH (RsaAttack.accuracyStep st dt)).
    pose proof (accuracyStep_bounds st dt) as Hs.
    cbn [List.length]. lia.
Qed.

Lemma accuracy_same (t : jsstring) :
  forall st,
    fold_left RsaAttack.accuracyStep (combine t t) st
    = (fst st + Z.of_nat (List.length (filter RsaAttack.inAlphabet t)),
       snd st + Z.of_nat (List.length (filter RsaAttack.inAlphabet t))).
Proof.
  induction t as [|c t IH]; intros [tot corr].
  - cbn. f_equal; lia.
  - cbn [combine]. rewrite fold_left_step, IH. unfold RsaAttack.accuracyStep.
    cbn [fst snd filter]. destruct (RsaAttack.inAlphabet c).
    + rewrite Z.eqb_refl. cbn [fst snd List.length]. f_equal; lia.
    + cbn [fst snd]. reflexivity.
Qed.

(** X12.  [accuracy] compares the two strings up to the shorter length
    and looks only at the positions where the plaintext has a symbol of the
    alphabet: [0 <= corr <= tot <= min(decoded.length, plaintext.length)],
    the ratio [acc] is between 0 and 1, and it is 0, with no division, when
    [tot] is 0.  A string compared with itself has [corr = tot], the number
    of its alphabet symbols. *)
Theorem X12_accuracy (decoded plaintext : jsstring) :
  let r := RsaAttack.accuracy decoded plaintext in
  let same := RsaAttack.accuracy plaintext plaintext in
  0 <= RsaAttack.corr r <= RsaAttack.tot r /\
  RsaAttack.tot r <= Z.of_nat (Nat.min (List.length decoded) (List.length plaintext)) /\
  (0 <= RsaAttack.acc r <= 1)%Q /\
  (RsaAttack.tot r = 0 -> RsaAttack.acc r = 0%Q) /\
  RsaAttack.corr same = RsaAttack.tot same /\
  RsaAttack.tot same = Z.of_nat (List.length (filter RsaAttack.inAlphabet plaintext)).
Proof.
  cbv zeta. unfold RsaAttack.accuracy.
  cbn [RsaAttack.tot RsaAttack.corr RsaAttack.acc].
  rewrite accuracy_same. cbn [fst snd].
  pose proof (accuracy_loop (combine decoded plaintext) (0, 0)) as H.
  cbn [fst snd] in H. rewrite length_combine in H.
  set (st := fold_left RsaAttack.accuracyStep (combine decoded plaintext) (0, 0)) in *.
  split; [lia|]. split; [lia|]. split; [|split; [|split; reflexivity]].
  - destruct (Z.eqb_spec (fst st) 0) as [E|E].
    + split; [apply Qle_refl | discriminate].
    + assert (Hpos : (0 < inject_Z (fst st))%Q).
      { unfold Qlt, inject_Z. cbn [Qnum Qden]. lia. }
      split.
      * apply Qle_shift_div_l; [assumption|]. rewrite Qmult_0_l.
        unfold Qle, inject_Z. cbn [Qnum Qden]. lia.
      * apply Qle_shift_div_r; [assumption|]. rewrite Qmult_1_l.
        unfold Qle, inject_Z. cbn [Qnum Qden]. lia.
  - intros E. rewrite E. reflexivity.
Qed.

(** ** The two scores that [main] prints *)

(** X13.  Lines 507-517 of [main] of rsa_attack.js, when the expected
    cipher symbols are pairwise distinct and [plainCounts] has distinct
    alphabet symbols as keys, for a [>] that is transitive: [hillClimb]
    starts from the very mapping that [freqMapping] returned, so its first
    score is the score printed as [before], and the score printed as
    [after] is equal or greater.  Both decoded texts have one character per
    element of the ciphertext, and with no iteration they are the same. *)
Theorem X13_attack_improves {num : Type} (zero : num) (add : num -> num -> num)
        (gtb : num -> num -> bool) (cipherNums : RsaAttack.cipherArray)
        (plainCounts : list (Z * Z)) (model : RsaAttack.bigram)
        (rsa : RsaAttack.rsaKey) (expected : list Z) (draws : list (nat * nat)) :
  RsaAttack.expectedSymbols rsa = inr expected ->
  NoDup expected ->
  NoDup (List.map fst plainCounts) ->
  incl (List.map fst plainCounts) RsaAttack.ALPHABET ->
  (forall x y z, gtb y x = true -> gtb z y = true -> gtb z x = true) ->
  exists decodedFreq beforeScore bestScore decodedHill,
    RsaAttack.attack zero add gtb cipherNums plainCounts model rsa draws
    = inr (decodedFreq, beforeScore, bestScore, decodedHill) /\
    Spec.scoreLe gtb beforeScore bestScore /\
    List.length decodedFreq = List.length cipherNums /\
    List.length decodedHill = List.length cipherNums /\
    (draws = [] -> bestScore = beforeScore /\ decodedHill = decodedFreq).
Proof.
  intros Hexp Hnd Hkeys Hincl Htrans.
  destruct (freqMapping_bijection cipherNums plainCounts rsa expected Hexp Hnd Hkeys Hincl)
    as [m [Hm [Hmk [_ [_ [Hpad _]]]]]].
  assert (Hne : expected <> []).
  { unfold RsaAttack.expectedSymbols in Hexp. apply mapM_length in Hexp.
    rewrite keys_length, ALPHABET_length in Hexp. destruct expected; [discriminate | congruence]. }
  assert (Hall : hasAll expected m).
  { intros s Hs. rewrite Hmk.
    apply (Permutation_in s (Permutation_sym (rankedCipher_symbols cipherNums expected))).
    exact Hs. }
  unfold RsaAttack.attack. rewrite Hm. cbn [bind].
  unfold RsaAttack.hillClimb. cbn [nth_error].
  rewrite (hillClimbOn_unfold zero add gtb m cipherNums model rsa expected draws Hexp).
  rewrite Hpad. cbn [bind ret fst snd RsaAttack.store nth].
  set (final := fold_left (RsaAttack.climbStep zero add gtb cipherNums model expected) draws
                          (m, RsaAttack.scoreMapping zero add m cipherNums model)).
  eexists. eexists. eexists. eexists. split; [reflexivity|].
  split; [|split; [|split]].
  - apply (climb_monotone zero add gtb cipherNums model expected Hne Htrans draws m _ Hall).
  - unfold RsaAttack.applyMappingToCipher. apply length_map.
  - unfold RsaAttack.applyMappingToCipher. apply length_map.
  - intros ->. unfold final. cbn [fold_left fst snd]. split; reflexivity.
Qed.

Lemma X13_attack_improves_witness :
  exists decodedFreq beforeScore bestScore decodedHill,
    RsaAttack.attack 0 Z.add Z.gtb [Some 1; Some 0] [(66, 1); (65, 1)]
                     (fun a b => if (a =? 66) && (b =? 65) then 0 else -1)
                     (RsaAttack.mkKey 11413 17 3953) [(0, 1)%nat]
    = inr (decodedFreq, beforeScore, bestScore, decodedHill) /\
    Spec.scoreLe Z.gtb beforeScore bestScore.
Proof.
  destruct (RsaAttack.expectedSymbols (RsaAttack.mkKey 11413 17 3953))
    as [ex|expected] eqn:Hexp; [vm_compute in Hexp; discriminate|].
  assert (Hnd : NoDup expected).
  { apply distinctb_spec. vm_compute in Hexp. inversion Hexp. reflexivity. }
  destruct (X13_attack_improves 0 Z.add Z.gtb [Some 1; Some 0] [(66, 1); (65, 1)]
              (fun a b => if (a =? 66) && (b =? 65) then 0 else -1)
              (RsaAttack.mkKey 11413 17 3953) expected [(0, 1)%nat] Hexp Hnd)
    as [df [bs [best [dh [Hrun [Hle _]]]]]].
  - apply distinctb_spec. reflexivity.
  - intros a Ha. apply existsb_In. destruct Ha as [<-|[<-|[]]]; reflexivity.
  - intros x y z. rewrite !Z.gtb_gt. lia.
  - exists df, bs, best, dh. split; assumption.
Defined.

(** ** The bigram model of rsa_attack.js *)

Lemma pairEqb_spec (x y : Z * Z) : reflect (x = y) (RsaAttack.pairEqb x y).
Proof.
  destruct x as [a b], y as [c d]. unfold RsaAttack.pairEqb. cbn [fst snd].
  destruct (Z.eqb_spec a c) as [->|Hne]; destruct (Z.eqb_spec b d) as [->|Hne'];
    constructor; congruence.
Qed.

Section PairTables.
Context {V : Type}.
Implicit Types (m : list (Z * Z * V)) (k : Z * Z) (v : V).

Lemma pair_get_set_same m k v :
  map_get RsaAttack.pairEqb (map_set RsaAttack.pairEqb m k v) k = Some v.
Proof.
  induction m as [|[k' v'] m IH]; cbn.
  - destruct (pairEqb_spec k k); [reflexivity | congruence].
  - destruct (pairEqb_spec k k') as [->|Hne]; cbn.
    + destruct (pairEqb_spec k' k'); [reflexivity | congruence].
    + destruct (pairEqb_spec k k'); [congruence | exact IH].
Qed.

Lemma pair_get_set_other m k k' v :
  k' <> k ->
  map_get RsaAttack.pairEqb (map_set RsaAttack.pairEqb m k v) k'
  = map_get RsaAttack.pairEqb m k'.
Proof.
  intros Hne. induction m as [|[k0 v0] m IH]; cbn.
  - destruct (pairEqb_spec k' k); [congruence | reflexivity].
  - destruct (pairEqb_spec k k0) as [->|Hk]; cbn.
    + destruct (pairEqb_spec k' k0); [congruence | reflexivity].
    + destruct (pairEqb_spec k' k0); [reflexivity | exact IH].
Qed.

Lemma pair_set_absent m k v :
  ~ In k (List.map fst m) -> map_set RsaAttack.pairEqb m k v = m ++ [(k, v)].
Proof.
  induction m as [|[k' v'] m IH]; cbn; intros Hn; [reflexivity|].
  destruct (pairEqb_spec k k') as [->|Hne]; [tauto|].
  rewrite IH by tauto. reflexivity.
Qed.

Lemma pair_fold_fresh (val : Z * Z -> V) (l : list (Z * Z)) :
  forall acc,
    NoDup (List.map fst acc ++ l) ->
    fold_left (fun acc k => map_set RsaAttack.pairEqb acc k (val k)) l acc
    = acc ++ List.map (fun k => (k, val k)) l.
Proof.
  induction l as [|k l IH]; intros acc Hnd.
  - cbn. rewrite app_nil_r. reflexivity.
  - rewrite fold_left_step, pair_set_absent.
    + rewrite IH.
      * rewrite <- app_assoc. reflexivity.
      * rewrite map_app. cbn [List.map fst]. rewrite <- app_assoc. exact Hnd.
    + apply NoDup_remove_2 in Hnd. intros Hin. apply Hnd.
      apply in_or_app. left. exact Hin.
Qed.

Lemma pair_get_In m k v :
  NoDup (List.map fst m) -> In (k, v) m -> map_get RsaAttack.pairEqb m k = Some v.
Proof.
  induction m as [|[k' v'] m IH]; cbn; [tauto|].
  intros Hnd [E|Hin].
  - inversion E. subst. destruct (pairEqb_spec k k); [reflexivity | congruence].
  - inversion Hnd as [|? ? Hnotin Hnd']. subst.
    destruct (pairEqb_spec k k') as [->|Hne].
    + exfalso. apply Hnotin. change k' with (fst (k', v)). apply in_map. exact Hin.
    + apply IH; assumption.
Qed.
End PairTables.

Lemma NoDup_list_prod {A B : Type} (l : list A) (l' : list B) :
  NoDup l -> NoDup l' -> NoDup (list_prod l l').
Proof.
  intros Hl Hl'. induction Hl as [|a l Hnotin Hl IH]; [constructor|].
  cbn [list_prod]. apply NoDup_app.
  - apply Finite.Injective_map_NoDup; [|exact Hl']. intros x y E. congruence.
  - exact IH.
  - intros [x y] Hin Hin'. apply in_map_iff in Hin. destruct Hin as [y' [E _]].
    inversion E. subst. apply in_prod_iff in Hin'. tauto.
Qed.

(** The first loop counts the bigrams. *)
Lemma countLoop_spec (l : list (Z * Z)) :
  forall st : list (Z * Z * Z) * Z,
    (forall ab,
        pairCountOf
          (fst (fold_left
                  (fun st ab =>
                     if RsaAttack.inAlphabet (fst ab) && RsaAttack.inAlphabet (snd ab)
                     then (map_set RsaAttack.pairEqb (fst st) ab
                             (match map_get RsaAttack.pairEqb (fst st) ab with
                              | Some c => c
                              | None => 0
                              end + 1),
                           snd st + 1)
                     else st) l st)) ab
        = pairCountOf (fst st) ab
          + Z.of_nat (List.length
                        (filter (RsaAttack.pairEqb ab)
                                (filter (fun ab => RsaAttack.inAlphabet (fst ab)
                                                   && RsaAttack.inAlphabet (snd ab)) l)))) /\
    snd (fold_left
           (fun st ab =>
              if RsaAttack.inAlphabet (fst ab) && RsaAttack.inAlphabet (snd ab)
              then (map_set RsaAttack.pairEqb (fst st) ab
                      (match map_get RsaAttack.pairEqb (fst st) ab with
                       | Some c => c
                       | None => 0
                       end + 1),
                    snd st + 1)
              else st) l st)
    = snd st
      + Z.of_nat (List.length
                    (filter (fun ab => RsaAttack.inAlphabet (fst ab)
                                       && RsaAttack.inAlphabet (snd ab)) l)).
Proof.
  induction l as [|x l IH]; intros st.
  - cbn. split; [intros ab|]; lia.
  - rewrite fold_left_step. cbn [filter].
    destruct (RsaAttack.inAlphabet (fst x) && RsaAttack.inAlphabet (snd x)).
    + destruct (IH (map_set RsaAttack.pairEqb (fst st) x
                            (match map_get RsaAttack.pairEqb (fst st) x with
                             | Some c => c
                             | None => 0
                             end + 1), snd st + 1)) as [Hc Ht].
      split.
      * intros ab. rewrite Hc. cbn [fst filter]. unfold pairCountOf.
        destruct (pairEqb_spec ab x) as [->|Hne].
        -- rewrite pair_get_set_same. cbn [List.length]. lia.
        -- rewrite pair_get_set_other by assumption. lia.
      * rewrite Ht. cbn [snd List.length]. lia.
    + apply IH.
Qed.

Lemma countBigrams_spec (text : jsstring) :
  (forall ab, pairCountOf (fst (RsaAttack.countBigrams text)) ab = Spec.bigramCount text ab) /\
  snd (RsaAttack.countBigrams text) = Z.of_nat (List.length (Spec.bigrams text)).
Proof.
  unfold RsaAttack.countBigrams.
  destruct (countLoop_spec (RsaAttack.adjacent text) ([], 0)) as [Hc Ht].
  split; [intros ab; rewrite Hc; reflexivity | rewrite Ht; reflexivity].
Qed.

(** ** The smoothed probabilities add up to 1 *)

Lemma pair_indicator (x : Z * Z) (ks : list (Z * Z)) :
  NoDup ks -> In x ks ->
  sumZ (List.map (fun k => if RsaAttack.pairEqb k x then 1 else 0) ks) = 1.
Proof.
  induction ks as [|k ks IH]; cbn; [tauto|]. intros Hnd Hin.
  inversion Hnd as [|? ? Hnotin Hnd']. subst.
  destruct (pairEqb_spec k x) as [->|Hne].
  - assert (E : sumZ (List.map (fun k => if RsaAttack.pairEqb k x then 1 else 0) ks) = 0).
    { clear IH Hnd Hnd' Hin. induction ks as [|a ks IH]; cbn; [reflexivity|].
      destruct (pairEqb_spec a x) as [->|]; [exfalso; apply Hnotin; left; reflexivity|].
      rewrite IH; [reflexivity|]. intros H. apply Hnotin. right. exact H. }
    lia.
  - rewrite IH; [lia | exact Hnd' | destruct Hin; [congruence | assumption]].
Qed.

Lemma sumZ_plus {K : Type} (f g : K -> Z) (ks : list K) :
  sumZ (List.map (fun k => f k + g k) ks) = sumZ (List.map f ks) + sumZ (List.map g ks).
Proof. induction ks as [|k ks IH]; cbn; lia. Qed.

Lemma sumZ_const {K : Type} (c : Z) (ks : list K) :
  sumZ (List.map (fun _ => c) ks) = c * Z.of_nat (List.length ks).
Proof. induction ks as [|k ks IH]; cbn [List.map sumZ List.length]; lia. Qed.

Lemma pair_counts_total (l ks : list (Z * Z)) :
  NoDup ks -> incl l ks ->
  sumZ (List.map (fun k => Z.of_nat (List.length (filter (RsaAttack.pairEqb k) l))) ks)
  = Z.of_nat (List.length l).
Proof.
  intros Hnd. induction l as [|x l IH]; intros Hincl.
  - cbn [filter List.length]. rewrite sumZ_const. lia.
  - assert (E : forall k,
               Z.of_nat (List.length (filter (RsaAttack.pairEqb k) (x :: l)))
               = (if RsaAttack.pairEqb k x then 1 else 0)
                 + Z.of_nat (List.length (filter (RsaAttack.pairEqb k) l))).
    { intros k. cbn [filter]. destruct (RsaAttack.pairEqb k x); cbn [List.length]; lia. }
    rewrite (map_ext _ _ E), sumZ_plus, IH, pair_indicator.
    + cbn [List.length]. lia.
    + exact Hnd.
    + apply Hincl. left. reflexivity.
    + intros a Ha. apply Hincl. right. exact Ha.
Qed.

Lemma sumQ_ratio {K : Type} (f : K -> Z) (n : Z) (ks : list K) :
  n <> 0 ->
  (Spec.sumQ (List.map (fun k => inject_Z (f k) / inject_Z n) ks)
   == inject_Z (sumZ (List.map f ks)) / inject_Z n)%Q.
Proof.
  intros Hn. assert (Hq : ~ (inject_Z n == 0)%Q).
  { unfold Qeq, inject_Z. cbn. lia. }
  induction ks as [|k ks IH]; cbn [List.map Spec.sumQ fold_right sumZ].
  - unfold Qdiv. cbn. rewrite Qmult_0_l. reflexivity.
  - fold (Spec.sumQ (List.map (fun k => inject_Z (f k) / inject_Z n)%Q ks)).
    rewrite IH. rewrite inject_Z_plus. field. exact Hq.
Qed.

Lemma inAlphabet_In (c : Z) : RsaAttack.inAlphabet c = true -> In c RsaAttack.ALPHABET.
Proof.
  intros Hc. apply inAlphabet_cases in Hc. unfold RsaAttack.ALPHABET.
  apply in_or_app. destruct Hc as [Hc| ->]; [left | right; left; reflexivity].
  apply in_map_iff. exists (c - 65). split.
  - unfold fromCharCode. rewrite Z.mod_small by lia. lia.
  - apply keys_In. lia.
Qed.

Lemma bigrams_in_alphabet (text : jsstring) :
  incl (Spec.bigrams text) (list_prod RsaAttack.ALPHABET RsaAttack.ALPHABET).
Proof.
  intros [a b] H. unfold Spec.bigrams in H. apply filter_In in H.
  destruct H as [_ H]. cbn [fst snd] in H. apply andb_true_iff in H.
  destruct H as [Ha Hb]. apply in_prod_iff. split; apply inAlphabet_In; assumption.
Qed.

Lemma bigrams_in_alphabet_sym (a b : Z) :
  RsaAttack.inAlphabet a = true -> RsaAttack.inAlphabet b = true ->
  In (a, b) (list_prod RsaAttack.ALPHABET RsaAttack.ALPHABET).
Proof.
  intros Ha Hb. apply in_prod_iff. split; apply inAlphabet_In; assumption.
Qed.

Lemma smoothed_total (text : jsstring) :
  (Spec.sumQ (List.map (Spec.smoothed text)
                       (list_prod RsaAttack.ALPHABET RsaAttack.ALPHABET)) == 1)%Q.
Proof.
  pose proof (NoDup_list_prod _ _ ALPHABET_NoDup ALPHABET_NoDup) as Hnd.
  pose proof (bigrams_in_alphabet text) as Hincl.
  assert (Hlen : Z.of_nat (List.length (list_prod RsaAttack.ALPHABET RsaAttack.ALPHABET))
                 = 27 * 27).
  { rewrite length_prod, ALPHABET_length. reflexivity. }
  revert Hnd Hincl Hlen.
  generalize (list_prod RsaAttack.ALPHABET RsaAttack.ALPHABET). intros ks Hnd Hincl Hlen.
  unfold Spec.smoothed.
  set (T := Z.of_nat (List.length (Spec.bigrams text))).
  assert (HT : T + 27 * 27 <> 0) by (unfold T; lia).
  rewrite (sumQ_ratio (fun ab => Spec.bigramCount text ab + 1) (T + 27 * 27) ks HT).
  rewrite (sumZ_plus (Spec.bigramCount text) (fun _ => 1)), sumZ_const.
  unfold Spec.bigramCount. rewrite pair_counts_total by assumption.
  fold T. rewrite Hlen, Z.mul_1_l.
  unfold Qdiv. apply Qmult_inv_r. unfold Qeq, inject_Z. cbn [Qnum Qden]. lia.
Qed.

(** X14.  [buildBigramModelFromText] counts the adjacent pairs of
    alphabet symbols of the text and returns a model with one entry for each
    of the [27 * 27] bigrams, in the order of the two nested loops.  The
    entry of a bigram is [Math.log] of its add-one smoothed probability
    [(count + 1) / (total + 27 * 27)], and these probabilities add up
    to 1. *)
Theorem X14_bigram_model {num : Type} (log : Q -> num) (text : jsstring) :
  let model := RsaAttack.buildBigramModelFromText log text in
  List.map fst model = list_prod RsaAttack.ALPHABET RsaAttack.ALPHABET /\
  List.length model = 729%nat /\
  snd (RsaAttack.countBigrams text) = Z.of_nat (List.length (Spec.bigrams text)) /\
  (forall a b,
      RsaAttack.inAlphabet a = true -> RsaAttack.inAlphabet b = true ->
      map_get RsaAttack.pairEqb model (a, b) = Some (log (Spec.smoothed text (a, b)))) /\
  (Spec.sumQ (List.map (Spec.smoothed text)
                       (list_prod RsaAttack.ALPHABET RsaAttack.ALPHABET)) == 1)%Q.
Proof.
  cbv zeta.
  destruct (countBigrams_spec text) as [Hc Ht].
  pose proof (NoDup_list_prod _ _ ALPHABET_NoDup ALPHABET_NoDup) as Hnd.
  assert (Hmodel :
            RsaAttack.buildBigramModelFromText log text
            = List.map (fun ab => (ab, log (Spec.smoothed text ab)))
                       (list_prod RsaAttack.ALPHABET RsaAttack.ALPHABET)).
  { unfold RsaAttack.buildBigramModelFromText. cbv zeta.
    rewrite ALPHABET_length, Ht.
    rewrite (pair_fold_fresh
               (fun ab => log (inject_Z (pairCountOf (fst (RsaAttack.countBigrams text)) ab + 1)
                           / inject_Z (Z.of_nat (List.length (Spec.bigrams text))
                                       + Z.of_nat 27 * Z.of_nat 27))%Q)).
    - cbn [app]. apply map_ext. intros ab. rewrite Hc. reflexivity.
    - exact Hnd. }
  rewrite Hmodel. split; [|split; [|split; [|split]]].
  - rewrite map_map. cbn [fst]. apply map_id.
  - rewrite length_map, length_prod, ALPHABET_length. reflexivity.
  - exact Ht.
  - intros a b Ha Hb. apply pair_get_In.
    + rewrite map_map. cbn [fst]. rewrite map_id. exact Hnd.
    + apply in_map_iff. exists (a, b). split; [reflexivity|].
      apply bigrams_in_alphabet_sym; assumption.
  - apply smoothed_total.
Qed.

(** ** The symbol tables relabel the residues by rank *)

Lemma sorted_nth_lt (l : list Z) :
  StronglySorted Z.lt l ->
  forall i j, (i < j < List.length l)%nat -> nth i l 0 < nth j l 0.
Proof.
  induction 1 as [|x l Hs IH Hall]; intros i j Hij; cbn in Hij; [lia|].
  destruct j as [|j]; [lia|]. destruct i as [|i]; cbn [nth].
  - rewrite Forall_forall in Hall. apply Hall, nth_In. lia.
  - apply IH. lia.
Qed.

Lemma sorted_nth_iff (l : list Z) (i j : nat) :
  StronglySorted Z.lt l -> (i < List.length l)%nat -> (j < List.length l)%nat ->
  (nth i l 0 < nth j l 0 <-> (i < j)%nat).
Proof.
  intros Hs Hi Hj. split.
  - intros Hlt. destruct (Nat.lt_trichotomy i j) as [H|[->|H]]; [assumption|lia|].
    pose proof (sorted_nth_lt l Hs j i ltac:(lia)). lia.
  - intros H. apply sorted_nth_lt; [assumption | lia].
Qed.

Lemma ascending_cmp_le (a b : Z) :
  (if a <? b then -1 else if a >? b then 1 else 0) <= 0 <-> a <= b.
Proof.
  destruct (Z.ltb_spec a b); [lia|]. destruct (Z.gtb_spec a b); lia.
Qed.

Lemma ascending_sort_sorted (l : list Z) :
  NoDup l ->
  StronglySorted Z.lt (sort (fun a b => if a <? b then -1 else if a >? b then 1 else 0) l).
Proof.
  intros Hnd.
  apply (sorted_strengthen
           (fun a b => (if a <? b then -1 else if a >? b then 1 else 0) <= 0)).
  - intros a b _ _ Hab Hne. apply (proj1 (ascending_cmp_le a b)) in Hab. lia.
  - apply (Permutation_NoDup (Permutation_sym (sort_Permutation _ l))). exact Hnd.
  - apply (sort_sorted (fun a b => if a <? b then -1 else if a >? b then 1 else 0)).
    + intros a b. rewrite !ascending_cmp_le. lia.
    + intros a b c. rewrite !ascending_cmp_le. lia.
Qed.

Lemma inr_inj {A : Type} (x y : A) : @inr exn A x = inr y -> x = y.
Proof. intros H. injection H as H. exact H. Qed.

Lemma buildPlainToNumMap_modulus (p q e : Z) (k : RsaFreq.plainToNum) :
  RsaFreq.buildPlainToNumMap p q e = inr k -> p * q <> 0.
Proof.
  intros Hk E. unfold RsaFreq.buildPlainToNumMap in Hk. cbv zeta in Hk.
  rewrite (mapM_throws _ RangeError) in Hk; [discriminate | discriminate |].
  intros m _. unfold RsaFreq.modPowBig. rewrite E. reflexivity.
Qed.

Lemma buildPlainToNumMap_tables (p q e : Z) (k : RsaFreq.plainToNum) :
  RsaFreq.buildPlainToNumMap p q e = inr k ->
  exists R,
    List.length R = 26%nat /\ NoDup R /\
    RsaFreq.map k = combine Spec.lettersAZ R /\
    StronglySorted Z.lt (RsaFreq.uniq k) /\
    Permutation (RsaFreq.uniq k) R.
Proof.
  intros Hk. pose proof (buildPlainToNumMap_modulus p q e k Hk) as Hn.
  rewrite buildPlainToNumMap_unfold in Hk by assumption.
  destruct (Nat.eqb_spec (List.length (set_from (codeResidues p q e))) 26) as [E|E];
    cbn [negb] in Hk; [|discriminate].
  apply inr_inj in Hk. rewrite <- Hk. cbn [RsaFreq.map RsaFreq.uniq].
  assert (Hnd : NoDup (codeResidues p q e)).
  { apply set_from_length_iff. rewrite E, codeResidues_length. reflexivity. }
  exists (codeResidues p q e). split; [apply codeResidues_length|].
  split; [exact Hnd|]. split; [reflexivity|]. split.
  - apply ascending_sort_sorted, set_from_NoDup.
  - rewrite sort_Permutation. apply set_from_Permutation. exact Hnd.
Qed.

Section Relabel.
Variables (R uniq : list Z).
Hypothesis R_length : List.length R = 26%nat.
Hypothesis R_NoDup : NoDup R.
Hypothesis uniq_sorted : StronglySorted Z.lt uniq.
Hypothesis uniq_R : Permutation uniq R.

Let table := combine Spec.lettersAZ R.
Let maps := RsaFreq.buildSymbolMaps table uniq.

Lemma relabel_table_keys : List.map fst table = Spec.lettersAZ.
Proof. unfold table. apply combine_keys. rewrite R_length. reflexivity. Qed.

Lemma relabel_table_values : List.map snd table = R.
Proof. unfold table. apply combine_values. rewrite R_length. reflexivity. Qed.

Lemma relabel_uniq_NoDup : NoDup uniq.
Proof. apply (Permutation_NoDup (Permutation_sym uniq_R)). exact R_NoDup. Qed.

Lemma relabel_uniq_length : List.length uniq = 26%nat.
Proof. rewrite (Permutation_length uniq_R). exact R_length. Qed.

Lemma relabel_letter (L : Z) :
  Spec.isAZ L -> exists r, map_get Z.eqb table L = Some r /\ In (L, r) table /\ In r uniq.
Proof.
  intros HL. apply lettersAZ_In in HL.
  destruct (combine_In_fst Spec.lettersAZ R L) as [r Hr];
    [rewrite R_length; reflexivity | exact HL |].
  exists r. split; [|split].
  - apply map_get_In; [|exact Hr]. rewrite relabel_table_keys. apply lettersAZ_NoDup.
  - exact Hr.
  - apply (Permutation_in r (Permutation_sym uniq_R)).
    rewrite <- relabel_table_values. change r with (snd (L, r)). apply in_map. exact Hr.
Qed.

Lemma relabel_index (L r : Z) :
  In (L, r) table -> In r uniq ->
  exists i, (i < 26)%nat /\ nth i uniq 0 = r /\
            map_get Z.eqb (RsaFreq.plainToSym maps) L = Some (Some (65 + Z.of_nat i)) /\
            map_get Z.eqb (RsaFreq.symToNum maps) (65 + Z.of_nat i) = Some r.
Proof.
  intros HL Hr.
  pose proof relabel_uniq_NoDup as Hund. pose proof relabel_uniq_length as Hulen.
  assert (Htk : NoDup (List.map fst table))
    by (rewrite relabel_table_keys; apply lettersAZ_NoDup).
  destruct (In_nth uniq r 0 Hr) as [i [Hi Hnth]]. rewrite Hulen in Hi.
  assert (Hpair : In (Z.of_nat i, r) (combine (keys 26) uniq)).
  { assert (E : (Z.of_nat i, r) = nth i (combine (keys 26) uniq) (0, 0)).
    { rewrite combine_nth by (rewrite keys_length; symmetry; exact Hulen).
      rewrite Hnth. f_equal. unfold keys.
      change 0 with (Z.of_nat 0) at 1. rewrite map_nth, seq_nth by lia.
      reflexivity. }
    rewrite E. apply nth_In. rewrite length_combine, keys_length, Hulen. lia. }
  assert (Hchr : fromCharCode (65 + Z.of_nat i) = 65 + Z.of_nat i).
  { unfold fromCharCode. apply Z.mod_small. lia. }
  assert (Hsym : map_get Z.eqb (RsaFreq.numToSym maps) r = Some (65 + Z.of_nat i)).
  { apply map_get_In.
    - unfold maps. rewrite (numToSym_keys table uniq Hund Hulen). exact Hund.
    - unfold maps. rewrite (numToSym_eq table uniq Hund Hulen).
      apply in_map_iff. exists (Z.of_nat i, r). cbn [fst snd].
      rewrite Hchr. split; [reflexivity | exact Hpair]. }
  exists i. split; [exact Hi|]. split; [exact Hnth|]. split.
  - apply map_get_In.
    + unfold maps. rewrite (plainToSym_eq table uniq Htk), map_map. cbn [fst]. exact Htk.
    + unfold maps. rewrite (plainToSym_eq table uniq Htk).
      apply in_map_iff. exists (L, r). cbn [fst snd]. split; [|exact HL].
      f_equal. exact Hsym.
  - apply map_get_In.
    + unfold maps. rewrite (symToNum_eq table uniq Hund Hulen), map_map. cbn [fst].
      change (NoDup (List.map snd (RsaFreq.numToSym (RsaFreq.buildSymbolMaps table uniq)))).
      rewrite (numToSym_syms table uniq Hund Hulen). apply lettersAZ_NoDup.
    + unfold maps. rewrite (symToNum_eq table uniq Hund Hulen).
      apply in_map_iff. exists (r, 65 + Z.of_nat i). split; [reflexivity|].
      rewrite (numToSym_eq table uniq Hund Hulen).
      apply in_map_iff. exists (Z.of_nat i, r). cbn [fst snd].
      rewrite Hchr. split; [reflexivity | exact Hpair].
Qed.

Lemma relabel_symbol (L : Z) :
  Spec.isAZ L ->
  exists r i,
    map_get Z.eqb table L = Some r /\ In (L, r) table /\
    (i < 26)%nat /\ nth i uniq 0 = r /\
    symbolOf maps L = 65 + Z.of_nat i /\
    map_get Z.eqb (RsaFreq.plainToSym maps) L = Some (Some (symbolOf maps L)) /\
    map_get Z.eqb (RsaFreq.symToNum maps) (symbolOf maps L) = Some r.
Proof.
  intros HL. destruct (relabel_letter L HL) as [r [Hget [Hin Hr]]].
  destruct (relabel_index L r Hin Hr) as [i [Hi [Hnth [Hp Hs]]]].
  assert (E : symbolOf maps L = 65 + Z.of_nat i) by (unfold symbolOf; rewrite Hp; reflexivity).
  exists r, i. rewrite E. repeat split; assumption.
Qed.

Lemma relabel_monotone (L1 L2 r1 r2 : Z) :
  Spec.isAZ L1 -> Spec.isAZ L2 ->
  map_get Z.eqb table L1 = Some r1 -> map_get Z.eqb table L2 = Some r2 ->
  (symbolOf maps L1 < symbolOf maps L2 <-> r1 < r2).
Proof.
  intros H1 H2 Hr1 Hr2.
  destruct (relabel_symbol L1 H1) as [r1' [i1 [Hg1 [_ [Hi1 [Hn1 [E1 _]]]]]]].
  destruct (relabel_symbol L2 H2) as [r2' [i2 [Hg2 [_ [Hi2 [Hn2 [E2 _]]]]]]].
  assert (X1 : r1 = r1') by congruence. assert (X2 : r2 = r2') by congruence.
  rewrite E1, E2, X1, X2, <- Hn1, <- Hn2.
  rewrite (sorted_nth_iff uniq i1 i2 uniq_sorted)
    by (rewrite relabel_uniq_length; assumption).
  lia.
Qed.

Lemma relabel_injective (L1 L2 : Z) :
  Spec.isAZ L1 -> Spec.isAZ L2 -> symbolOf maps L1 = symbolOf maps L2 -> L1 = L2.
Proof.
  intros H1 H2 E.
  destruct (relabel_symbol L1 H1) as [r1 [i1 [_ [Hin1 [Hi1 [Hn1 [E1 _]]]]]]].
  destruct (relabel_symbol L2 H2) as [r2 [i2 [_ [Hin2 [Hi2 [Hn2 [E2 _]]]]]]].
  assert (X : i1 = i2) by lia. rewrite <- X in Hn2.
  assert (Y : r2 = r1) by congruence. rewrite Y in Hin2.
  apply (NoDup_snd_inj table L1 L2 r1); [|assumption|assumption].
  rewrite relabel_table_values. exact R_NoDup.
Qed.

Lemma relabel_isAZ (L : Z) : Spec.isAZ L -> Spec.isAZ (symbolOf maps L).
Proof.
  intros HL. destruct (relabel_symbol L HL) as [r [i [_ [_ [Hi [_ [E _]]]]]]].
  rewrite E. unfold Spec.isAZ. lia.
Qed.

Lemma relabel_Permutation :
  Permutation (List.map (symbolOf maps) Spec.lettersAZ) Spec.lettersAZ.
Proof.
  apply NoDup_Permutation_bis.
  - apply Finite.Injective_map_NoDup_in; [|apply lettersAZ_NoDup].
    intros a b Ha Hb. apply lettersAZ_In in Ha, Hb. apply relabel_injective; assumption.
  - rewrite length_map. apply Nat.le_refl.
  - intros s Hs. apply in_map_iff in Hs. destruct Hs as [L [<- HL]].
    apply lettersAZ_In, relabel_isAZ, lettersAZ_In. exact HL.
Qed.

Lemma relabel_encrypt (plainAZ : jsstring) :
  Forall Spec.isAZ plainAZ ->
  RsaFreq.encrypt (RsaFreq.plainToSym maps) plainAZ = List.map (symbolOf maps) plainAZ.
Proof.
  unfold RsaFreq.encrypt. induction 1 as [|ch t Hch _ IH]; [reflexivity|].
  cbn [List.map]. destruct (relabel_symbol ch Hch) as [r [i [_ [_ [_ [_ [_ [Hp _]]]]]]]].
  rewrite Hp. cbn [join]. rewrite IH. reflexivity.
Qed.
End Relabel.

(** X15.  When [buildPlainToNumMap] returns, its list [uniq] is strictly
    ascending, and [buildSymbolMaps] relabels the residues by rank: every
    letter has a cipher symbol that is again a letter A-Z and that
    [symToNum] leads back to the residue of the letter; the symbol of one
    letter is smaller than the symbol of another exactly when its residue is
    smaller; the 26 symbols are a permutation of the 26 letters; and the
    ciphertext of [main] is the plaintext with every letter replaced by its
    symbol. *)
Theorem X15_symbols_rank_relabel (p q e : Z) (k : RsaFreq.plainToNum) :
  RsaFreq.buildPlainToNumMap p q e = inr k ->
  let maps := RsaFreq.buildSymbolMaps (RsaFreq.map k) (RsaFreq.uniq k) in
  StronglySorted Z.lt (RsaFreq.uniq k) /\
  (forall L, Spec.isAZ L ->
             exists r, map_get Z.eqb (RsaFreq.map k) L = Some r /\
                       map_get Z.eqb (RsaFreq.plainToSym maps) L
                       = Some (Some (symbolOf maps L)) /\
                       Spec.isAZ (symbolOf maps L) /\
                       map_get Z.eqb (RsaFreq.symToNum maps) (symbolOf maps L) = Some r) /\
  (forall L1 L2 r1 r2,
      Spec.isAZ L1 -> Spec.isAZ L2 ->
      map_get Z.eqb (RsaFreq.map k) L1 = Some r1 ->
      map_get Z.eqb (RsaFreq.map k) L2 = Some r2 ->
      (symbolOf maps L1 < symbolOf maps L2 <-> r1 < r2)) /\
  Permutation (List.map (symbolOf maps) Spec.lettersAZ) Spec.lettersAZ /\
  (forall plainAZ, Forall Spec.isAZ plainAZ ->
                   RsaFreq.encrypt (RsaFreq.plainToSym maps) plainAZ
                   = List.map (symbolOf maps) plainAZ).
Proof.
  intros Hk. destruct (buildPlainToNumMap_tables p q e k Hk)
    as [R [HRlen [HRnd [Hmap [Hsorted Hperm]]]]].
  cbv zeta. rewrite Hmap. split; [exact Hsorted|]. split; [|split; [|split]].
  - intros L HL.
    destruct (relabel_symbol R (RsaFreq.uniq k) HRlen HRnd Hperm L HL)
      as [r [i [Hg [_ [_ [_ [_ [Hp Hs]]]]]]]].
    exists r. split; [exact Hg|]. split; [exact Hp|]. split; [|exact Hs].
    apply relabel_isAZ; assumption.
  - apply relabel_monotone; assumption.
  - apply relabel_Permutation; assumption.
  - apply relabel_encrypt; assumption.
Qed.

Lemma X15_symbols_rank_relabel_witness :
  exists k,
    RsaFreq.buildPlainToNumMap 13 11 7 = inr k /\
    StronglySorted Z.lt (RsaFreq.uniq k) /\
    Permutation
      (List.map (symbolOf (RsaFreq.buildSymbolMaps (RsaFreq.map k) (RsaFreq.uniq k)))
                Spec.lettersAZ)
      Spec.lettersAZ.
Proof.
  destruct (RsaFreq.buildPlainToNumMap 13 11 7) as [ex|k] eqn:Hk;
    [vm_compute in Hk; discriminate|].
  pose proof (X15_symbols_rank_relabel 13 11 7 k Hk) as H. cbv zeta in H.
  exists k. split; [reflexivity|]. split; [exact (proj1 H)|].
  exact (proj1 (proj2 (proj2 (proj2 H)))).
Defined.

(** ** The rank-alignment attack of rsa_freq.js *)

Lemma filter_length_Permutation {A : Type} (P : A -> bool) (l l' : list A) :
  Permutation l l' -> List.length (filter P l) = List.length (filter P l').
Proof.
  induction 1 as [|x l l' _ IH|x y l|l l' l'' _ IH1 _ IH2]; cbn [filter].
  - reflexivity.
  - destruct (P x); cbn [List.length]; rewrite IH; reflexivity.
  - destruct (P x); destruct (P y); reflexivity.
  - rewrite IH1. exact IH2.
Qed.

Lemma sorted_split {A : Type} (R : A -> A -> Prop) (pre : list A) (x : A) (post : list A) :
  StronglySorted R (pre ++ x :: post) ->
  Forall (fun a => R a x) pre /\ Forall (R x) post.
Proof.
  induction pre as [|a pre IH]; cbn [app]; intros Hs.
  - inversion Hs as [|? ? _ Hall]. subst. split; [constructor | exact Hall].
  - inversion Hs as [|? ? Hs' Hall]. subst. destruct (IH Hs') as [Hpre Hpost].
    split; [|exact Hpost]. constructor; [|exact Hpre].
    rewrite Forall_forall in Hall. apply Hall. apply in_or_app. right. left. reflexivity.
Qed.

Lemma filter_all {A : Type} (P : A -> bool) (l : list A) :
  Forall (fun a => P a = true) l -> filter P l = l.
Proof.
  induction 1 as [|a l Ha _ IH]; [reflexivity|]. cbn [filter]. rewrite Ha, IH. reflexivity.
Qed.

Lemma filter_none {A : Type} (P : A -> bool) (l : list A) :
  Forall (fun a => P a = false) l -> filter P l = [].
Proof.
  induction 1 as [|a l Ha _ IH]; [reflexivity|]. cbn [filter]. rewrite Ha, IH. reflexivity.
Qed.

(** The rank of an index whose count no other index shares is the number
    of indices with a greater count. *)
Lemma rank_position (t : jsstring) (i : Z) :
  0 <= i < 26 ->
  (forall j, 0 <= j < 26 -> j <> i ->
             nth (Z.to_nat j) (RsaFreq.countFreqAZ t) 0
             <> nth (Z.to_nat i) (RsaFreq.countFreqAZ t) 0) ->
  exists pre post,
    RsaFreq.orderIdx t = pre ++ i :: post /\
    List.length pre
    = List.length (filter (fun j => nth (Z.to_nat i) (RsaFreq.countFreqAZ t) 0
                                    <? nth (Z.to_nat j) (RsaFreq.countFreqAZ t) 0)
                          (keys 26)).
Proof.
  intros Hi Huniq.
  pose proof (orderIdx_Permutation t) as Hperm.
  pose proof (orderIdx_sorted t) as Hsorted.
  assert (Hin : In i (RsaFreq.orderIdx t))
    by (apply (Permutation_in i (Permutation_sym Hperm)), (proj2 (keys_In 26 i)); exact Hi).
  destruct (in_split i (RsaFreq.orderIdx t) Hin) as [pre [post Hsplit]].
  exists pre, post. split; [exact Hsplit|].
  rewrite <- (filter_length_Permutation _ _ _ Hperm).
  assert (Hnd : NoDup (pre ++ i :: post)).
  { rewrite <- Hsplit. apply (Permutation_NoDup (Permutation_sym Hperm)), keys_NoDup. }
  assert (Hrange : forall j, In j (pre ++ i :: post) -> 0 <= j < 26).
  { intros j Hj. rewrite <- Hsplit in Hj.
    apply (proj1 (keys_In 26 j)). apply (Permutation_in j Hperm). exact Hj. }
  rewrite Hsplit in Hsorted |- *. clear Hsplit Hperm Hin.
  revert Hsorted Huniq. generalize (RsaFreq.countFreqAZ t). intros f Hsorted Huniq.
  destruct (sorted_split _ pre i post Hsorted) as [Hpre Hpost].
  rewrite filter_app. cbn [filter]. rewrite Z.ltb_irrefl.
  rewrite (filter_all _ pre), (filter_none _ post), app_nil_r; [reflexivity | |].
  - rewrite Forall_forall in *. intros j Hj. specialize (Hpost j Hj).
    assert (Hne : j <> i).
    { intros ->. apply NoDup_remove_2 in Hnd. apply Hnd. apply in_or_app. right. exact Hj. }
    assert (Hjr : 0 <= j < 26) by (apply Hrange, in_or_app; right; right; exact Hj).
    specialize (Huniq j Hjr Hne). unfold Spec.rankBefore in Hpost.
    apply Z.ltb_ge. lia.
  - rewrite Forall_forall in *. intros j Hj. specialize (Hpre j Hj).
    assert (Hne : j <> i).
    { intros ->. apply NoDup_remove_2 in Hnd. apply Hnd. apply in_or_app. left. exact Hj. }
    assert (Hjr : 0 <= j < 26) by (apply Hrange, in_or_app; left; exact Hj).
    specialize (Huniq j Hjr Hne). unfold Spec.rankBefore in Hpre.
    apply Z.ltb_lt. lia.
Qed.

Lemma NoDup_map_injective {A B : Type} (f : A -> B) (l : list A) :
  NoDup (List.map f l) -> forall a b, In a l -> In b l -> f a = f b -> a = b.
Proof.
  induction l as [|x l IH]; cbn [List.map]; intros Hnd a b Ha Hb E; [destruct Ha|].
  inversion Hnd as [|? ? Hnotin Hnd']. subst.
  destruct Ha as [<-|Ha]; destruct Hb as [<-|Hb].
  - reflexivity.
  - exfalso. apply Hnotin. rewrite E. apply in_map. exact Hb.
  - exfalso. apply Hnotin. rewrite <- E. apply in_map. exact Ha.
  - apply IH; assumption.
Qed.

Lemma combine_middle {A B : Type} (l1 : list A) (a : A) (l1' : list A)
      (l2 : list B) (b : B) (l2' : list B) :
  List.length l1 = List.length l2 ->
  In (a, b) (combine (l1 ++ a :: l1') (l2 ++ b :: l2')).
Proof.
  revert l2. induction l1 as [|x l1 IH]; intros [|y l2] Hlen; cbn in Hlen; try lia.
  - left. reflexivity.
  - cbn [app combine]. right. apply IH. lia.
Qed.

Section RankAttack.
Variables (sigma : Z -> Z) (plainAZ : jsstring).
Hypothesis sigma_letters : Permutation (List.map sigma Spec.lettersAZ) Spec.lettersAZ.
Hypothesis plain_letters : Forall Spec.isAZ plainAZ.

Let cipherAZ := List.map sigma plainAZ.

Lemma sigma_isAZ (L : Z) : Spec.isAZ L -> Spec.isAZ (sigma L).
Proof.
  intros HL. apply lettersAZ_In. apply (Permutation_in _ sigma_letters).
  apply in_map, lettersAZ_In. exact HL.
Qed.

Lemma sigma_injective (L1 L2 : Z) :
  Spec.isAZ L1 -> Spec.isAZ L2 -> sigma L1 = sigma L2 -> L1 = L2.
Proof.
  intros H1 H2. apply (NoDup_map_injective sigma Spec.lettersAZ).
  - apply (Permutation_NoDup (Permutation_sym sigma_letters)), lettersAZ_NoDup.
  - apply lettersAZ_In. exact H1.
  - apply lettersAZ_In. exact H2.
Qed.

Lemma sigma_onto (c : Z) : Spec.isAZ c -> exists L, Spec.isAZ L /\ sigma L = c.
Proof.
  intros Hc. apply lettersAZ_In in Hc.
  apply (Permutation_in _ (Permutation_sym sigma_letters)), in_map_iff in Hc.
  destruct Hc as [L [E HL]]. exists L. split; [apply lettersAZ_In; exact HL | exact E].
Qed.

Lemma sigma_occurrences (L : Z) (t : jsstring) :
  Spec.isAZ L -> Forall Spec.isAZ t ->
  Spec.occurrences (sigma L) (List.map sigma t) = Spec.occurrences L t.
Proof.
  intros HL. induction 1 as [|ch t Hch _ IH]; [reflexivity|].
  cbn [List.map]. rewrite !occurrences_cons, IH.
  destruct (Z.eqb_spec L ch) as [->|Hne].
  - rewrite Z.eqb_refl. reflexivity.
  - destruct (Z.eqb_spec (sigma L) (sigma ch)) as [E|_]; [|reflexivity].
    exfalso. apply Hne. apply sigma_injective; assumption.
Qed.

Lemma cipher_occurrences (L : Z) :
  Spec.isAZ L -> Spec.occurrences (sigma L) cipherAZ = Spec.occurrences L plainAZ.
Proof. intros HL. apply sigma_occurrences; assumption. Qed.

Lemma cipher_count (L : Z) :
  Spec.isAZ L ->
  nth (Z.to_nat (sigma L - 65)) (RsaFreq.countFreqAZ cipherAZ) 0
  = nth (Z.to_nat (L - 65)) (RsaFreq.countFreqAZ plainAZ) 0.
Proof.
  intros HL. pose proof (sigma_isAZ L HL) as Hs. unfold Spec.isAZ in HL, Hs.
  rewrite !countFreqAZ_spec by lia.
  replace (65 + (sigma L - 65)) with (sigma L) by lia.
  replace (65 + (L - 65)) with L by lia.
  apply cipher_occurrences. exact HL.
Qed.

Lemma sigma_indices :
  Permutation (List.map (fun j => sigma (65 + j) - 65) (keys 26)) (keys 26).
Proof.
  assert (E1 : List.map (fun j => sigma (65 + j) - 65) (keys 26)
               = List.map (fun c => c - 65) (List.map sigma Spec.lettersAZ)).
  { rewrite map_map.
    change Spec.lettersAZ with (List.map (fun j => 65 + j) (keys 26)).
    rewrite map_map. reflexivity. }
  rewrite E1.
  change (keys 26) with (List.map (fun c => c - 65) Spec.lettersAZ).
  apply Permutation_map. exact sigma_letters.
Qed.

Lemma cipher_rank (L : Z) :
  Spec.isAZ L ->
  List.length (filter (fun j => nth (Z.to_nat (sigma L - 65)) (RsaFreq.countFreqAZ cipherAZ) 0
                                <? nth (Z.to_nat j) (RsaFreq.countFreqAZ cipherAZ) 0)
                      (keys 26))
  = List.length (filter (fun j => nth (Z.to_nat (L - 65)) (RsaFreq.countFreqAZ plainAZ) 0
                                  <? nth (Z.to_nat j) (RsaFreq.countFreqAZ plainAZ) 0)
                        (keys 26)).
Proof.
  intros HL.
  rewrite <- (filter_length_Permutation _ _ _ sigma_indices).
  rewrite filter_map_swap, length_map. f_equal.
  apply filter_ext_in. intros j Hj. apply keys_In in Hj. cbv beta.
  rewrite (cipher_count L HL).
  rewrite (cipher_count (65 + j)) by (unfold Spec.isAZ; lia).
  replace (65 + j - 65) with j by lia. reflexivity.
Qed.

Lemma rank_attack_letter (L : Z) :
  Spec.isAZ L -> Spec.uniqueCount plainAZ L ->
  map_get Z.eqb (RsaFreq.rankMapping plainAZ cipherAZ) (sigma L) = Some L.
Proof.
  intros HL Huniq. pose proof (sigma_isAZ L HL) as Hs.
  assert (HuP : forall j, 0 <= j < 26 -> j <> L - 65 ->
                          nth (Z.to_nat j) (RsaFreq.countFreqAZ plainAZ) 0
                          <> nth (Z.to_nat (L - 65)) (RsaFreq.countFreqAZ plainAZ) 0).
  { intros j Hj Hne. unfold Spec.isAZ in HL. rewrite !countFreqAZ_spec by lia.
    replace (65 + (L - 65)) with L by lia.
    apply Huniq; [unfold Spec.isAZ; lia | lia]. }
  assert (HuC : forall j, 0 <= j < 26 -> j <> sigma L - 65 ->
                          nth (Z.to_nat j) (RsaFreq.countFreqAZ cipherAZ) 0
                          <> nth (Z.to_nat (sigma L - 65)) (RsaFreq.countFreqAZ cipherAZ) 0).
  { intros j Hj Hne.
    destruct (sigma_onto (65 + j)) as [L' [HL' E]]; [unfold Spec.isAZ; lia|].
    replace j with (sigma L' - 65) by lia.
    rewrite !cipher_count by assumption.
    unfold Spec.isAZ in HL, HL'. rewrite !countFreqAZ_spec by lia.
    replace (65 + (L' - 65)) with L' by lia. replace (65 + (L - 65)) with L by lia.
    apply Huniq; [exact HL'|]. intros ->. lia. }
  destruct (rank_position plainAZ (L - 65)) as [pre [post [HP HlenP]]];
    [unfold Spec.isAZ in HL; lia | exact HuP |].
  destruct (rank_position cipherAZ (sigma L - 65)) as [pre' [post' [HC HlenC]]];
    [unfold Spec.isAZ in Hs; lia | exact HuC |].
  rewrite (cipher_rank L HL), <- HlenP in HlenC.
  rewrite rankMapping_pairs. apply map_get_In.
  - rewrite combine_keys; [apply orderByFreq_NoDup|].
    rewrite !orderByFreq_length. reflexivity.
  - unfold RsaFreq.orderByFreq. rewrite HP, HC, !map_app. cbn [List.map].
    assert (E1 : fromCharCode (65 + (sigma L - 65)) = sigma L).
    { unfold fromCharCode, Spec.isAZ in *. rewrite Z.mod_small by lia. lia. }
    assert (E2 : fromCharCode (65 + (L - 65)) = L).
    { unfold fromCharCode, Spec.isAZ in *. rewrite Z.mod_small by lia. lia. }
    rewrite E1, E2. apply combine_middle. rewrite !length_map. exact HlenC.
Qed.

Lemma rank_attack_positions (L : Z) (k : nat) :
  Spec.isAZ L -> Spec.uniqueCount plainAZ L ->
  nth_error plainAZ k = Some L ->
  nth_error (RsaFreq.rankGuess plainAZ cipherAZ) k = Some L.
Proof.
  intros HL Huniq Hk. unfold RsaFreq.rankGuess, RsaFreq.applySubst, cipherAZ.
  rewrite !nth_error_map, Hk. cbn [option_map].
  fold cipherAZ. rewrite (rank_attack_letter L HL Huniq). reflexivity.
Qed.

Lemma rank_attack_full :
  (forall L, In L plainAZ -> Spec.uniqueCount plainAZ L) ->
  RsaFreq.rankGuess plainAZ cipherAZ = plainAZ.
Proof.
  intros Hall. unfold RsaFreq.rankGuess, RsaFreq.applySubst.
  set (m := RsaFreq.rankMapping plainAZ cipherAZ).
  unfold cipherAZ. rewrite map_map.
  transitivity (List.map (fun L : Z => L) plainAZ); [|apply map_id].
  apply map_ext_in. intros L HL. unfold m.
  rewrite rank_attack_letter; [reflexivity | | apply Hall; exact HL].
  rewrite Forall_forall in plain_letters. apply plain_letters. exact HL.
Qed.
End RankAttack.


Lemma matched_same_loop (t : jsstring) :
  forall (pre : jsstring) (k : Z),
    fold_left (fun k ic =>
                 k + (if match nth_error (pre ++ t) (fst ic) with
                         | Some gc => snd ic =? gc
                         | None => false
                         end
                      then 1 else 0))
              (combine (seq (List.length pre) (List.length t)) t) k
    = k + Z.of_nat (List.length t).
Proof.
  induction t as [|c t IH]; intros pre k.
  - cbn. lia.
  - cbn [List.length seq combine]. rewrite fold_left_step. cbn [fst snd].
    rewrite nth_error_app2 by lia. rewrite Nat.sub_diag. cbn [nth_error].
    rewrite Z.eqb_refl.
    specialize (IH (pre ++ [c]) (k + 1)).
    rewrite <- app_assoc, length_app in IH. cbn [app List.length] in IH.
    rewrite Nat.add_1_r in IH. rewrite IH. lia.
Qed.

Lemma matched_same (t : jsstring) : RsaFreq.matched t t = Z.of_nat (List.length t).
Proof. unfold RsaFreq.matched. apply (matched_same_loop t [] 0). Qed.




(** X17.  The rank-alignment attack on a letter substitution.  Let the
    ciphertext be the plaintext, a string of letters A-Z, with every letter
    replaced through a permutation [sigma] of the alphabet, as the
    encryption of [main] does.  Then the attack maps the cipher letter of
    every plain letter whose number of occurrences no other letter shares
    back to that letter, so the guess is right at every position that
    holds such a letter.  When this is so for every letter that occurs, the
    guess is the plaintext and all positions match. *)
Theorem X17_rank_attack_exact (sigma : Z -> Z) (plainAZ : jsstring) :
  Permutation (List.map sigma Spec.lettersAZ) Spec.lettersAZ ->
  Forall Spec.isAZ plainAZ ->
  let cipherAZ := List.map sigma plainAZ in
  (forall L, Spec.isAZ L -> Spec.uniqueCount plainAZ L ->
             map_get Z.eqb (RsaFreq.rankMapping plainAZ cipherAZ) (sigma L) = Some L /\
             forall k, nth_error plainAZ k = Some L ->
                       nth_error (RsaFreq.rankGuess plainAZ cipherAZ) k = Some L) /\
  ((forall L, In L plainAZ -> Spec.uniqueCount plainAZ L) ->
   RsaFreq.rankGuess plainAZ cipherAZ = plainAZ /\
   RsaFreq.matched plainAZ (RsaFreq.rankGuess plainAZ cipherAZ)
   = Z.of_nat (List.length plainAZ)).
Proof.
  intros Hsigma Hplain. cbv zeta. split.
  - intros L HL Huniq. split.
    + apply rank_attack_letter; assumption.
    + intros k. apply rank_attack_positions; assumption.
  - intros Hall. rewrite (rank_attack_full sigma plainAZ Hsigma Hplain Hall).
    split; [reflexivity | apply matched_same].
Qed.

Lemma X17_rank_attack_exact_witness :
  RsaFreq.rankGuess (str "ABB") (List.map (fun c => 65 + (c - 64) mod 26) (str "ABB"))
  = str "ABB".
Proof.
  assert (Hsigma : Permutation (List.map (fun c => 65 + (c - 64) mod 26) Spec.lettersAZ)
                               Spec.lettersAZ).
  { change (List.map (fun c => 65 + (c - 64) mod 26) Spec.lettersAZ)
      with (tl Spec.lettersAZ ++ [65]).
    change Spec.lettersAZ with (65 :: tl Spec.lettersAZ) at 2.
    apply Permutation_sym, Permutation_cons_append. }
  assert (Hplain : Forall Spec.isAZ (str "ABB")).
  { repeat constructor; unfold Spec.isAZ; cbn; lia. }
  apply (proj2 (X17_rank_attack_exact _ (str "ABB") Hsigma Hplain)).
  intros L HL L' HL' Hne.
  change (str "ABB") with [65; 66; 66] in *. rewrite !occurrences_cons.
  unfold Spec.occurrences. cbn [count_occ List.length Z.of_nat].
  destruct HL as [<-|[<-|[<-|[]]]];
    destruct (Z.eqb_spec L' 65); destruct (Z.eqb_spec L' 66); cbn; lia.
Defined.

(** ** The counters of [countFreqAZ] *)

Lemma sumZ_bump (i : nat) (f : list Z) :
  (i < List.length f)%nat -> sumZ (RsaFreq.bump i f) = sumZ f + 1.
Proof.
  revert i. induction f as [|c f IH]; intros i Hi; cbn in Hi; [lia|].
  destruct i as [|i]; cbn [RsaFreq.bump sumZ]; [lia|]. rewrite IH by lia. lia.
Qed.

Lemma countFreqAZ_total_loop (s : jsstring) :
  forall f,
    List.length f = 26%nat ->
    let f' := fold_left
                (fun f ch =>
                   let i := ch - 65 in
                   if (0 <=? i) && (i <? 26) then RsaFreq.bump (Z.to_nat i) f else f)
                s f in
    List.length f' = 26%nat /\
    sumZ f' = sumZ f
              + Z.of_nat (List.length (filter (fun ch => (65 <=? ch) && (ch <=? 90)) s)).
Proof.
  induction s as [|ch s IH]; intros f Hlen; cbv zeta.
  - cbn. split; [exact Hlen | lia].
  - rewrite fold_left_step. cbv zeta. cbn [filter].
    destruct (Z.leb_spec 0 (ch - 65)) as [H0|H0];
      destruct (Z.ltb_spec (ch - 65) 26) as [H1|H1];
      destruct (Z.leb_spec 65 ch) as [H2|H2];
      destruct (Z.leb_spec ch 90) as [H3|H3]; try lia; cbn [andb].
    + destruct (IH (RsaFreq.bump (Z.to_nat (ch - 65)) f)) as [Hl Hs];
        [rewrite bump_length; exact Hlen|].
      cbv zeta in Hl, Hs. split; [exact Hl|].
      rewrite Hs, sumZ_bump by lia. cbn [List.length]. lia.
    + apply IH. exact Hlen.
    + apply IH. exact Hlen.
Qed.

(** X18.  [countFreqAZ] always returns 26 counters, none negative; they
    add up to the number of code units of the string that are letters A-Z,
    every other character is skipped, and the empty string gives 26
    zeros. *)
Theorem X18_countFreqAZ_total (s : jsstring) :
  List.length (RsaFreq.countFreqAZ s) = 26%nat /\
  Forall (fun c => 0 <= c) (RsaFreq.countFreqAZ s) /\
  sumZ (RsaFreq.countFreqAZ s)
  = Z.of_nat (List.length (filter (fun ch => (65 <=? ch) && (ch <=? 90)) s)) /\
  sumZ (RsaFreq.countFreqAZ s) <= Z.of_nat (List.length s) /\
  RsaFreq.countFreqAZ [] = repeat 0 26.
Proof.
  destruct (countFreqAZ_total_loop s (repeat 0 26) eq_refl) as [Hlen Hsum].
  cbv zeta in Hlen, Hsum. fold (RsaFreq.countFreqAZ s) in Hlen, Hsum.
  split; [exact Hlen|]. split; [|split; [|split; [|reflexivity]]].
  - apply Forall_forall. intros c Hc.
    destruct (In_nth _ _ 0 Hc) as [i [Hi <-]]. rewrite Hlen in Hi.
    rewrite <- (Nat2Z.id i), countFreqAZ_spec by lia.
    unfold Spec.occurrences. lia.
  - rewrite Hsum. cbn [sumZ repeat]. change (sumZ (repeat 0 26)) with 0. lia.
  - rewrite Hsum. change (sumZ (repeat 0 26)) with 0.
    pose proof (filter_length_le (fun ch => (65 <=? ch) && (ch <=? 90)) s). lia.
Qed.

(** ** A public exponent that is not positive *)

Lemma powLoop_nonpositive (r b e m : Z) : e <= 0 -> powLoop (bits e) r b e m = r.
Proof.
  intros He. unfold bits. cbn [powLoop]. destruct (Z.ltb_spec 0 e); [lia | reflexivity].
Qed.

Lemma set_from_constant (c : Z) (n : nat) : set_from (repeat c (S n)) = [c].
Proof.
  unfold set_from. cbn [repeat fold_left set_add].
  induction n as [|n IH]; [reflexivity|].
  cbn [repeat fold_left set_add]. rewrite Z.eqb_refl. exact IH.
Qed.

(** X19.  With a public exponent that is zero or negative the loop of
    [modPowBig] is never entered and the result is 1 for every base, so the
    26 letters share one residue: [buildPlainToNumMap] throws the error
    that reports 1 residue, for every modulus other than 0, and [main] stops
    before it encrypts.  With the modulus 0 the division throws first. *)
Theorem X19_nonpositive_exponent (p q e : Z) (plainAZ : jsstring) :
  e <= 0 ->
  (forall base m, m <> 0 -> RsaFreq.modPowBig base e m = inr 1) /\
  (p * q <> 0 ->
   RsaFreq.buildPlainToNumMap p q e = inl (RsaFreq.residueError 1) /\
   RsaFreq.encryptDecrypt p q e plainAZ = inl (RsaFreq.residueError 1)) /\
  (p * q = 0 -> RsaFreq.buildPlainToNumMap p q e = inl RangeError).
Proof.
  intros He. split; [|split].
  - intros base m Hm. unfold RsaFreq.modPowBig.
    destruct (Z.eqb_spec m 0); [contradiction|].
    rewrite powLoop_nonpositive by exact He. reflexivity.
  - intros Hn.
    assert (Hres : codeResidues p q e = repeat 1 26).
    { unfold codeResidues.
      rewrite (map_ext _ (fun _ => 1)) by (intros m; apply powLoop_nonpositive; exact He).
      reflexivity. }
    assert (Hb : RsaFreq.buildPlainToNumMap p q e = inl (RsaFreq.residueError 1)).
    { rewrite buildPlainToNumMap_unfold by exact Hn.
      rewrite Hres, (set_from_constant 1 25). reflexivity. }
    split; [exact Hb|]. unfold RsaFreq.encryptDecrypt. rewrite Hb. reflexivity.
  - intros Hz. unfold RsaFreq.buildPlainToNumMap. cbv zeta.
    rewrite (mapM_throws _ RangeError); [reflexivity | discriminate |].
    intros m _. unfold RsaFreq.modPowBig. rewrite Hz. reflexivity.
Qed.

Lemma X19_nonpositive_exponent_witness :
  RsaFreq.buildPlainToNumMap 13 11 0 = inl (RsaFreq.residueError 1).
Proof.
  apply (proj1 (proj2 (X19_nonpositive_exponent 13 11 0 [] ltac:(lia)))).
  discriminate.
Defined.

(** ** The Caesar shift *)

Lemma shift_letter (ch k : Z) :
  Spec.isAZ ch -> 0 <= k ->
  fromCharCode (Z.rem (ch - 65 + k) 26 + 65) = 65 + (ch - 65 + k) mod 26.
Proof.
  intros Hch Hk. unfold Spec.isAZ in Hch.
  rewrite Z.rem_mod_nonneg by lia.
  pose proof (Z.mod_pos_bound (ch - 65 + k) 26 ltac:(lia)).
  unfold fromCharCode. rewrite Z.mod_small by lia. lia.
Qed.

Lemma isAZ_test (ch : Z) : (65 <=? ch) && (ch <=? 90) = true <-> Spec.isAZ ch.
Proof.
  unfold Spec.isAZ. rewrite andb_true_iff, !Z.leb_le. reflexivity.
Qed.

Lemma caesarShift_char (ch k : Z) :
  0 <= k ->
  (if (65 <=? ch) && (ch <=? 90)
   then fromCharCode (Z.rem (ch - 65 + k) 26 + 65)
   else ch)
  = if (65 <=? ch) && (ch <=? 90) then 65 + (ch - 65 + k) mod 26 else ch.
Proof.
  intros Hk. destruct ((65 <=? ch) && (ch <=? 90)) eqn:E; [|reflexivity].
  apply shift_letter; [apply isAZ_test; exact E | exact Hk].
Qed.

Lemma caesarShift_eq (t : jsstring) (k : Z) :
  0 <= k ->
  Cesare.caesarShift t k
  = List.map (fun ch => if (65 <=? ch) && (ch <=? 90)
                        then 65 + (ch - 65 + k) mod 26 else ch) t.
Proof.
  intros Hk. unfold Cesare.caesarShift. apply map_ext. intros ch.
  apply caesarShift_char. exact Hk.
Qed.

Lemma shifted_isAZ (ch k : Z) : Spec.isAZ (65 + (ch - 65 + k) mod 26).
Proof.
  pose proof (Z.mod_pos_bound (ch - 65 + k) 26 ltac:(lia)). unfold Spec.isAZ. lia.
Qed.

Lemma caesarShift_compose (t : jsstring) (a b : Z) :
  0 <= a -> 0 <= b ->
  Cesare.caesarShift (Cesare.caesarShift t a) b = Cesare.caesarShift t (a + b).
Proof.
  intros Ha Hb. rewrite !caesarShift_eq by lia. rewrite map_map.
  apply map_ext. intros ch.
  destruct ((65 <=? ch) && (ch <=? 90)) eqn:E.
  - rewrite (proj2 (isAZ_test _) (shifted_isAZ ch a)).
    f_equal. replace (65 + (ch - 65 + a) mod 26 - 65 + b) with ((ch - 65 + a) mod 26 + b) by lia.
    rewrite Z.add_mod_idemp_l by lia. f_equal. lia.
  - rewrite E. reflexivity.
Qed.

Lemma caesarShift_congruent (t : jsstring) (a b : Z) :
  0 <= a -> 0 <= b -> a mod 26 = b mod 26 ->
  Cesare.caesarShift t a = Cesare.caesarShift t b.
Proof.
  intros Ha Hb E. rewrite !caesarShift_eq by lia. apply map_ext. intros ch.
  destruct ((65 <=? ch) && (ch <=? 90)); [|reflexivity]. f_equal.
  rewrite <- (Z.add_mod_idemp_r (ch - 65) a), E, Z.add_mod_idemp_r by lia. reflexivity.
Qed.

Lemma caesarShift_zero (t : jsstring) : Cesare.caesarShift t 0 = t.
Proof.
  rewrite caesarShift_eq by lia. rewrite <- (map_id t) at 2. apply map_ext. intros ch.
  destruct ((65 <=? ch) && (ch <=? 90)) eqn:E; [|reflexivity].
  apply isAZ_test in E. unfold Spec.isAZ in E.
  rewrite Z.add_0_r, Z.mod_small by lia. lia.
Qed.

Lemma caesarShift_cycle (t : jsstring) (k : Z) :
  0 <= k -> k mod 26 = 0 -> Cesare.caesarShift t k = t.
Proof.
  intros Hk E. rewrite (caesarShift_congruent t k 0) by (try lia; rewrite E; reflexivity).
  apply caesarShift_zero.
Qed.

(** X20.  [caesarShift] with a shift that is not negative keeps the
    length of the text, replaces every letter A-Z by the letter
    [(code - 65 + k) mod 26] places after A, and keeps every other
    character; so the result of a text of letters is a text of letters. *)
Theorem X20_caesarShift_letters (t : jsstring) (k : Z) :
  Spec.shiftAmount k ->
  List.length (Cesare.caesarShift t k) = List.length t /\
  Forall2 (fun ch out =>
             (Spec.isAZ ch -> out = 65 + (ch - 65 + k) mod 26 /\ Spec.isAZ out) /\
             (~ Spec.isAZ ch -> out = ch))
          t (Cesare.caesarShift t k) /\
  (Forall Spec.isAZ t -> Forall Spec.isAZ (Cesare.caesarShift t k)).
Proof.
  intros [Hk _]. rewrite caesarShift_eq by exact Hk.
  split; [apply length_map|]. split.
  - induction t as [|ch t IH]; cbn [List.map]; constructor; [|exact IH].
    destruct ((65 <=? ch) && (ch <=? 90)) eqn:E.
    + split; [intros _; split; [reflexivity | apply shifted_isAZ]|].
      intros H. exfalso. apply H, isAZ_test. exact E.
    + split; [|intros _; reflexivity].
      intros H. apply isAZ_test in H. congruence.
  - intros Ht. apply Forall_map. revert Ht. apply Forall_impl. intros ch Hch.
    rewrite (proj2 (isAZ_test ch) Hch). apply shifted_isAZ.
Qed.

Lemma X20_caesarShift_letters_witness :
  List.length (Cesare.caesarShift (str "CIAO") 7) = List.length (str "CIAO") /\
  Forall Spec.isAZ (Cesare.caesarShift (str "CIAO") 7).
Proof.
  assert (Hk : Spec.shiftAmount 7) by (unfold Spec.shiftAmount, Spec.MAX_SAFE_INTEGER; lia).
  pose proof (X20_caesarShift_letters (str "CIAO") 7 Hk) as H.
  split; [exact (proj1 H)|]. apply (proj2 (proj2 H)).
  repeat constructor; unfold Spec.isAZ; cbn; lia.
Defined.

(** X21.  Shifts compose by addition and only count modulo 26: shifting
    by [a] and then by [b] is shifting by [a + b]; two shifts that are
    congruent modulo 26 give the same text; the shift 0 and every multiple
    of 26 return the text unchanged. *)
Theorem X21_caesarShift_compose (t : jsstring) (a b : Z) :
  Spec.shiftAmount a -> Spec.shiftAmount b -> Spec.shiftAmount (a + b) ->
  Cesare.caesarShift (Cesare.caesarShift t a) b = Cesare.caesarShift t (a + b) /\
  (a mod 26 = b mod 26 -> Cesare.caesarShift t a = Cesare.caesarShift t b) /\
  (a mod 26 = 0 -> Cesare.caesarShift t a = t) /\
  Cesare.caesarShift t 0 = t.
Proof.
  intros [Ha _] [Hb _] _. split; [apply caesarShift_compose; assumption|].
  split; [apply caesarShift_congruent; assumption|].
  split; [apply caesarShift_cycle; assumption | apply caesarShift_zero].
Qed.

Lemma X21_caesarShift_compose_witness :
  Cesare.caesarShift (Cesare.caesarShift (str "CIAO") 7) 30
  = Cesare.caesarShift (str "CIAO") (7 + 30).
Proof.
  apply (X21_caesarShift_compose (str "CIAO") 7 30);
    unfold Spec.shiftAmount, Spec.MAX_SAFE_INTEGER; lia.
Defined.

Lemma complement_shift (k : Z) :
  0 <= k -> 0 <= Z.rem (26 - Z.rem k 26) 26 < 26 /\
            (k + Z.rem (26 - Z.rem k 26) 26) mod 26 = 0.
Proof.
  intros Hk. rewrite (Z.rem_mod_nonneg k 26) by lia.
  pose proof (Z.mod_pos_bound k 26 ltac:(lia)) as Hb.
  rewrite Z.rem_mod_nonneg by lia.
  pose proof (Z.mod_pos_bound (26 - k mod 26) 26 ltac:(lia)) as Hb'.
  split; [lia|].
  rewrite Z.add_mod_idemp_r by lia.
  replace (k + (26 - k mod 26)) with (26 + (k - k mod 26)) by lia.
  rewrite Z.add_mod, Z.mod_same by lia.
  rewrite (Zmod_eq_full k 26) by lia.
  replace (k - (k - k / 26 * 26)) with (k / 26 * 26) by lia.
  rewrite Z.mod_mul by lia. reflexivity.
Qed.

Lemma caesarShift_inverse (t : jsstring) (k : Z) :
  0 <= k ->
  Cesare.caesarShift (Cesare.caesarShift t k) (Z.rem (26 - Z.rem k 26) 26) = t /\
  Cesare.caesarShift (Cesare.caesarShift t (Z.rem (26 - Z.rem k 26) 26)) k = t.
Proof.
  intros Hk. destruct (complement_shift k Hk) as [Hr Hz].
  rewrite !caesarShift_compose by lia. split.
  - apply caesarShift_cycle; [lia | exact Hz].
  - apply caesarShift_cycle; [lia|]. rewrite Z.add_comm. exact Hz.
Qed.

(** X22.  Decryption is encryption with the complementary shift: for a
    shift [k] that is not negative, shifting by [k] and then by
    [(26 - k % 26) % 26] returns the text, in either order.  For [k]
    in [0 .. 25] the complement is the shift [(26 - k) % 26] that
    [bestShiftByFrequency] tries. *)
Theorem X22_caesarShift_inverse (t : jsstring) (k : Z) :
  Spec.shiftAmount k ->
  Cesare.caesarShift (Cesare.caesarShift t k) (Z.rem (26 - Z.rem k 26) 26) = t /\
  Cesare.caesarShift (Cesare.caesarShift t (Z.rem (26 - Z.rem k 26) 26)) k = t /\
  (k < 26 -> Z.rem (26 - Z.rem k 26) 26 = Z.rem (26 - k) 26).
Proof.
  intros [Hk _]. destruct (caesarShift_inverse t k Hk) as [H1 H2].
  split; [exact H1|]. split; [exact H2|].
  intros Hlt. rewrite (Z.rem_small k 26) by lia. reflexivity.
Qed.

Lemma X22_caesarShift_inverse_witness :
  Cesare.caesarShift (Cesare.caesarShift (str "CIAO") 7) (Z.rem (26 - Z.rem 7 26) 26)
  = str "CIAO".
Proof.
  apply (X22_caesarShift_inverse (str "CIAO") 7).
  unfold Spec.shiftAmount, Spec.MAX_SAFE_INTEGER; lia.
Defined.

(** X23.  A negative shift is not reduced into the alphabet: [%] keeps
    the sign of [code - 65 + k], so a letter whose shifted index is
    negative and not a multiple of 26 becomes a character before [A], which
    is not a letter, and which no later shift changes. *)
Theorem X23_caesarShift_negative (ch k j : Z) :
  Spec.isAZ ch -> - Spec.MAX_SAFE_INTEGER <= k ->
  ch - 65 + k < 0 -> Z.rem (ch - 65 + k) 26 <> 0 ->
  Cesare.caesarShift [ch] k = [65 + Z.rem (ch - 65 + k) 26] /\
  39 < 65 + Z.rem (ch - 65 + k) 26 < 65 /\
  ~ Spec.isAZ (65 + Z.rem (ch - 65 + k) 26) /\
  Cesare.caesarShift (Cesare.caesarShift [ch] k) j = Cesare.caesarShift [ch] k.
Proof.
  intros Hch _ Hneg Hrem.
  pose proof (Z.rem_bound_pos_neg (ch - 65 + k) 26 ltac:(lia) ltac:(lia)) as Hb.
  assert (E : Cesare.caesarShift [ch] k = [65 + Z.rem (ch - 65 + k) 26]).
  { unfold Cesare.caesarShift. cbn [List.map].
    rewrite (proj2 (isAZ_test ch) Hch). unfold fromCharCode.
    rewrite Z.mod_small by lia. f_equal. lia. }
  split; [exact E|]. split; [lia|]. split; [unfold Spec.isAZ; lia|].
  rewrite E. unfold Cesare.caesarShift. cbn [List.map].
  destruct (Z.leb_spec 65 (65 + Z.rem (ch - 65 + k) 26)); [lia | reflexivity].
Qed.

Lemma X23_caesarShift_negative_witness :
  Cesare.caesarShift (str "A") (-1) = str "@".
Proof.
  apply (X23_caesarShift_negative 65 (-1) 0);
    unfold Spec.isAZ, Spec.MAX_SAFE_INTEGER; cbn; lia.
Defined.

(** ** The scan of [bestShiftByFrequency] *)

Lemma keys_from_sorted (n s : nat) : StronglySorted Z.lt (List.map Z.of_nat (seq s n)).
Proof.
  revert s. induction n as [|n IH]; intros s; cbn [seq List.map]; constructor.
  - apply IH.
  - apply Forall_forall. intros y Hy. apply in_map_iff in Hy.
    destruct Hy as [m [<- Hm]]. apply in_seq in Hm. lia.
Qed.

Lemma keys_split_before (n : nat) (pre : list Z) (k : Z) (post : list Z) (x : Z) :
  pre ++ k :: post = keys n -> In x (keys n) -> x < k -> In x pre.
Proof.
  intros Hsplit Hx Hlt.
  pose proof (keys_from_sorted n 0) as Hs. fold (keys n) in Hs. rewrite <- Hsplit in Hs, Hx.
  destruct (sorted_split Z.lt pre k post Hs) as [_ Hall].
  apply in_app_or in Hx. destruct Hx as [Hx|[Hx|Hx]]; [exact Hx | lia |].
  rewrite Forall_forall in Hall. specialize (Hall x Hx). lia.
Qed.

Lemma visit_index (s : Z) :
  0 <= s < 26 -> In (Z.rem (26 - s) 26) (keys 26) /\ Z.rem (26 - Z.rem (26 - s) 26) 26 = s.
Proof.
  intros Hs. assert (H : s = 0 \/ 0 < s) by lia. destruct H as [->|Hpos].
  - change (Z.rem (26 - 0) 26) with 0. split; [|reflexivity].
    apply (proj2 (keys_In 26 0)). change (Z.of_nat 26) with 26. lia.
  - rewrite (Z.rem_small (26 - s) 26) by lia. split.
    + apply (proj2 (keys_In 26 (26 - s))). change (Z.of_nat 26) with 26. lia.
    + replace (26 - (26 - s)) with s by lia. apply Z.rem_small. lia.
Qed.

Lemma bestShift_minimum (cipher : jsstring) :
  exists k,
    0 <= k < 26 /\
    Cesare.bestShiftByFrequency cipher = candidate cipher k /\
    (forall s, 0 <= s < 26 ->
               (Spec.chiOfShift cipher (Z.rem (26 - k) 26) <= Spec.chiOfShift cipher s)%Q) /\
    (forall s, 0 <= s < 26 -> Z.rem (26 - s) 26 < k ->
               (Spec.chiOfShift cipher (Z.rem (26 - k) 26) < Spec.chiOfShift cipher s)%Q).
Proof.
  destruct (bestShift_first_minimum cipher) as [pre [k [post [Hsplit [Hbest [Hpre Hpost]]]]]].
  assert (Hk : 0 <= k < 26).
  { apply (proj1 (keys_In 26 k)). rewrite <- Hsplit. apply in_or_app. right. left. reflexivity. }
  exists k. split; [exact Hk|]. split; [exact Hbest|]. split.
  - intros s Hs. destruct (visit_index s Hs) as [Hin Hback].
    rewrite <- Hsplit in Hin. rewrite <- Hback.
    apply in_app_or in Hin. destruct Hin as [Hin|[Hin|Hin]].
    + apply Qlt_le_weak. exact (Hpre _ Hin).
    + rewrite <- Hin. apply Qle_refl.
    + exact (Hpost _ Hin).
  - intros s Hs Hlt. destruct (visit_index s Hs) as [Hin Hback].
    rewrite <- Hback. apply Hpre.
    apply (keys_split_before 26 pre k post); assumption.
Qed.


Lemma shift_fixed_point (ch m : Z) :
  Spec.isAZ ch -> 0 <= m -> 65 + (ch - 65 + m) mod 26 = ch -> m mod 26 = 0.
Proof.
  intros Hch Hm E. unfold Spec.isAZ in Hch.
  assert (E' : (ch - 65 + m) mod 26 = (ch - 65) mod 26).
  { rewrite (Z.mod_small (ch - 65) 26) by lia. lia. }
  rewrite <- (Z.add_mod_idemp_r (ch - 65) m) in E' by lia.
  pose proof (Z.mod_pos_bound m 26 ltac:(lia)) as Hb.
  assert (H : m mod 26 = 0 \/ 0 < m mod 26) by lia. destruct H as [H|H]; [exact H|].
  exfalso. rewrite (Z.mod_small (ch - 65) 26) in E' by lia.
  assert (Hc : ch - 65 + m mod 26 < 26 \/ 26 <= ch - 65 + m mod 26) by lia.
  destruct Hc as [Hc|Hc].
  - rewrite Z.mod_small in E' by lia. lia.
  - replace (ch - 65 + m mod 26) with ((ch - 65 + m mod 26 - 26) + 1 * 26) in E' by lia.
    rewrite Z.mod_add in E' by lia. rewrite Z.mod_small in E' by lia. lia.
Qed.

Lemma complement_unique (k d : Z) :
  0 <= k -> 0 <= d < 26 ->
  ((k + d) mod 26 = 0 <-> d = Z.rem (26 - Z.rem k 26) 26).
Proof.
  intros Hk Hd. destruct (complement_shift k Hk) as [Hr Hz].
  set (c := Z.rem (26 - Z.rem k 26) 26) in *. split.
  - intros E.
    assert (Hdc : (d - c) mod 26 = 0 \/ (c - d) mod 26 = 0).
    { destruct (Z_le_gt_dec c d).
      - left. replace (d - c) with ((k + d) - (k + c)) by lia.
        rewrite Zminus_mod, E, Hz. reflexivity.
      - right. replace (c - d) with ((k + c) - (k + d)) by lia.
        rewrite Zminus_mod, E, Hz. reflexivity. }
    destruct Hdc as [H|H].
    + destruct (Z_le_gt_dec c d); [rewrite Z.mod_small in H by lia; lia|].
      assert (Hx : d - c = (d - c + 26) + (-1) * 26) by lia.
      rewrite Hx, Z.mod_add, Z.mod_small in H by lia. lia.
    + destruct (Z_le_gt_dec d c); [rewrite Z.mod_small in H by lia; lia|].
      assert (Hx : c - d = (c - d + 26) + (-1) * 26) by lia.
      rewrite Hx, Z.mod_add, Z.mod_small in H by lia. lia.
  - intros ->. exact Hz.
Qed.

(** X25.  Lines 124-129 of [main] of cesare.js, for a normalised text
    that is not empty and a shift that is not negative: the decrypted text
    is the source shifted by the sum of the encryption shift and the
    detected shift, and it is the source again exactly when the detected
    shift is the complement [(26 - k % 26) % 26] of the encryption
    shift. *)
Theorem X25_cesare_main (norm : jsstring) (k : Z) :
  Forall Spec.isAZ norm -> norm <> [] -> Spec.shiftAmount k ->
  let r := Cesare.encryptAndAttack norm k in
  fst (fst r) = Cesare.caesarShift norm k /\
  0 <= snd (fst r) < 26 /\
  snd r = Cesare.caesarShift norm (k + snd (fst r)) /\
  (snd r = norm <-> snd (fst r) = Z.rem (26 - Z.rem k 26) 26).
Proof.
  intros Hnorm Hne [Hk _]. cbv zeta. unfold Cesare.encryptAndAttack. cbv zeta.
  cbn [fst snd].
  destruct (bestShift_minimum (Cesare.caesarShift norm k)) as [x [Hx [Hbest _]]].
  rewrite Hbest. unfold candidate. cbn [Cesare.shift Cesare.plain].
  set (d := Z.rem (26 - x) 26).
  assert (Hd : 0 <= d < 26).
  { unfold d. assert (H : x = 0 \/ 0 < x) by lia. destruct H as [->|Hpos].
    - change (Z.rem (26 - 0) 26) with 0. lia.
    - rewrite Z.rem_small by lia. lia. }
  split; [reflexivity|]. split; [exact Hd|].
  rewrite caesarShift_compose by lia. split; [reflexivity|].
  rewrite <- (complement_unique k d Hk Hd). split.
  - intros E. destruct norm as [|ch t]; [congruence|].
    inversion Hnorm as [|? ? Hch _]. subst.
    rewrite caesarShift_eq in E by lia. cbn [List.map] in E.
    rewrite (proj2 (isAZ_test ch) Hch) in E. injection E as E _.
    apply (shift_fixed_point ch (k + d) Hch); [lia | exact E].
  - intros E. apply caesarShift_cycle; [lia | exact E].
Qed.

Lemma X25_cesare_main_witness :
  snd (Cesare.encryptAndAttack (str "A") 7) = str "A" <->
  snd (fst (Cesare.encryptAndAttack (str "A") 7)) = Z.rem (26 - Z.rem 7 26) 26.
Proof.
  apply (X25_cesare_main (str "A") 7).
  - repeat constructor; unfold Spec.isAZ; cbn; lia.
  - discriminate.
  - unfold Spec.shiftAmount, Spec.MAX_SAFE_INTEGER; lia.
Defined.

Lemma caesarShift_no_letters (t : jsstring) (k : Z) :
  Forall (fun ch => ~ Spec.isAZ ch) t -> Cesare.caesarShift t k = t.
Proof.
  intros Ht. unfold Cesare.caesarShift. rewrite <- (map_id t) at 2.
  apply map_ext_in. intros ch Hch. rewrite Forall_forall in Ht. specialize (Ht ch Hch).
  destruct ((65 <=? ch) && (ch <=? 90)) eqn:E; [|reflexivity].
  exfalso. apply Ht, isAZ_test. exact E.
Qed.

(** X26.  On a ciphertext without any letter A-Z, in particular on the
    empty string, every shift leaves the text unchanged and has the same
    chi-squared value, so [bestShiftByFrequency] keeps the first candidate:
    it returns the shift 0 and the ciphertext itself. *)
Theorem X26_bestShift_no_letters (cipher : jsstring) :
  Forall (fun ch => ~ Spec.isAZ ch) cipher ->
  Cesare.bestShiftByFrequency cipher
  = Cesare.mkBest 0 (Some (Spec.chiOfShift cipher 0)) cipher /\
  Cesare.bestShiftByFrequency [] = Cesare.mkBest 0 (Some (Spec.chiOfShift [] 0)) [].
Proof.
  assert (H : forall t, Forall (fun ch => ~ Spec.isAZ ch) t ->
                        Cesare.bestShiftByFrequency t
                        = Cesare.mkBest 0 (Some (Spec.chiOfShift t 0)) t).
  { intros t Ht.
    destruct (bestShift_minimum t) as [k [Hk [Hbest [_ Hfirst]]]].
    assert (Hchi : forall s, Spec.chiOfShift t s = Spec.chiOfShift t 0).
    { intros s. unfold Spec.chiOfShift. rewrite !caesarShift_no_letters by exact Ht.
      reflexivity. }
    assert (Hk0 : k = 0).
    { destruct (Z.eq_dec k 0) as [E|E]; [exact E|]. exfalso.
      specialize (Hfirst 0 ltac:(lia)). change (Z.rem (26 - 0) 26) with 0 in Hfirst.
      specialize (Hfirst ltac:(lia)). rewrite Hchi in Hfirst.
      exact (Qlt_irrefl _ Hfirst). }
    rewrite Hbest, Hk0. unfold candidate. change (Z.rem (26 - 0) 26) with 0.
    rewrite caesarShift_no_letters by exact Ht. reflexivity. }
  intros Hc. split; [apply H; exact Hc | apply H; constructor].
Qed.

Lemma X26_bestShift_no_letters_witness :
  Cesare.bestShiftByFrequency (str "12 3")
  = Cesare.mkBest 0 (Some (Spec.chiOfShift (str "12 3") 0)) (str "12 3").
Proof.
  apply (X26_bestShift_no_letters (str "12 3")).
  repeat constructor; unfold Spec.isAZ; cbn; lia.
Defined.

(** ** The chi-squared statistic *)

(** The loop of [chiSquared] adds one term per letter. *)
Lemma chiSquared_sum (obsPerc : list (Z * Q)) (fr : list (Z * Q)) :
  forall acc : Q,
    (fold_left (fun chi le =>
                  let expected := snd le in
                  let observed := match map_get Z.eqb obsPerc (fst le) with
                                  | Some o => o
                                  | None => 0%Q
                                  end in
                  (chi + ((observed - expected) * (observed - expected))
                         / Qmax expected Cesare.eps)%Q) fr acc
     == acc + Spec.sumQ (List.map (chiTerm obsPerc) fr))%Q.
Proof.
  induction fr as [|le fr IH]; intros acc.
  - cbn. ring.
  - rewrite fold_left_step. cbv zeta. rewrite IH.
    cbn [List.map Spec.sumQ fold_right].
    fold (Spec.sumQ (List.map (chiTerm obsPerc) fr)).
    unfold chiTerm at 2. unfold Spec.observed. ring.
Qed.

Lemma eps_positive : (0 < Cesare.eps)%Q.
Proof. reflexivity. Qed.

Lemma chiTerm_nonneg (obsPerc : list (Z * Q)) (le : Z * Q) : (0 <= chiTerm obsPerc le)%Q.
Proof.
  unfold chiTerm, Qdiv. apply Qmult_le_0_compat.
  - set (x := (Spec.observed obsPerc (fst le) - snd le)%Q). nra.
  - apply Qinv_le_0_compat.
    apply Qle_trans with Cesare.eps; [apply Qlt_le_weak, eps_positive | apply Q.le_max_r].
Qed.

Lemma chiTerm_zero (obsPerc : list (Z * Q)) (le : Z * Q) :
  (chiTerm obsPerc le == 0 <-> Spec.observed obsPerc (fst le) == snd le)%Q.
Proof.
  unfold chiTerm, Qdiv.
  set (o := Spec.observed obsPerc (fst le)). set (e := snd le).
  assert (Hd : (0 < Qmax e Cesare.eps)%Q).
  { apply Qlt_le_trans with Cesare.eps; [apply eps_positive | apply Q.le_max_r]. }
  split.
  - intros H. apply Qmult_integral in H. destruct H as [H|H].
    + apply Qmult_integral in H. destruct H as [H|H]; lra.
    + pose proof (Qinv_lt_0_compat _ Hd) as Hi. lra.
  - intros H. setoid_replace (o - e)%Q with 0%Q by lra. ring.
Qed.

Lemma sumQ_nonneg {A : Type} (f : A -> Q) (l : list A) :
  (forall x, In x l -> (0 <= f x)%Q) -> (0 <= Spec.sumQ (List.map f l))%Q.
Proof.
  induction l as [|a l IH]; intros Hf; cbn [List.map Spec.sumQ fold_right].
  - apply Qle_refl.
  - fold (Spec.sumQ (List.map f l)).
    pose proof (Hf a (or_introl eq_refl)).
    pose proof (IH (fun x Hx => Hf x (or_intror Hx))). lra.
Qed.

Lemma sumQ_zero {A : Type} (f : A -> Q) (l : list A) :
  (forall x, In x l -> (0 <= f x)%Q) ->
  (Spec.sumQ (List.map f l) == 0 <-> forall x, In x l -> f x == 0)%Q.
Proof.
  induction l as [|a l IH]; intros Hf; cbn [List.map Spec.sumQ fold_right].
  - split; [intros _ x [] | intros _; reflexivity].
  - fold (Spec.sumQ (List.map f l)).
    pose proof (Hf a (or_introl eq_refl)) as Ha.
    pose proof (sumQ_nonneg f l (fun x Hx => Hf x (or_intror Hx))) as Hl.
    specialize (IH (fun x Hx => Hf x (or_intror Hx))). split.
    + intros H x [<-|Hx]; [lra|]. apply IH; [lra | exact Hx].
    + intros H. pose proof (H a (or_introl eq_refl)).
      pose proof (proj2 IH (fun x Hx => H x (or_intror Hx))). lra.
Qed.

(** X27.  [chiSquared] is never negative, whatever the observed
    percentages, since every expected percentage is divided through
    [max(expected, eps)], which is positive; and it is 0 exactly when the
    observed percentage of each of the 26 letters, 0 for a letter that is
    missing, equals its Italian reference percentage. *)
Theorem X27_chiSquared_nonneg (obsPerc : list (Z * Q)) :
  (0 <= Cesare.chiSquared obsPerc)%Q /\
  (Cesare.chiSquared obsPerc == 0 <->
   forall le, In le Cesare.ITALIAN_FREQ -> Spec.observed obsPerc (fst le) == snd le)%Q.
Proof.
  unfold Cesare.chiSquared. generalize Cesare.ITALIAN_FREQ. intros fr. split.
  - rewrite chiSquared_sum.
    pose proof (sumQ_nonneg (chiTerm obsPerc) fr (fun le _ => chiTerm_nonneg obsPerc le)).
    lra.
  - rewrite chiSquared_sum, Qplus_0_l.
    rewrite (sumQ_zero (chiTerm obsPerc) fr (fun le _ => chiTerm_nonneg obsPerc le)).
    split; intros H le Hle; apply chiTerm_zero, H, Hle.
Qed.

(** ** Swaps that the ciphertext cannot see *)

Lemma letterOf_getLetter (m : RsaAttack.mapping) (c : Z) :
  RsaAttack.letterOf m c
  = match RsaAttack.getLetter m c with Some l => l | None => 63 end.
Proof.
  unfold RsaAttack.letterOf, RsaAttack.getLetter.
  destruct (map_get Z.eqb m c) as [[l|]|]; reflexivity.
Qed.

Lemma absent_swap_decoding (m : RsaAttack.mapping) (cipherNums : RsaAttack.cipherArray)
      (a b : Z) :
  ~ In (Some a) cipherNums -> ~ In (Some b) cipherNums ->
  RsaAttack.applyMappingToCipher cipherNums (RsaAttack.swapLetters m a b)
  = RsaAttack.applyMappingToCipher cipherNums m.
Proof.
  intros Ha Hb. unfold RsaAttack.applyMappingToCipher. apply map_ext_in.
  intros [c|] Hc; [|reflexivity].
  rewrite !letterOf_getLetter, getLetter_swap. unfold transpose.
  destruct (Z.eqb_spec c b) as [->|_]; [contradiction|].
  destruct (Z.eqb_spec c a) as [->|_]; [contradiction | reflexivity].
Qed.

(** X28.  An iteration of [hillClimb] that draws two symbols neither of
    which occurs in the ciphertext proposes a swap that the decoded text
    cannot see: the score is the same, and since only a strictly greater
    score is accepted, the swap is reverted and the mapping and the score
    stay as they were. *)
Theorem X28_absent_swap_rejected {num : Type} (zero : num) (add : num -> num -> num)
        (gtb : num -> num -> bool) (cipherNums : RsaAttack.cipherArray)
        (model : RsaAttack.bigram) (expected : list Z) (m : RsaAttack.mapping)
        (draw : nat * nat) :
  (forall x, gtb x x = false) ->
  expected <> [] ->
  hasAll expected m ->
  ~ In (Some (fst (drawn expected draw))) cipherNums ->
  ~ In (Some (snd (drawn expected draw))) cipherNums ->
  RsaAttack.scoreMapping zero add
    (RsaAttack.swapLetters m (fst (drawn expected draw)) (snd (drawn expected draw)))
    cipherNums model
  = RsaAttack.scoreMapping zero add m cipherNums model /\
  RsaAttack.climbStep zero add gtb cipherNums model expected
    (m, RsaAttack.scoreMapping zero add m cipherNums model) draw
  = (m, RsaAttack.scoreMapping zero add m cipherNums model).
Proof.
  intros Hirr Hne Hall Ha Hb.
  assert (E : RsaAttack.scoreMapping zero add
                (RsaAttack.swapLetters m (fst (drawn expected draw))
                                       (snd (drawn expected draw)))
                cipherNums model
              = RsaAttack.scoreMapping zero add m cipherNums model).
  { unfold RsaAttack.scoreMapping. rewrite absent_swap_decoding by assumption. reflexivity. }
  split; [exact E|].
  rewrite (climbStep_spec zero add gtb cipherNums model expected Hne m _ draw Hall).
  cbv zeta. rewrite E, Hirr, andb_false_r. reflexivity.
Qed.

Lemma X28_absent_swap_rejected_witness :
  RsaAttack.climbStep 0 Z.add Z.gtb [Some 5; Some 7] (fun _ _ => 1) [5; 7; 8; 9]
    ([(5, Some 65); (7, Some 66); (8, Some 67); (9, Some 68)],
     RsaAttack.scoreMapping 0 Z.add [(5, Some 65); (7, Some 66); (8, Some 67); (9, Some 68)]
                            [Some 5; Some 7] (fun _ _ => 1))
    (2, 3)%nat
  = ([(5, Some 65); (7, Some 66); (8, Some 67); (9, Some 68)],
     RsaAttack.scoreMapping 0 Z.add [(5, Some 65); (7, Some 66); (8, Some 67); (9, Some 68)]
                            [Some 5; Some 7] (fun _ _ => 1)).
Proof.
  apply (X28_absent_swap_rejected 0 Z.add Z.gtb [Some 5; Some 7] (fun _ _ => 1)
           [5; 7; 8; 9] [(5, Some 65); (7, Some 66); (8, Some 67); (9, Some 68)] (2, 3)%nat).
  - intros x. rewrite Z.gtb_ltb. apply Z.ltb_irrefl.
  - discriminate.
  - intros s Hs. exact Hs.
  - cbn. intros [H|[H|[]]]; discriminate.
  - cbn. intros [H|[H|[]]]; discriminate.
Defined.
